(** * The Markov chain engine of braidgenerator (markovchain.py)

    A shallow embedding of [MarkovChain]: the engine owns a reference to one
    working [BraidWord], two bounds and the aggregate of snapshots and logs.
    Python objects live in a store addressed by locations, so that the
    aliasing between the engine and the values its accessors hand out is
    visible.  The methods are written in a state-and-exception monad whose
    primitives are the store operations, [random.randrange] and the calls of
    the seven [BraidWord] moves. *)

From Stdlib Require Import ZArith String DecimalString.
From Stdlib Require DecimalZ DecimalPos.
From stdpp Require Import base gmap list strings.

Local Open Scope Z_scope.

(** ** Python exceptions raised by the modelled code *)

Inductive exn : Type :=
| ValueError
| TypeError
| NameError
| AttributeError
| KeyError
| IndexError
| InvalidRef. (* a location outside the store: no Python program has one *)

Inductive result (A : Type) : Type :=
| Ok (a : A)
| Raised (e : exn).
Arguments Ok {A} a.
Arguments Raised {A} e.

(** ** Braid words

    [braidgenerator.braidword] is imported by the engine; of a [BraidWord]
    the engine reads the attributes [word] and [largestGenerator], calls
    [length()], the two predicates and the seven moves. *)

Record BraidWord : Type := { word : list Z }.

(** Programs that only consume random draws: a move of a braid word may ask
    the shared random source for numbers (the sign of a stabilisation) and
    does nothing else to the world.  [RDraw n k] asks for [randrange(n)]. *)
Inductive rand (A : Type) : Type :=
| RRet (a : A)
| RDraw (n : positive) (k : Z -> rand A).
Arguments RRet {A} a.
Arguments RDraw {A} n k.

Module BraidWord.

(** Modelled from the spec: [braidword.py] is not part of the sources at
    hand; section 3 gives [length] as the count of elements. *)
Definition length (b : BraidWord) : Z := Z.of_nat (List.length (word b)).

(** Modelled from the spec: [braidword.py] is not part of the sources at
    hand; section 3 gives [largestGenerator] as the maximum magnitude among
    the elements, 0 for the empty word. *)
Definition largestGenerator (b : BraidWord) : Z :=
  foldr (fun g acc => Z.max (Z.abs g) acc) 0 (word b).

(** The methods of [BraidWord] the engine calls.  A move returns its success
    flag together with the word it leaves behind; the predicates only read. *)
Class Moves : Type := {
  conjugate : BraidWord -> Z -> rand (bool * BraidWord);
  canCancel : BraidWord -> Z -> bool;
  cancel : BraidWord -> Z -> rand (bool * BraidWord);
  insert : BraidWord -> Z -> Z -> rand (bool * BraidWord);
  transpose : BraidWord -> Z -> rand (bool * BraidWord);
  flip : BraidWord -> Z -> rand (bool * BraidWord);
  stabilize : BraidWord -> rand (bool * BraidWord);
  canDestabilize : BraidWord -> bool;
  destabilize : BraidWord -> rand (bool * BraidWord)
}.

End BraidWord.

(** ** The store and the world *)

(** Locations are indices into the store. *)
Abbreviation loc := nat (only parsing).

Inductive obj : Type :=
| OBraidWord (b : BraidWord)      (* a BraidWord instance, its word inline *)
| ODict (d : gmap Z string).      (* a log: step index to message *)

(** A call of a move on a braid word, as the engine issues it. *)
Inductive call : Type :=
| Conjugate (index : Z)
| Cancel (index : Z)
| Insert (index generator : Z)
| Transpose (index : Z)
| Flip (index : Z)
| Stabilize
| Destabilize.

(** What the engine does to its collaborators, in order: a draw
    [randrange(n)] with its outcome, or a move called on an object. *)
Inductive label : Type :=
| LDraw (n r : Z)
| LCall (target : loc) (c : call).

(** [self.braidagg]: the two parallel lists, holding references. *)
Record braidagg_t : Type := {
  agg_braidreps : list loc;
  agg_logs : list loc
}.

Record MarkovChain : Type := {
  braid : loc;
  maxgen : Z;
  maxlen : Z;
  braidagg : braidagg_t
}.

Definition with_braid (l : loc) (m : MarkovChain) : MarkovChain :=
  {| braid := l; maxgen := maxgen m; maxlen := maxlen m;
     braidagg := braidagg m |}.

Definition with_braidagg (a : braidagg_t) (m : MarkovChain) : MarkovChain :=
  {| braid := braid m; maxgen := maxgen m; maxlen := maxlen m;
     braidagg := a |}.

(** The world: the engine, the stored objects, the random source (a stream
    of raw numbers fixed by the seed, and the position reached in it) and
    the history of what the engine has asked of its collaborators. *)
Record state : Type := {
  self : MarkovChain;
  heap : list obj;
  tape : nat -> Z;
  pos : nat;
  history : list label
}.

Definition set_self (f : MarkovChain -> MarkovChain) (s : state) : state :=
  {| self := f (self s); heap := heap s; tape := tape s; pos := pos s;
     history := history s |}.

Definition set_heap (f : list obj -> list obj) (s : state) : state :=
  {| self := self s; heap := f (heap s); tape := tape s; pos := pos s;
     history := history s |}.

Definition emit (x : label) (s : state) : state :=
  {| self := self s; heap := heap s; tape := tape s; pos := pos s;
     history := history s ++ [x] |}.

Definition advance (s : state) : state :=
  {| self := self s; heap := heap s; tape := tape s; pos := S (pos s);
     history := history s |}.

(** ** The monad of the methods: state and exceptions *)

Definition M (A : Type) : Type := state -> result A * state.

Definition ret {A : Type} (a : A) : M A := fun s => (Ok a, s).

Definition raise {A : Type} (e : exn) : M A := fun s => (Raised e, s).

Definition bind {A B : Type} (m : M A) (k : A -> M B) : M B :=
  fun s =>
    match m s with
    | (Ok a, s') => k a s'
    | (Raised e, s') => (Raised e, s')
    end.

Notation "'let*' x ':=' m 'in' k" := (bind m (fun x => k))
  (at level 10, x pattern, m at level 100, k at level 200).

Definition gets {A : Type} (f : state -> A) : M A := fun s => (Ok (f s), s).

Definition modify (f : state -> state) : M unit := fun s => (Ok tt, f s).

(** Python's [a and b] on booleans: [b] is evaluated only when [a] holds. *)
Definition and_then (a b : M bool) : M bool :=
  let* x := a in if x then b else ret false.

(** [for i in range(stop): body], counting from [i] for [n] rounds. *)
Fixpoint for_range (n : nat) (i : Z) (body : Z -> M unit) : M unit :=
  match n with
  | O => ret tt
  | S n' => let* _ := body i in for_range n' (i + 1) body
  end.

Definition for_in_range (stop : Z) (body : Z -> M unit) : M unit :=
  for_range (Z.to_nat stop) 0 body.

(** *** Store primitives *)

Definition alloc (o : obj) : M loc :=
  fun s => (Ok (List.length (heap s)), set_heap (fun h => h ++ [o]) s).

Definition load (l : loc) : M obj :=
  fun s =>
    match heap s !! l with
    | Some o => (Ok o, s)
    | None => (Raised InvalidRef, s)
    end.

Definition store (l : loc) (o : obj) : M unit :=
  modify (set_heap (fun h => <[l := o]> h)).

(** [copy.deepcopy] of a stored object: objects hold their contents inline,
    so a fresh cell with the same contents shares nothing with the old. *)
Definition deepcopy (l : loc) : M loc :=
  let* o := load l in alloc o.

(** Attribute and method access on a reference expected to be a BraidWord. *)
Definition as_braid (l : loc) : M BraidWord :=
  let* o := load l in
  match o with
  | OBraidWord b => ret b
  | ODict _ => raise AttributeError
  end.

(** [d[k] = v] and [d[k]] on a dict. *)
Definition setitem (l : loc) (k : Z) (v : string) : M unit :=
  let* o := load l in
  match o with
  | ODict d => store l (ODict (<[k := v]> d))
  | OBraidWord _ => raise TypeError
  end.

Definition getitem (l : loc) (k : Z) : M string :=
  let* o := load l in
  match o with
  | ODict d =>
      match d !! k with
      | Some v => ret v
      | None => raise KeyError
      end
  | OBraidWord _ => raise TypeError
  end.

(** *** The random source *)

(** [random.randrange(n)]: an empty range raises [ValueError]; otherwise the
    next raw number of the stream is reduced into [[0, n)]. *)
Definition rr (n : Z) : M Z :=
  fun s =>
    if n <=? 0 then (Raised ValueError, s)
    else
      let r := tape s (pos s) mod n in
      (Ok r, emit (LDraw n r) (advance s)).

Fixpoint sample {A : Type} (t : rand A) : M A :=
  match t with
  | RRet a => ret a
  | RDraw n k => let* r := rr (Z.pos n) in sample (k r)
  end.

(** *** Copies *)

(** [copy.deepcopy] keeps a memo, so that an object met twice in one
    structure is copied once. *)
Definition deepcopy_memo (memo : gmap loc loc) (l : loc)
  : M (loc * gmap loc loc) :=
  match memo !! l with
  | Some l' => ret (l', memo)
  | None => let* l' := deepcopy l in ret (l', <[l := l']> memo)
  end.

Fixpoint deepcopy_list (memo : gmap loc loc) (ls : list loc)
  : M (list loc * gmap loc loc) :=
  match ls with
  | [] => ret ([], memo)
  | l :: rest =>
      let* (l', memo) := deepcopy_memo memo l in
      let* (rest', memo) := deepcopy_list memo rest in
      ret (l' :: rest', memo)
  end.

(** *** Values of a call and of its frame *)

Inductive pyval : Type :=
| VRef (l : loc)        (* a stored object *)
| VList (xs : list Z)   (* a raw word *)
| VSelf                 (* the MarkovChain instance *)
| VInt (z : Z)
| VStr (s : string)
| VNone.

Definition frame : Type := list (string * pyval).

(** Positional arguments are bound to the parameters of the definition; a
    wrong count is a [TypeError] raised before the body runs. *)
Definition bind_params (params : list string) (args : list pyval) : M frame :=
  if decide (List.length args = List.length params) then
    ret (zip params args)
  else raise TypeError.

Fixpoint frame_get (fr : frame) (x : string) : option pyval :=
  match fr with
  | [] => None
  | (y, v) :: rest => if decide (x = y) then Some v else frame_get rest x
  end.

Definition name (fr : frame) (x : string) : M pyval :=
  match frame_get fr x with
  | Some v => ret v
  | None => raise NameError
  end.

(** [instance.method(args)]: the instance is passed as first argument. *)
Definition call_bound {A : Type} (f : list pyval -> M A) (args : list pyval)
  : M A :=
  f (VSelf :: args).

(** [Class.method(args)]: the function is called with the arguments alone. *)
Definition call_plain {A : Type} (f : list pyval -> M A) (args : list pyval)
  : M A :=
  f args.

Definition isinstance_BraidWord (v : pyval) : M bool :=
  match v with
  | VRef l =>
      let* o := load l in
      match o with
      | OBraidWord _ => ret true
      | ODict _ => ret false
      end
  | _ => ret false
  end.

Definition isinstance_list (v : pyval) : bool :=
  match v with
  | VList _ => true
  | _ => false
  end.

(** [target.braid = l]; only the engine instance is modelled as a target. *)
Definition setattr_braid (target : pyval) (l : loc) : M unit :=
  match target with
  | VSelf => modify (set_self (with_braid l))
  | _ => raise AttributeError
  end.

(** *** What a caller holds and can do with it *)

(** A value handed out by [braidreps]: a BraidWord object, or the list
    object in the attribute [word] of one. *)
Inductive ref : Type :=
| RObj (l : loc)
| RWord (l : loc).

Definition ref_target (r : ref) : loc :=
  match r with
  | RObj l => l
  | RWord l => l
  end.

(** The caller's [x[i] = v] on a returned word ([x.word[i] = v] on a returned
    BraidWord): Python raises [IndexError] out of range. *)
Definition word_setitem (r : ref) (i : nat) (v : Z) : M unit :=
  let* b := as_braid (ref_target r) in
  if decide (i < List.length (word b))%nat then
    store (ref_target r) (OBraidWord {| word := <[i := v]> (word b) |})
  else raise IndexError.

(** The elements a caller reads behind the returned references. *)
Fixpoint contents (rs : list ref) : M (list (list Z)) :=
  match rs with
  | [] => ret []
  | r :: rest =>
      let* b := as_braid (ref_target r) in
      let* ws := contents rest in
      ret (word b :: ws)
  end.

(** ** The engine *)

Module MarkovChain.

(** [str] of an integer, as an f-string renders it. *)
Definition str (z : Z) : string := NilZero.string_of_int (Z.to_int z).

Definition log_message (movetype : Z) (name : string) (result : bool)
  : string :=
  let beg := "MoveType: " +:+ (str movetype +:+ ", ") in
  let tmp := "Attempted " +:+ (name +:+ ": ") in
  let tmp :=
    if result then tmp +:+ (name +:+ " Succeeded.")
    else tmp +:+ (name +:+ " Failed.") in
  beg +:+ tmp.

(** [__init__]: the decorator has turned the argument into a BraidWord, the
    body stores the reference and the bounds and starts an empty aggregate. *)
Definition init (braidword : loc) (maxgen maxlen : Z) : M unit :=
  modify (set_self (fun _ =>
    {| braid := braidword; maxgen := maxgen; maxlen := maxlen;
       braidagg := {| agg_braidreps := []; agg_logs := [] |} |})).

Section Model.
Context {moves : BraidWord.Moves}.

Definition run_move (c : call) (b : BraidWord) : rand (bool * BraidWord) :=
  match c with
  | Conjugate index => BraidWord.conjugate b index
  | Cancel index => BraidWord.cancel b index
  | Insert index generator => BraidWord.insert b index generator
  | Transpose index => BraidWord.transpose b index
  | Flip index => BraidWord.flip b index
  | Stabilize => BraidWord.stabilize b
  | Destabilize => BraidWord.destabilize b
  end.

(** [braid.<move>(...)]: the move runs on the object behind the reference,
    drawing from the shared source, and mutates that object in place. *)
Definition invoke (braid : loc) (c : call) : M bool :=
  let* b := as_braid braid in
  let* _ := modify (emit (LCall braid c)) in
  let* (ok, b') := sample (run_move c b) in
  let* _ := store braid (OBraidWord b') in
  ret ok.

Definition length_ (braid : loc) : M Z :=
  let* b := as_braid braid in ret (BraidWord.length b).

Definition largestGenerator_ (braid : loc) : M Z :=
  let* b := as_braid braid in ret (BraidWord.largestGenerator b).

Definition canCancel_ (braid : loc) (index : Z) : M bool :=
  let* b := as_braid braid in ret (BraidWord.canCancel b index).

Definition canDestabilize_ (braid : loc) : M bool :=
  let* b := as_braid braid in ret (BraidWord.canDestabilize b).

(** The chain of conditionals on [movetype] in the loop body.  Nothing
    follows it in the body, so [continue] is the end of the branch.  The
    [__name__] of a bound method is the name of the method. *)
Definition dispatch (braid log : loc) (step movetype index : Z) : M unit :=
  if movetype =? 0 then
    let* ok := invoke braid (Conjugate index) in
    if ok then
      setitem log step (log_message movetype "conjugate" true)
    else
      setitem log step (log_message movetype "conjugate" false)
  else if movetype =? 1 then
    let* unknot :=
      and_then (let* n := length_ braid in ret (n =? 2))
               (canCancel_ braid index) in
    if unknot then
      let* _ :=
        setitem log step
          (log_message movetype "cancel" false) in
      let* old := getitem log step in
      setitem log step (old +:+ "Unknot")
    else
      let* ok := invoke braid (Cancel index) in
      if ok then
        setitem log step (log_message movetype "cancel" true)
      else
        setitem log step (log_message movetype "cancel" false)
  else if movetype =? 2 then
    let* ok :=
      and_then
        (let* n := length_ braid in
         let* maxlen := gets (fun s => maxlen (self s)) in
         ret (n <=? maxlen - 2))
        (let* lg := largestGenerator_ braid in
         let* generator := rr (lg + 1) in
         invoke braid (Insert index generator)) in
    if ok then
      setitem log step (log_message movetype "insert" true)
    else
      setitem log step (log_message movetype "insert" false)
  else if movetype =? 3 then
    let* ok := invoke braid (Transpose index) in
    if ok then
      setitem log step (log_message movetype "transpose" true)
    else
      setitem log step (log_message movetype "transpose" false)
  else if movetype =? 4 then
    let* ok := invoke braid (Flip index) in
    if ok then
      setitem log step (log_message movetype "flip" true)
    else
      setitem log step (log_message movetype "flip" false)
  else if movetype =? 5 then
    let* ok :=
      and_then
        (let* n := length_ braid in
         let* maxlen := gets (fun s => maxlen (self s)) in
         ret (n <=? maxlen - 1))
        (and_then
           (let* lg := largestGenerator_ braid in
            let* maxgen := gets (fun s => maxgen (self s)) in
            ret (lg <? maxgen))
           (invoke braid Stabilize)) in
    if ok then
      setitem log step (log_message movetype "stabilize" true)
    else
      setitem log step (log_message movetype "stabilize" false)
  else if movetype =? 6 then
    let* unknot :=
      and_then (let* n := length_ braid in ret (n =? 1))
               (canDestabilize_ braid) in
    if unknot then
      let* _ :=
        setitem log step (log_message movetype "destabilize" false) in
      let* old := getitem log step in
      setitem log step (old +:+ "Unknot")
    else
      let* ok := invoke braid Destabilize in
      if ok then
        setitem log step (log_message movetype "destabilize" true)
      else
        setitem log step (log_message movetype "destabilize" false)
  else
    (* should not get to this point *)
    ret tt.

(** The body of [for step in range(msteps)]: the two draws, then the
    dispatch. *)
Definition model_step (braid log : loc) (step : Z) : M unit :=
  let* movetype := rr 7 in
  let* n := length_ braid in
  let* index := rr n in
  dispatch braid log step movetype index.

(** One round of [for _ in range(num_braidreps)]. *)
Definition model_trial (msteps : Z) : M unit :=
  let* braid := gets (fun s => braid (self s)) in (* not copied purposefully *)
  let* log := alloc (ODict ∅) in
  let* _ := for_in_range msteps (model_step braid log) in
  let* snapshot := deepcopy braid in
  let* _ :=
    modify (set_self (fun m =>
      with_braidagg
        {| agg_braidreps := agg_braidreps (braidagg m) ++ [snapshot];
           agg_logs := agg_logs (braidagg m) |} m)) in
  modify (set_self (fun m =>
    with_braidagg
      {| agg_braidreps := agg_braidreps (braidagg m);
         agg_logs := agg_logs (braidagg m) ++ [log] |} m)).

Definition model (num_braidreps msteps : Z) : M unit :=
  for_in_range num_braidreps (fun _ => model_trial msteps).

End Model.

Definition clear_model : M unit :=
  modify (set_self (with_braidagg {| agg_braidreps := []; agg_logs := [] |})).

(** [def new_braidword(braidword: BraidWord)]: the definition has one
    parameter, and its body names [self], which is neither that parameter
    nor a global of the module.  The body therefore works on a frame of
    named values, and an unknown name raises [NameError]. *)
Definition new_braidword (args : list pyval) : M unit :=
  let* fr := bind_params ["braidword"%string] args in
  let* braidword := name fr "braidword" in
  let* is_braidword := isinstance_BraidWord braidword in
  if negb is_braidword then
    if negb (isinstance_list braidword) then
      raise ValueError
    else
      (* BraidWord(deepcopy(braidword)) is evaluated before the target *)
      let* fresh :=
        match braidword with
        | VList xs => alloc (OBraidWord {| word := xs |})
        | _ => raise TypeError
        end in
      let* target := name fr "self" in
      setattr_braid target fresh
  else
    let* fresh :=
      match braidword with
      | VRef l => deepcopy l
      | _ => raise TypeError
      end in
    let* target := name fr "self" in
    setattr_braid target fresh.

(** [deepcopy(self.braidagg)]: the two lists are copied element by element,
    [braidreps] first, under one memo. *)
Definition aggregate : M braidagg_t :=
  let* agg := gets (fun s => braidagg (self s)) in
  let* (bs, memo) := deepcopy_list ∅ (agg_braidreps agg) in
  let* (ls, _) := deepcopy_list memo (agg_logs agg) in
  ret {| agg_braidreps := bs; agg_logs := ls |}.

Definition logs : M (list loc) :=
  let* agg := gets (fun s => braidagg (self s)) in
  let* (ls, _) := deepcopy_list ∅ (agg_logs agg) in
  ret ls.

(** [[i.word for i in isos]]: the attribute is read on every element and the
    list object found there is handed out as it is. *)
Fixpoint words_of (isos : list loc) : M (list ref) :=
  match isos with
  | [] => ret []
  | i :: rest =>
      let* _ := as_braid i in
      let* ws := words_of rest in
      ret (RWord i :: ws)
  end.

Definition braidreps (as_word : bool) : M (list ref) :=
  (* .copy(): a new outer list holding the same references *)
  let* isos := gets (fun s => agg_braidreps (braidagg (self s))) in
  if as_word then
    words_of isos
  else if negb as_word then
    ret (map RObj isos)
  else
    raise ValueError.

End MarkovChain.

(** ** The moves as the specification describes them

    [braidword.py] is not among the sources at hand.  The results on the
    engine are stated for any implementation of [BraidWord.Moves]; the
    instance below is used to run the engine on concrete inputs. *)

Module SpecMoves.

Definition gen_at (w : list Z) (i : Z) : option Z :=
  if i <? 0 then None else w !! Z.to_nat i.

Definition failed (b : BraidWord) : rand (bool * BraidWord) :=
  RRet (false, b).

Definition succeeded (w : list Z) : rand (bool * BraidWord) :=
  RRet (true, {| word := w |}).

(** Modelled from the spec: [BraidWord.conjugate] is missing; section 4.1
    has it rotate the word so that the element at [index] comes to the
    boundary, failing outside [[0, length)]. *)
Definition conjugate (b : BraidWord) (index : Z) : rand (bool * BraidWord) :=
  if (0 <=? index) && (index <? BraidWord.length b) then
    succeeded (drop (Z.to_nat index) (word b) ++ take (Z.to_nat index) (word b))
  else failed b.

(** Modelled from the spec: [BraidWord.canCancel] is missing; section 4.1:
    the elements at [index] and [index+1] are additive inverses. *)
Definition canCancel (b : BraidWord) (index : Z) : bool :=
  match gen_at (word b) index, gen_at (word b) (index + 1) with
  | Some x, Some y => x =? - y
  | _, _ => false
  end.

(** Modelled from the spec: [BraidWord.cancel] is missing; section 4.1: it
    removes the inverse pair at [index], and fails when there is none or
    when the length would drop below 1. *)
Definition cancel (b : BraidWord) (index : Z) : rand (bool * BraidWord) :=
  if canCancel b index && (3 <=? BraidWord.length b) then
    succeeded (take (Z.to_nat index) (word b)
               ++ drop (Z.to_nat index + 2) (word b))
  else failed b.

(** Modelled from the spec: [BraidWord.insert] is missing; section 4.1: it
    inserts the generator and its inverse at [index], failing out of
    range. *)
Definition insert (b : BraidWord) (index generator : Z)
  : rand (bool * BraidWord) :=
  if (0 <=? index) && (index <=? BraidWord.length b) then
    succeeded (take (Z.to_nat index) (word b)
               ++ [generator; - generator]
               ++ drop (Z.to_nat index) (word b))
  else failed b.

(** Modelled from the spec: [BraidWord.transpose] is missing; section 4.1:
    it swaps the elements at [index] and [index+1] when their magnitudes
    differ by at least 2. *)
Definition transpose (b : BraidWord) (index : Z) : rand (bool * BraidWord) :=
  match gen_at (word b) index, gen_at (word b) (index + 1) with
  | Some x, Some y =>
      if 2 <=? Z.abs (Z.abs x - Z.abs y) then
        succeeded (take (Z.to_nat index) (word b)
                   ++ [y; x]
                   ++ drop (Z.to_nat index + 2) (word b))
      else failed b
  | _, _ => failed b
  end.

(** Modelled from the spec: [BraidWord.flip] is missing; section 4.1: the
    triple [g h g] centred at [index], of adjacent magnitudes, becomes
    [h g h]. *)
Definition flip (b : BraidWord) (index : Z) : rand (bool * BraidWord) :=
  match gen_at (word b) (index - 1), gen_at (word b) index,
        gen_at (word b) (index + 1) with
  | Some g, Some h, Some g' =>
      if (g =? g') && (Z.abs (Z.abs g - Z.abs h) =? 1) then
        succeeded (take (Z.to_nat (index - 1)) (word b)
                   ++ [h; g; h]
                   ++ drop (Z.to_nat index + 2) (word b))
      else failed b
  | _, _, _ => failed b
  end.

(** Modelled from the spec: [BraidWord.stabilize] is missing; section 4.1:
    it appends a generator of magnitude [largestGenerator + 1], its sign
    drawn from the shared random source. *)
Definition stabilize (b : BraidWord) : rand (bool * BraidWord) :=
  RDraw 2 (fun sign =>
    let g := BraidWord.largestGenerator b + 1 in
    succeeded (word b ++ [if sign =? 0 then g else - g])).

(** Modelled from the spec: [BraidWord.canDestabilize] is missing; section
    4.1: the magnitude of the last element occurs exactly once. *)
Definition canDestabilize (b : BraidWord) : bool :=
  match last (word b) with
  | Some g =>
      Nat.eqb (List.length (filter (fun x => Z.abs x = Z.abs g) (word b))) 1
  | None => false
  end.

(** Modelled from the spec: [BraidWord.destabilize] is missing; section
    4.1: it removes the last element, and fails when its magnitude occurs
    elsewhere or when the length would drop below 1. *)
Definition destabilize (b : BraidWord) : rand (bool * BraidWord) :=
  if canDestabilize b && (2 <=? BraidWord.length b) then
    succeeded (removelast (word b))
  else failed b.

#[export] Instance moves : BraidWord.Moves := {|
  BraidWord.conjugate := conjugate;
  BraidWord.canCancel := canCancel;
  BraidWord.cancel := cancel;
  BraidWord.insert := insert;
  BraidWord.transpose := transpose;
  BraidWord.flip := flip;
  BraidWord.stabilize := stabilize;
  BraidWord.canDestabilize := canDestabilize;
  BraidWord.destabilize := destabilize
|}.

End SpecMoves.

(** ** Predicates used by the statements *)

(** Every outcome of a move, whatever the draws answer. *)
Fixpoint rand_all {A : Type} (P : A -> Prop) (t : rand A) : Prop :=
  match t with
  | RRet a => P a
  | RDraw n k => forall r, 0 <= r < Z.pos n -> rand_all P (k r)
  end.

Section Guards.
Context {moves : BraidWord.Moves}.

(** The call passes the engine's unknot guards: a cancellation is issued
    unless the word has length 2 and is cancellable there, a
    destabilisation unless the word has length 1 and is destabilisable. *)
Definition guarded (b : BraidWord) (c : call) : bool :=
  match c with
  | Cancel index =>
      negb ((BraidWord.length b =? 2) && BraidWord.canCancel b index)
  | Destabilize =>
      negb ((BraidWord.length b =? 1) && BraidWord.canDestabilize b)
  | _ => true
  end.

(** The moves never empty a word when called behind the guards (the
    invariant [1 <= length] of section 3). *)
Definition keeps_nonempty : Prop :=
  forall (c : call) (b : BraidWord),
    word b <> [] -> guarded b c = true ->
    rand_all (fun r => word r.2 <> []) (MarkovChain.run_move c b).

End Guards.

(** The engine's references point where they should: the working word is a
    stored BraidWord. *)
Definition working_word (s : state) (b : BraidWord) : Prop :=
  heap s !! braid (self s) = Some (OBraidWord b).

(** The result a program of draws reaches on the stream [tp] read from
    position [p], and the position it stops at. *)
Fixpoint outcome {A : Type} (t : rand A) (tp : nat -> Z) (p : nat)
  : A * nat :=
  match t with
  | RRet a => (a, p)
  | RDraw n k => outcome (k (tp p mod Z.pos n)) tp (S p)
  end.

(** The label of a draw. *)
Definition is_draw (x : label) : Prop := exists n r : Z, x = LDraw n r.

(** What a run shows of a label to an observer outside it: a draw with its
    outcome, or the move called.  The object a move is called on is a
    reference internal to the run. *)
Inductive event : Type :=
| EDraw (n r : Z)
| ECall (c : call).

Definition event_of (x : label) : event :=
  match x with
  | LDraw n r => EDraw n r
  | LCall _ c => ECall c
  end.

(** The same seed: the random streams of the two worlds agree from the
    positions the worlds have reached. *)
Definition same_seed (s1 s2 : state) : Prop :=
  forall i : nat, tape s1 (pos s1 + i)%nat = tape s2 (pos s2 + i)%nat.

(** Two worlds in step.  Their engines are [m1] and [m2], with the same
    bounds; the seed is the same; since the histories [h1] and [h2] they
    have shown the same events; and the objects paired by [pairing], which
    matches locations of the one store with locations of the other, are
    stored and equal. *)
Record akin (h1 h2 : list label) (m1 m2 : MarkovChain)
  (pairing : list (loc * loc)) (s1 s2 : state) : Prop := {
  akin_self1 : self s1 = m1;
  akin_self2 : self s2 = m2;
  akin_maxgen : maxgen m1 = maxgen m2;
  akin_maxlen : maxlen m1 = maxlen m2;
  akin_seed : same_seed s1 s2;
  akin_events :
    exists t1 t2 : list label,
      history s1 = h1 ++ t1 /\ history s2 = h2 ++ t2
      /\ map event_of t1 = map event_of t2;
  akin_objects :
    Forall (fun p => exists o : obj,
              heap s1 !! p.1 = Some o /\ heap s2 !! p.2 = Some o) pairing;
  akin_left : NoDup pairing.*1;
  akin_right : NoDup pairing.*2
}.

(** Two methods that, started in related worlds, end with the same outcome
    in related worlds. *)
Definition paired {A : Type} (R : state -> state -> Prop) (m1 m2 : M A)
  : Prop :=
  forall s1 s2 : state,
    R s1 s2 -> (m1 s1).1 = (m2 s2).1 /\ R (m1 s1).2 (m2 s2).2.

(** Two worlds in step since the histories [h1], [h2] and the aggregates
    [a1], [a2]: the working words are paired, and so are, in order, the
    entries the two aggregates have received since. *)
Definition twinned (h1 h2 : list label) (a1 a2 : braidagg_t)
  (s1 s2 : state) : Prop :=
  exists pairing reps logs : list (loc * loc),
    akin h1 h2 (self s1) (self s2) pairing s1 s2
    /\ (braid (self s1), braid (self s2)) ∈ pairing
    /\ reps ⊆ pairing /\ logs ⊆ pairing
    /\ agg_braidreps (braidagg (self s1)) = agg_braidreps a1 ++ reps.*1
    /\ agg_braidreps (braidagg (self s2)) = agg_braidreps a2 ++ reps.*2
    /\ agg_logs (braidagg (self s1)) = agg_logs a1 ++ logs.*1
    /\ agg_logs (braidagg (self s2)) = agg_logs a2 ++ logs.*2.

(** What is stored behind the references of an aggregate. *)
Definition view (h : list obj) (a : braidagg_t)
  : list (option obj) * list (option obj) :=
  (map (fun l => h !! l) (agg_braidreps a), map (fun l => h !! l) (agg_logs a)).

Definition refs (a : braidagg_t) : list loc :=
  agg_braidreps a ++ agg_logs a.

(** The memo of a deep copy of objects of the store [h0]: every entry sends
    an object of [h0] to a newer cell with the same contents. *)
Definition memo_ok (h0 : list obj) (memo : gmap loc loc) (s : state) : Prop :=
  forall l l' : loc,
    memo !! l = Some l' ->
    (l < List.length h0)%nat /\ (List.length h0 <= l')%nat
    /\ heap s !! l' = h0 !! l.

(** A caller holding the objects [held] has changed the store from [h] to
    [h']: every other object is as it was. *)
Definition touched_only (held : list loc) (h h' : list obj) : Prop :=
  forall l : loc, (l < List.length h)%nat -> l ∉ held -> h' !! l = h !! l.

(** The keys of a log lie in [[0, m)]. *)
Definition keys_below (m : Z) (d : gmap Z string) : Prop :=
  forall k : Z, is_Some (d !! k) -> 0 <= k < m.

(** The keys of a log are exactly [[0, m)]. *)
Definition keys_exactly (m : Z) (d : gmap Z string) : Prop :=
  forall k : Z, is_Some (d !! k) <-> 0 <= k < m.

(** The world after [d[step] = msg] on the log at [log], whose entries were
    [d]. *)
Definition logged (log : loc) (step : Z) (msg : string) (d : gmap Z string)
  (s : state) : state :=
  set_heap (fun h => <[log := ODict (<[step := msg]> d)]> h) s.

(** The world after [randrange(7)] and [randrange(n)]. *)
Definition drawn (n : Z) (s : state) : state :=
  let s1 := emit (LDraw 7 (tape s (pos s) mod 7)) (advance s) in
  emit (LDraw n (tape s1 (pos s1) mod n)) (advance s1).

(** No exception, and the postcondition holds of value and world. *)
Definition wp {A : Type} (m : M A) (Q : A -> state -> Prop) (s : state)
  : Prop :=
  match m s with
  | (Ok a, s') => Q a s'
  | (Raised _, _) => False
  end.

(** What a trial keeps true while it steps: the engine's fields and the
    size of the store are those of [s0], the working word is [b] and is not
    empty, the log holds [d], and no other object has changed. *)
Record stepping (s0 : state) (braid log : loc) (b : BraidWord)
  (d : gmap Z string) (s : state) : Prop := {
  stepping_self : self s = self s0;
  stepping_size : List.length (heap s) = List.length (heap s0);
  stepping_braid : heap s !! braid = Some (OBraidWord b);
  stepping_log : heap s !! log = Some (ODict d);
  stepping_frame :
    forall l : loc, l <> braid -> l <> log -> heap s !! l = heap s0 !! l;
  stepping_nonempty : word b <> []
}.

(** What a run of [model] with [msteps] steps has added between two worlds:
    the lists of the aggregate have grown by [reps] and [logs], which are
    new objects, snapshots and logs with keys exactly [[0, msteps)]; the
    engine's other fields are as before, and so is every object that
    existed, the working word apart. *)
Record grown (msteps : Z) (s s' : state) (reps logs : list loc) : Prop := {
  grown_braid : braid (self s') = braid (self s);
  grown_maxgen : maxgen (self s') = maxgen (self s);
  grown_maxlen : maxlen (self s') = maxlen (self s);
  grown_braidreps :
    agg_braidreps (braidagg (self s'))
    = agg_braidreps (braidagg (self s)) ++ reps;
  grown_logs :
    agg_logs (braidagg (self s')) = agg_logs (braidagg (self s)) ++ logs;
  grown_new : Forall (fun l => (List.length (heap s) <= l)%nat) (reps ++ logs);
  grown_snapshots :
    Forall (fun l => exists w, heap s' !! l = Some (OBraidWord w)) reps;
  grown_entries :
    Forall (fun l => exists d,
              heap s' !! l = Some (ODict d) /\ keys_exactly msteps d) logs;
  grown_frame :
    forall l : loc, (l < List.length (heap s))%nat -> l <> braid (self s) ->
      heap s' !! l = heap s !! l;
  grown_size : (List.length (heap s) <= List.length (heap s'))%nat
}.

(** ** Concrete worlds *)

(** A world before any engine exists: the given objects, a seed, nothing
    drawn yet. *)
Definition world (objs : list obj) (seed : nat -> Z) : state :=
  {| self := {| braid := 0%nat; maxgen := 0; maxlen := 0;
                braidagg := {| agg_braidreps := []; agg_logs := [] |} |};
     heap := objs; tape := seed; pos := 0%nat; history := [] |}.

(** A seed given by its first raw numbers, 0 afterwards. *)
Definition seed_of (raw : list Z) : nat -> Z :=
  fun i => nth i raw 0.

(** [MarkovChain(braidword=[1, 2, 3], maxgen=9, maxlen=10)], the example of
    the class docstring. *)
Definition example_engine (seed : nat -> Z) : state :=
  (MarkovChain.init 0%nat 9 10
     (world [OBraidWord {| word := [1; 2; 3] |}] seed)).2.

(** A caller reads what [braidreps] returns, overwrites the first element of
    the first word it was given, and calls [braidreps] again. *)
Definition overwrite_first (rs : list ref) (v : Z) : M unit :=
  match rs with
  | r :: _ => word_setitem r 0 v
  | [] => ret tt
  end.

Definition braidreps_twice (as_word : bool) (v : Z)
  : M (list (list Z) * list (list Z)) :=
  let* first := MarkovChain.braidreps as_word in
  let* before := contents first in
  let* _ := overwrite_first first v in
  let* second := MarkovChain.braidreps as_word in
  let* after := contents second in
  ret (before, after).

(** The same caller with [aggregate]. *)
Definition aggregate_twice (v : Z) : M (list (list Z) * list (list Z)) :=
  let* first := MarkovChain.aggregate in
  let* before := contents (map RObj (agg_braidreps first)) in
  let* _ := overwrite_first (map RObj (agg_braidreps first)) v in
  let* second := MarkovChain.aggregate in
  let* after := contents (map RObj (agg_braidreps second)) in
  ret (before, after).

(** The example engine with a log object in the store, as at the start of
    a trial. *)
Definition example_trial (seed : nat -> Z) : state :=
  (alloc (ODict ∅) (example_engine seed)).2.

(** An engine whose working word is the inverse pair [[1, -1]], at the start
    of a trial. *)
Definition unknot_trial (seed : nat -> Z) : state :=
  (alloc (ODict ∅)
     (MarkovChain.init 0%nat 9 10
        (world [OBraidWord {| word := [1; -1] |}] seed)).2).2.

(** The example engine after one draw has been consumed. *)
Definition example_later (seed : nat -> Z) : state :=
  (rr 7 (example_engine seed)).2.

(** The example engine after a draw made elsewhere, [model(1, 0)] and
    [clear_model]: the aggregate is empty again, the store holds what the
    earlier run left. *)
Definition example_cleared (seed : nat -> Z) : state :=
  (MarkovChain.clear_model
     (MarkovChain.model (moves := SpecMoves.moves) 1 0
        (example_later seed)).2).2.

(** An engine on the word [[1, 2, 3]] under the given bounds, at the start
    of a trial: the log of the trial is in the store and empty. *)
Definition bounded_trial (maxgen maxlen : Z) (seed : nat -> Z) : state :=
  (alloc (ODict ∅)
     (MarkovChain.init 0%nat maxgen maxlen
        (world [OBraidWord {| word := [1; 2; 3] |}] seed)).2).2.

(** ** Further statements about the engine *)

(** The world whose aggregate lists hold [p] and [q] before what they hold
    in [s]. *)
Definition prepend (p q : list loc) (s : state) : state :=
  set_self (fun m =>
    with_braidagg
      {| agg_braidreps := p ++ agg_braidreps (braidagg m);
         agg_logs := q ++ agg_logs (braidagg m) |} m) s.

(** A method that neither reads what the aggregate holds nor does more to
    it than append: entries put before the aggregate stay there and change
    nothing else. *)
Definition appends_only {A : Type} (m : M A) : Prop :=
  forall (p q : list loc) (s : state),
    m (prepend p q s) = ((m s).1, prepend p q (m s).2).

Section Permitted.
Context {moves : BraidWord.Moves}.

(** The calls the loop body can issue on the word [b] under the bounds of
    [m]: the index comes from [randrange(length)], a cancellation and a
    destabilisation pass the unknot guards, an insertion passes the length
    guard with a generator from [randrange(largestGenerator + 1)], a
    stabilisation passes both bound guards. *)
Definition permitted (m : MarkovChain) (b : BraidWord) (c : call) : Prop :=
  match c with
  | Conjugate index => 0 <= index < BraidWord.length b
  | Cancel index =>
      0 <= index < BraidWord.length b
      /\ (BraidWord.length b =? 2) && BraidWord.canCancel b index = false
  | Insert index generator =>
      0 <= index < BraidWord.length b
      /\ BraidWord.length b <= maxlen m - 2
      /\ 0 <= generator <= BraidWord.largestGenerator b
  | Transpose index => 0 <= index < BraidWord.length b
  | Flip index => 0 <= index < BraidWord.length b
  | Stabilize =>
      BraidWord.length b <= maxlen m - 1
      /\ BraidWord.largestGenerator b < maxgen m
  | Destabilize =>
      (BraidWord.length b =? 1) && BraidWord.canDestabilize b = false
  end.

(** A property of words that every permitted call keeps, whatever the
    draws answer. *)
Definition kept_by_moves (m : MarkovChain) (P : BraidWord -> Prop) : Prop :=
  forall (c : call) (b : BraidWord),
    P b -> permitted m b c ->
    rand_all (fun r => P r.2) (MarkovChain.run_move c b).

(** By how much a move may lengthen a word, and how large a generator it
    may leave in it, going by what it is called to do: an insertion adds
    two elements of the magnitude it is given, a stabilisation one element
    one above the largest, the others add nothing. *)
Definition growth (c : call) : Z :=
  match c with
  | Insert _ _ => 2
  | Stabilize => 1
  | _ => 0
  end.

Definition largest_after (c : call) (b : BraidWord) : Z :=
  match c with
  | Insert _ generator =>
      Z.max (BraidWord.largestGenerator b) (Z.abs generator)
  | Stabilize => BraidWord.largestGenerator b + 1
  | _ => BraidWord.largestGenerator b
  end.

Definition moves_bounded : Prop :=
  forall (c : call) (b : BraidWord),
    rand_all
      (fun r =>
         BraidWord.length r.2 <= BraidWord.length b + growth c
         /\ BraidWord.largestGenerator r.2 <= largest_after c b)
      (MarkovChain.run_move c b).

End Permitted.

(** The word is within the bounds of the engine. *)
Definition within_bounds (m : MarkovChain) (b : BraidWord) : Prop :=
  1 <= BraidWord.length b <= maxlen m
  /\ BraidWord.largestGenerator b <= maxgen m.

(** The name logged for a move type. *)
Definition move_name (movetype : Z) : string :=
  if movetype =? 0 then "conjugate"
  else if movetype =? 1 then "cancel"
  else if movetype =? 2 then "insert"
  else if movetype =? 3 then "transpose"
  else if movetype =? 4 then "flip"
  else if movetype =? 5 then "stabilize"
  else if movetype =? 6 then "destabilize"
  else "".

(** [msg] is an entry the loop body writes for [movetype]: the message of
    an outcome, or for the two guarded moves the failure message followed
    by the marker. *)
Definition entry_of (movetype : Z) (msg : string) : Prop :=
  (exists ok : bool,
     msg = MarkovChain.log_message movetype (move_name movetype) ok)
  \/ ((movetype = 1 \/ movetype = 6)
      /\ msg = MarkovChain.log_message movetype (move_name movetype) false
               +:+ "Unknot").

Definition entries_ok (d : gmap Z string) : Prop :=
  forall (k : Z) (msg : string),
    d !! k = Some msg -> exists movetype, 0 <= movetype <= 6 /\ entry_of movetype msg.

(** What a run of [model] has recorded between two worlds, as [grown], with
    a property [P] of the snapshots and a property [E] of the logs. *)
Record recorded (P : BraidWord -> Prop) (E : gmap Z string -> Prop)
  (s s' : state) (reps logs : list loc) : Prop := {
  recorded_braid : braid (self s') = braid (self s);
  recorded_maxgen : maxgen (self s') = maxgen (self s);
  recorded_maxlen : maxlen (self s') = maxlen (self s);
  recorded_braidreps :
    agg_braidreps (braidagg (self s'))
    = agg_braidreps (braidagg (self s)) ++ reps;
  recorded_logs :
    agg_logs (braidagg (self s')) = agg_logs (braidagg (self s)) ++ logs;
  recorded_new :
    Forall (fun l => (List.length (heap s) <= l)%nat) (reps ++ logs);
  recorded_snapshots :
    Forall (fun l => exists w, heap s' !! l = Some (OBraidWord w) /\ P w)
      reps;
  recorded_entries :
    Forall (fun l => exists d, heap s' !! l = Some (ODict d) /\ E d) logs;
  recorded_frame :
    forall l : loc, (l < List.length (heap s))%nat -> l <> braid (self s) ->
      heap s' !! l = heap s !! l;
  recorded_size : (List.length (heap s) <= List.length (heap s'))%nat
}.

(** The call the loop body issues for a move type in [[0, 6]], on the
    index drawn and, for an insertion, the generator drawn. *)
Definition call_of (movetype index generator : Z) : call :=
  if movetype =? 0 then Conjugate index
  else if movetype =? 1 then Cancel index
  else if movetype =? 2 then Insert index generator
  else if movetype =? 3 then Transpose index
  else if movetype =? 4 then Flip index
  else if movetype =? 5 then Stabilize
  else Destabilize.

(** ** Export to a text file *)

(** The files the export can reach: the text behind every path that exists.
    Every path can be opened for writing. *)
Abbreviation files := (gmap string string) (only parsing).

(** A method that also reads and writes files. What was written before an
    exception stays written. *)
Definition IO (A : Type) : Type :=
  files -> state -> result A * files * state.

Definition io_ret {A : Type} (a : A) : IO A :=
  fun fs s => (Ok a, fs, s).

Definition io_bind {A B : Type} (m : IO A) (k : A -> IO B) : IO B :=
  fun fs s =>
    match m fs s with
    | (Ok a, fs', s') => k a fs' s'
    | (Raised e, fs', s') => (Raised e, fs', s')
    end.

Notation "'do*' x ':=' m 'in' k" := (io_bind m (fun x => k))
  (at level 10, x pattern, m at level 200, k at level 200,
   format "'[v' 'do*'  x  ':='  m  'in' '/' k ']'").

(** A method of the engine, which touches no file. *)
Definition lift {A : Type} (m : M A) : IO A :=
  fun fs s => let (r, s') := m s in (r, fs, s').

(** [for x in xs: body]. *)
Fixpoint io_for {A : Type} (xs : list A) (body : A -> IO unit) : IO unit :=
  match xs with
  | [] => io_ret tt
  | x :: rest => do* _ := body x in io_for rest body
  end.

(** [open(path, 'w')]: the file is created, or emptied when it exists. The
    handle is the path. *)
Definition open_w (path : string) : IO string :=
  fun fs s => (Ok path, <[path := ""]> fs, s).

(** [open(path, 'a')]: the file is created when it does not exist and kept
    as it is otherwise. *)
Definition open_a (path : string) : IO string :=
  fun fs s =>
    (Ok path,
     match fs !! path with
     | Some _ => fs
     | None => <[path := ""]> fs
     end,
     s).

(** [file.write(text)] on a handle from [open_w] or [open_a]: the text goes
    to the end of the file. *)
Definition write (file : string) (text : string) : IO unit :=
  fun fs s => (Ok tt, <[file := default "" (fs !! file) +:+ text]> fs, s).

(** The string ["\n"]. *)
Definition newline : string := String (Ascii.ascii_of_nat 10) "".

(** The list a caller iterates over behind a word reference. *)
Definition read_word (r : ref) : M (list Z) :=
  let* b := as_braid (ref_target r) in ret (word b).

Section Totxt.

(** Python's [str] of a stored object, as [str(log)] needs it. *)
Variable str_obj : obj -> string.

Definition totxt (path_or_filename : string) (only_braidreps : bool)
  : IO unit :=
  let path_or_filename :=
    if String.eqb path_or_filename "" then
      if only_braidreps then "braidreps.txt" else "braidreps_and_Logs.txt"
    else path_or_filename in
  do* file := open_w path_or_filename in
  do* words := lift (MarkovChain.braidreps true) in
  do* _ :=
    io_for words (fun braid =>
      do* gens := lift (read_word braid) in
      do* _ := write file (String.concat " " (map MarkovChain.str gens)) in
      write file newline) in
  do* _ := write file newline in
  if negb only_braidreps then
    do* file := open_a path_or_filename in
    do* logs := lift MarkovChain.logs in
    do* _ :=
      io_for logs (fun log =>
        do* o := lift (load log) in
        do* _ := write file (str_obj o) in
        write file newline) in
    write file newline
  else io_ret tt.

End Totxt.

(** The text of a list of lines, each closed by a newline. *)
Fixpoint text_of_lines (lines : list string) : string :=
  match lines with
  | [] => ""
  | line :: rest => line +:+ (newline +:+ text_of_lines rest)
  end.

(** The block the export writes for a list of words: one line per word, its
    elements in decimal with single spaces between them, and an empty line
    at the end. *)
Definition text_of_words (ws : list (list Z)) : string :=
  text_of_lines
    (map (fun w => String.concat " " (map MarkovChain.str w)) ws)
  +:+ newline.

(** ** Further concrete worlds *)

(** The example engine after [model(num_braidreps=2, msteps=3)] with the
    moves of the spec. *)
Definition example_modelled (seed : nat -> Z) : state :=
  (MarkovChain.model (moves := SpecMoves.moves) 2 3 (example_engine seed)).2.

(** The example engine after [model(num_braidreps=2, msteps=0)]: two
    snapshots of the working word and two empty logs. *)
Definition example_snapshots (seed : nat -> Z) : state :=
  (MarkovChain.model (moves := SpecMoves.moves) 2 0 (example_engine seed)).2.

(** An engine whose working word has been emptied. *)
Definition empty_engine (seed : nat -> Z) : state :=
  (MarkovChain.init 0%nat 9 10 (world [OBraidWord {| word := [] |}] seed)).2.

(** The example engine after [mc.braidagg['braidreps'].append({})]: the
    list of braidreps holds a dict. *)
Definition spoiled_engine (seed : nat -> Z) : state :=
  set_self
    (with_braidagg {| agg_braidreps := [1%nat]; agg_logs := [] |})
    (example_trial seed).
(** * Results *)

(** ** The monad *)

Lemma bind_ok {A B : Type} (m : M A) (k : A -> M B) (s s' : state) (a : A) :
  m s = (Ok a, s') -> bind m k s = k a s'.
Proof. intros E. unfold bind. now rewrite E. Qed.

Lemma bind_raised {A B : Type} (m : M A) (k : A -> M B) (s s' : state)
  (e : exn) :
  m s = (Raised e, s') -> bind m k s = (Raised e, s').
Proof. intros E. unfold bind. now rewrite E. Qed.

Lemma rr_ok (n : Z) (s : state) :
  0 < n ->
  rr n s = (Ok (tape s (pos s) mod n),
            emit (LDraw n (tape s (pos s) mod n)) (advance s)).
Proof.
  intros Hn. unfold rr.
  destruct (n <=? 0) eqn:E; [lia | reflexivity].
Qed.

Lemma rr_empty (n : Z) (s : state) :
  n <= 0 -> rr n s = (Raised ValueError, s).
Proof.
  intros Hn. unfold rr.
  destruct (n <=? 0) eqn:E; [reflexivity | lia].
Qed.

Lemma as_braid_ok (l : loc) (b : BraidWord) (s : state) :
  heap s !! l = Some (OBraidWord b) -> as_braid l s = (Ok b, s).
Proof. intros E. unfold as_braid, bind, load. now rewrite E. Qed.

(** ** Strings *)

Lemma append_assoc (a b c : string) : (a +:+ b) +:+ c = a +:+ (b +:+ c).
Proof.
  induction a as [|x a IH]; [reflexivity |].
  change (String x ((a +:+ b) +:+ c) = String x (a +:+ (b +:+ c))).
  now rewrite IH.
Qed.

(** C9: the message of a step is "MoveType: <code>, Attempted <name>: <name>
    Succeeded." when the move succeeded and the same with "Failed." when it
    did not, for every code, name and outcome. *)
Theorem log_message_format (movetype : Z) (name : string) :
  MarkovChain.log_message movetype name true =
    "MoveType: " +:+ MarkovChain.str movetype +:+ ", Attempted " +:+ name
      +:+ ": " +:+ name +:+ " Succeeded."
  /\ MarkovChain.log_message movetype name false =
    "MoveType: " +:+ MarkovChain.str movetype +:+ ", Attempted " +:+ name
      +:+ ": " +:+ name +:+ " Failed.".
Proof.
  unfold MarkovChain.log_message. cbv zeta.
  split; now rewrite !append_assoc.
Qed.

Example log_message_transpose :
  MarkovChain.log_message 3 "transpose" true
  = "MoveType: 3, Attempted transpose: transpose Succeeded."%string.
Proof. reflexivity. Qed.

Example log_message_negative_code :
  MarkovChain.log_message (-12) "flip" false
  = "MoveType: -12, Attempted flip: flip Failed."%string.
Proof. reflexivity. Qed.

(** ** Reset *)

(** C8: [clear_model] returns normally from every state and leaves an
    aggregate of two empty lists; the reference to the working word, the
    two bounds and every stored object are as before. *)
Theorem clear_model_resets (s : state) :
  exists s' : state,
    MarkovChain.clear_model s = (Ok tt, s')
    /\ braidagg (self s') = {| agg_braidreps := []; agg_logs := [] |}
    /\ braid (self s') = braid (self s)
    /\ maxgen (self s') = maxgen (self s)
    /\ maxlen (self s') = maxlen (self s)
    /\ heap s' = heap s.
Proof.
  eexists. split; [reflexivity |].
  repeat split.
Qed.

(** ** Replacing the working word *)

Lemma new_braidword_raises (args : list pyval) (s : state) :
  exists (e : exn) (s' : state),
    MarkovChain.new_braidword args s = (Raised e, s') /\ self s' = self s.
Proof.
  unfold MarkovChain.new_braidword, bind_params.
  destruct args as [|v [|v' rest]]; simpl.
  - now exists TypeError, s.
  - destruct v as [l | xs | | z | str | ]; simpl.
    all: try (cbv [bind ret raise name frame_get zip zip_with
                   isinstance_BraidWord isinstance_list negb alloc set_heap];
              simpl; now eauto).
    cbv [bind ret raise name frame_get zip zip_with isinstance_BraidWord
         isinstance_list negb alloc deepcopy load]; simpl.
    destruct (heap s !! l) as [[b | d] |] eqn:E; simpl; rewrite ?E; simpl;
      now eauto.
  - now exists TypeError, s.
Qed.

(** C2: [new_braidword] never replaces the working word.  Called on the
    engine with one argument it raises [TypeError] before its body runs and
    changes nothing; called with any arguments in any way it raises, and
    the engine's fields are as before. *)
Theorem new_braidword_never_replaces (s : state) (arg : pyval) :
  call_bound MarkovChain.new_braidword [arg] s = (Raised TypeError, s)
  /\ (forall (args : list pyval),
        exists (e : exn) (s' : state),
          call_plain MarkovChain.new_braidword args s = (Raised e, s')
          /\ self s' = self s).
Proof.
  split; [reflexivity |].
  intros args. apply new_braidword_raises.
Qed.

Example new_braidword_list_on_instance :
  (call_bound MarkovChain.new_braidword [VList [1; 2; 3]]
     (example_engine (seed_of []))).1 = Raised TypeError.
Proof. reflexivity. Qed.

Example new_braidword_braidword_on_instance :
  (call_bound MarkovChain.new_braidword [VRef 0%nat]
     (example_engine (seed_of []))).1 = Raised TypeError.
Proof. reflexivity. Qed.

Example new_braidword_list_on_class :
  (call_plain MarkovChain.new_braidword [VList [1; 2; 3]]
     (example_engine (seed_of []))).1 = Raised NameError.
Proof. reflexivity. Qed.

(** ** The store *)

Lemma setitem_ok (l : loc) (k : Z) (v : string) (d : gmap Z string)
  (s : state) :
  heap s !! l = Some (ODict d) -> setitem l k v s = (Ok tt, logged l k v d s).
Proof. intros E. unfold setitem, bind, load. now rewrite E. Qed.

Lemma getitem_ok (l : loc) (k : Z) (v : string) (d : gmap Z string)
  (s : state) :
  heap s !! l = Some (ODict d) -> d !! k = Some v ->
  getitem l k s = (Ok v, s).
Proof. intros E Ek. unfold getitem, bind, load. rewrite E. now rewrite Ek. Qed.

Lemma logged_lookup (l : loc) (k : Z) (v : string) (d : gmap Z string)
  (s : state) :
  (l < List.length (heap s))%nat ->
  heap (logged l k v d s) !! l = Some (ODict (<[k := v]> d)).
Proof. intros Hl. simpl. now apply list_lookup_insert_eq. Qed.

Lemma logged_logged (l : loc) (k : Z) (v v' : string) (d : gmap Z string)
  (s : state) :
  logged l k v' (<[k := v]> d) (logged l k v d s) = logged l k v' d s.
Proof.
  unfold logged, set_heap. simpl.
  now rewrite list_insert_insert_eq, insert_insert_eq.
Qed.

(** [log[step] = msg] followed by [log[step] += "Unknot"]. *)
Lemma setitem_then_append (l : loc) (k : Z) (v : string)
  (d : gmap Z string) (s : state) :
  heap s !! l = Some (ODict d) ->
  (let* _ := setitem l k v in
   let* old := getitem l k in
   setitem l k (old +:+ "Unknot")) s
  = (Ok tt, logged l k (v +:+ "Unknot") d s).
Proof.
  intros E.
  assert (Hl : (l < List.length (heap s))%nat) by (eapply lookup_lt_Some; eauto).
  rewrite (bind_ok _ _ _ _ _ (setitem_ok _ _ _ _ _ E)).
  erewrite bind_ok by
    (eapply getitem_ok; [now apply logged_lookup | apply lookup_insert_eq]).
  erewrite setitem_ok by now apply logged_lookup.
  now rewrite logged_logged.
Qed.

(** ** One iteration of the loop *)

Section Step.
Context {moves : BraidWord.Moves}.

Lemma length_ok (l : loc) (b : BraidWord) (s : state) :
  heap s !! l = Some (OBraidWord b) ->
  MarkovChain.length_ l s = (Ok (BraidWord.length b), s).
Proof.
  intros E. unfold MarkovChain.length_.
  now rewrite (bind_ok _ _ _ _ _ (as_braid_ok _ _ _ E)).
Qed.

Lemma largestGenerator_ok (l : loc) (b : BraidWord) (s : state) :
  heap s !! l = Some (OBraidWord b) ->
  MarkovChain.largestGenerator_ l s = (Ok (BraidWord.largestGenerator b), s).
Proof.
  intros E. unfold MarkovChain.largestGenerator_.
  now rewrite (bind_ok _ _ _ _ _ (as_braid_ok _ _ _ E)).
Qed.

Lemma canCancel_ok (l : loc) (i : Z) (b : BraidWord) (s : state) :
  heap s !! l = Some (OBraidWord b) ->
  MarkovChain.canCancel_ l i s = (Ok (BraidWord.canCancel b i), s).
Proof.
  intros E. unfold MarkovChain.canCancel_.
  now rewrite (bind_ok _ _ _ _ _ (as_braid_ok _ _ _ E)).
Qed.

Lemma canDestabilize_ok (l : loc) (b : BraidWord) (s : state) :
  heap s !! l = Some (OBraidWord b) ->
  MarkovChain.canDestabilize_ l s = (Ok (BraidWord.canDestabilize b), s).
Proof.
  intros E. unfold MarkovChain.canDestabilize_.
  now rewrite (bind_ok _ _ _ _ _ (as_braid_ok _ _ _ E)).
Qed.

Lemma length_pos (b : BraidWord) : word b <> [] -> 0 < BraidWord.length b.
Proof.
  unfold BraidWord.length. destruct (word b); [congruence | simpl; lia].
Qed.

Lemma largestGenerator_nonneg (b : BraidWord) :
  0 <= BraidWord.largestGenerator b.
Proof.
  unfold BraidWord.largestGenerator.
  induction (word b) as [|g w IH]; simpl; lia.
Qed.

(** One iteration draws the move type from [[0, 6]] and the index from
    [[0, length)], then dispatches on them. *)
Lemma model_step_draws (braid log : loc) (step : Z) (b : BraidWord)
  (s : state) :
  heap s !! braid = Some (OBraidWord b) -> word b <> [] ->
  MarkovChain.model_step braid log step s
  = MarkovChain.dispatch braid log step
      (tape s (pos s) mod 7) (tape s (S (pos s)) mod BraidWord.length b)
      (drawn (BraidWord.length b) s).
Proof.
  intros Hb Hne. unfold MarkovChain.model_step.
  rewrite (bind_ok _ _ _ _ _ (rr_ok 7 s ltac:(lia))).
  erewrite bind_ok by (apply length_ok; exact Hb).
  erewrite bind_ok by (apply rr_ok, length_pos, Hne).
  reflexivity.
Qed.

Lemma dispatch_cancel_unknot (braid log : loc) (step index : Z)
  (b : BraidWord) (d : gmap Z string) (s : state) :
  heap s !! braid = Some (OBraidWord b) ->
  heap s !! log = Some (ODict d) ->
  BraidWord.length b = 2 -> BraidWord.canCancel b index = true ->
  MarkovChain.dispatch braid log step 1 index s
  = (Ok tt,
     logged log step (MarkovChain.log_message 1 "cancel" false +:+ "Unknot")
       d s).
Proof.
  intros Hb Hd Hl Hc. unfold MarkovChain.dispatch. cbn [Z.eqb Pos.eqb].
  unfold and_then.
  erewrite bind_ok; cycle 1.
  { erewrite bind_ok; cycle 1.
    { erewrite bind_ok by (apply length_ok; exact Hb).
      rewrite Hl. reflexivity. }
    cbn [Z.eqb Pos.eqb]. rewrite canCancel_ok with (b := b) by exact Hb.
    rewrite Hc. reflexivity. }
  now apply setitem_then_append.
Qed.

Lemma dispatch_destabilize_unknot (braid log : loc) (step index : Z)
  (b : BraidWord) (d : gmap Z string) (s : state) :
  heap s !! braid = Some (OBraidWord b) ->
  heap s !! log = Some (ODict d) ->
  BraidWord.length b = 1 -> BraidWord.canDestabilize b = true ->
  MarkovChain.dispatch braid log step 6 index s
  = (Ok tt,
     logged log step
       (MarkovChain.log_message 6 "destabilize" false +:+ "Unknot") d s).
Proof.
  intros Hb Hd Hl Hc. unfold MarkovChain.dispatch. cbn [Z.eqb Pos.eqb].
  unfold and_then.
  erewrite bind_ok; cycle 1.
  { erewrite bind_ok; cycle 1.
    { erewrite bind_ok by (apply length_ok; exact Hb).
      rewrite Hl. reflexivity. }
    cbn [Z.eqb Pos.eqb]. rewrite canDestabilize_ok with (b := b) by exact Hb.
    rewrite Hc. reflexivity. }
  now apply setitem_then_append.
Qed.

(** C4: when the move drawn is Cancel on a word of length 2 that is
    cancellable at the drawn index, or Destabilize on a destabilisable word
    of length 1, the iteration returns normally, no move is called (the
    history gains the two draws only), the working word is as before, and
    the log entry of the step is the failure message followed by
    "Unknot". *)
Theorem unknot_guards_skip (s : state) (braid log : loc) (step : Z)
  (b : BraidWord) (d : gmap Z string) :
  heap s !! braid = Some (OBraidWord b) ->
  heap s !! log = Some (ODict d) ->
  let movetype := tape s (pos s) mod 7 in
  let index := tape s (S (pos s)) mod BraidWord.length b in
  (movetype = 1 /\ BraidWord.length b = 2
   /\ BraidWord.canCancel b index = true)
  \/ (movetype = 6 /\ BraidWord.length b = 1
      /\ BraidWord.canDestabilize b = true) ->
  exists (s' : state) (name : string),
    MarkovChain.model_step braid log step s = (Ok tt, s')
    /\ name = (if movetype =? 1 then "cancel"%string else "destabilize"%string)
    /\ heap s' !! braid = Some (OBraidWord b)
    /\ heap s' !! log
       = Some (ODict (<[step := MarkovChain.log_message movetype name false
                                  +:+ "Unknot"]> d))
    /\ history s'
       = history s ++ [LDraw 7 movetype; LDraw (BraidWord.length b) index]
    /\ self s' = self s.
Proof.
  intros Hb Hd movetype index H.
  assert (Hne : word b <> []).
  { intros E. unfold BraidWord.length in H. rewrite E in H. simpl in H. lia. }
  assert (Hbl : braid <> log) by congruence.
  assert (Hlt : (log < List.length (heap s))%nat)
    by (eapply lookup_lt_Some; eauto).
  rewrite (model_step_draws _ _ _ _ _ Hb Hne). fold movetype index.
  destruct H as [(Hm & Hl & Hc) | (Hm & Hl & Hc)]; rewrite Hm.
  - rewrite (dispatch_cancel_unknot _ _ _ _ b d) by assumption.
    eexists _, _. split; [reflexivity |]. split; [reflexivity |].
    simpl. rewrite list_lookup_insert_ne by congruence.
    rewrite list_lookup_insert_eq by assumption.
    fold movetype. rewrite Hm.
    repeat split; try assumption. now rewrite <- app_assoc.
  - rewrite (dispatch_destabilize_unknot _ _ _ _ b d) by assumption.
    eexists _, _. split; [reflexivity |]. split; [reflexivity |].
    simpl. rewrite list_lookup_insert_ne by congruence.
    rewrite list_lookup_insert_eq by assumption.
    fold movetype. rewrite Hm.
    repeat split; try assumption. now rewrite <- app_assoc.
Qed.

Lemma dispatch_stabilize_refused (braid log : loc) (step index : Z)
  (b : BraidWord) (d : gmap Z string) (s : state) :
  heap s !! braid = Some (OBraidWord b) ->
  heap s !! log = Some (ODict d) ->
  maxlen (self s) - 1 < BraidWord.length b
  \/ maxgen (self s) < BraidWord.largestGenerator b + 1 ->
  MarkovChain.dispatch braid log step 5 index s
  = (Ok tt,
     logged log step (MarkovChain.log_message 5 "stabilize" false) d s).
Proof.
  intros Hb Hd H. unfold MarkovChain.dispatch. cbn [Z.eqb Pos.eqb].
  unfold and_then.
  erewrite bind_ok; cycle 1.
  { erewrite bind_ok; cycle 1.
    { erewrite bind_ok by (apply length_ok; exact Hb). reflexivity. }
    destruct (BraidWord.length b <=? maxlen (self s) - 1) eqn:E1;
      [| reflexivity].
    erewrite bind_ok; cycle 1.
    { erewrite bind_ok by (apply largestGenerator_ok; exact Hb). reflexivity. }
    destruct (BraidWord.largestGenerator b <? maxgen (self s)) eqn:E2;
      [lia | reflexivity]. }
  now apply setitem_ok.
Qed.

Lemma dispatch_stabilize_attempted (braid log : loc) (step index : Z)
  (b : BraidWord) (s : state) :
  heap s !! braid = Some (OBraidWord b) ->
  BraidWord.length b <= maxlen (self s) - 1 ->
  BraidWord.largestGenerator b < maxgen (self s) ->
  MarkovChain.dispatch braid log step 5 index s
  = (let* ok := MarkovChain.invoke braid Stabilize in
     setitem log step (MarkovChain.log_message 5 "stabilize" ok)) s.
Proof.
  intros Hb H1 H2. unfold MarkovChain.dispatch. cbn [Z.eqb Pos.eqb].
  unfold and_then.
  unfold bind.
  rewrite length_ok with (b := b) by exact Hb. unfold gets, ret.
  destruct (BraidWord.length b <=? maxlen (self s) - 1) eqn:E1; [| lia].
  rewrite largestGenerator_ok with (b := b) by exact Hb.
  destruct (BraidWord.largestGenerator b <? maxgen (self s)) eqn:E2; [| lia].
  destruct (MarkovChain.invoke braid Stabilize s) as [[[|] | e] s'];
    reflexivity.
Qed.

Lemma sample_outcome {A : Type} (t : rand A) :
  forall s : state,
  exists draws : list label,
    sample t s
    = (Ok (outcome t (tape s) (pos s)).1,
       {| self := self s; heap := heap s; tape := tape s;
          pos := (outcome t (tape s) (pos s)).2;
          history := history s ++ draws |})
    /\ Forall is_draw draws.
Proof.
  induction t as [a | n k IH]; intros s.
  - exists []. split; [| constructor]. simpl. unfold ret.
    rewrite app_nil_r. now destruct s.
  - simpl. rewrite (bind_ok _ _ _ _ _ (rr_ok (Z.pos n) s ltac:(lia))).
    destruct (IH (tape s (pos s) mod Z.pos n)
                (emit (LDraw (Z.pos n) (tape s (pos s) mod Z.pos n))
                   (advance s))) as (draws & E & Hd).
    exists (LDraw (Z.pos n) (tape s (pos s) mod Z.pos n) :: draws).
    split; [| constructor; [now eexists _, _ | exact Hd]].
    rewrite E. simpl. now rewrite <- app_assoc.
Qed.

(** A call of a move on a stored word: the call is recorded, the move runs
    on the stream from the current position, and the word it returns is
    stored in place. *)
Lemma invoke_outcome (braid : loc) (c : call) (b : BraidWord) (s : state) :
  heap s !! braid = Some (OBraidWord b) ->
  let result := (outcome (MarkovChain.run_move c b) (tape s) (pos s)).1 in
  exists (s' : state) (draws : list label),
    MarkovChain.invoke braid c s = (Ok result.1, s')
    /\ self s' = self s
    /\ heap s' = <[braid := OBraidWord result.2]> (heap s)
    /\ history s' = history s ++ LCall braid c :: draws
    /\ Forall is_draw draws.
Proof.
  intros Hb result. unfold MarkovChain.invoke.
  rewrite (bind_ok _ _ _ _ _ (as_braid_ok _ _ _ Hb)).
  rewrite (bind_ok _ _ _ _ _ (eq_refl : modify _ s = _)).
  destruct (sample_outcome (MarkovChain.run_move c b) (emit (LCall braid c) s))
    as (draws & E & Hd).
  rewrite (bind_ok _ _ _ _ _ E).
  change (tape (emit (LCall braid c) s)) with (tape s).
  change (pos (emit (LCall braid c) s)) with (pos s).
  fold result. destruct result as [ok b'].
  eexists _, draws. split; [reflexivity |]. simpl.
  split_and!; try reflexivity; [| exact Hd].
  now rewrite <- app_assoc.
Qed.

(** C6: in an iteration that drew Stabilize, when the word after the move,
    one element longer, would exceed [maxlen], or the generator to append,
    of magnitude [largestGenerator + 1], would exceed [maxgen], the step
    returns normally with the failure message logged, the word as before
    and no move called.  When both bounds permit the move, [stabilize] is
    called once on the working word: the word becomes what the move
    returns, the log records its outcome, and besides the two draws of the
    step the history shows that call and the draws of the move. *)
Theorem stabilize_guard (s : state) (braid log : loc) (step : Z)
  (b : BraidWord) (d : gmap Z string) :
  heap s !! braid = Some (OBraidWord b) ->
  heap s !! log = Some (ODict d) ->
  word b <> [] ->
  tape s (pos s) mod 7 = 5 ->
  let n := BraidWord.length b in
  let index := tape s (S (pos s)) mod n in
  (maxlen (self s) < n + 1
   \/ maxgen (self s) < BraidWord.largestGenerator b + 1 ->
   exists s' : state,
     MarkovChain.model_step braid log step s = (Ok tt, s')
     /\ s' = logged log step (MarkovChain.log_message 5 "stabilize" false) d
               (drawn n s)
     /\ heap s' !! braid = Some (OBraidWord b)
     /\ history s' = history s ++ [LDraw 7 5; LDraw n index])
  /\ (n + 1 <= maxlen (self s) ->
      BraidWord.largestGenerator b + 1 <= maxgen (self s) ->
      let result :=
        (outcome (BraidWord.stabilize b) (tape s) (S (S (pos s)))).1 in
      exists (s' : state) (draws : list label),
        MarkovChain.model_step braid log step s = (Ok tt, s')
        /\ self s' = self s
        /\ heap s' !! braid = Some (OBraidWord result.2)
        /\ heap s' !! log
           = Some (ODict (<[step := MarkovChain.log_message 5 "stabilize"
                                      result.1]> d))
        /\ history s'
           = history s
             ++ [LDraw 7 5; LDraw n index; LCall braid Stabilize] ++ draws
        /\ Forall is_draw draws).
Proof.
  intros Hb Hd Hne Hm n index.
  assert (Hbl : braid <> log) by congruence.
  rewrite (model_step_draws _ _ _ _ _ Hb Hne). rewrite Hm. fold n index.
  split.
  - intros H. eexists. split.
    + apply dispatch_stabilize_refused with (b := b);
        [exact Hb | exact Hd |].
      change (self (drawn n s)) with (self s). unfold n in H. lia.
    + split; [reflexivity |]. simpl.
      rewrite list_lookup_insert_ne by congruence.
      rewrite Hm. fold n index. split; [assumption |].
      now rewrite <- app_assoc.
  - intros H1 H2 result.
    rewrite (dispatch_stabilize_attempted _ _ _ _ b) by
      (try exact Hb; simpl; fold n; lia).
    assert (Hb' : heap (drawn n s) !! braid = Some (OBraidWord b))
      by exact Hb.
    destruct (invoke_outcome braid Stabilize b (drawn n s) Hb')
      as (s1 & draws & E & Hs & Hh & Hy & Hdr).
    change (tape (drawn n s)) with (tape s) in E, Hh.
    change (pos (drawn n s)) with (S (S (pos s))) in E, Hh.
    change (MarkovChain.run_move Stabilize b) with (BraidWord.stabilize b)
      in E, Hh.
    fold result in E, Hh.
    rewrite (bind_ok _ _ _ _ _ E).
    assert (Hd1 : heap s1 !! log = Some (ODict d)).
    { rewrite Hh. now rewrite list_lookup_insert_ne by congruence. }
    rewrite (setitem_ok _ _ _ _ _ Hd1).
    eexists _, draws. split; [reflexivity |]. simpl.
    split_and!.
    + exact Hs.
    + rewrite list_lookup_insert_ne by congruence.
      rewrite Hh. apply list_lookup_insert_eq.
      eapply lookup_lt_Some. exact Hb.
    + apply list_lookup_insert_eq. eapply lookup_lt_Some. exact Hd1.
    + rewrite Hy. simpl. rewrite Hm. fold n index.
      now rewrite <- !app_assoc.
    + exact Hdr.
Qed.

Lemma dispatch_insert_refused (braid log : loc) (step index : Z)
  (b : BraidWord) (d : gmap Z string) (s : state) :
  heap s !! braid = Some (OBraidWord b) ->
  heap s !! log = Some (ODict d) ->
  maxlen (self s) - 2 < BraidWord.length b ->
  MarkovChain.dispatch braid log step 2 index s
  = (Ok tt, logged log step (MarkovChain.log_message 2 "insert" false) d s).
Proof.
  intros Hb Hd H. unfold MarkovChain.dispatch. cbn [Z.eqb Pos.eqb].
  unfold and_then, bind.
  rewrite length_ok with (b := b) by exact Hb. unfold gets, ret.
  destruct (BraidWord.length b <=? maxlen (self s) - 2) eqn:E1; [lia |].
  now apply setitem_ok.
Qed.

(** The generator handed to [insert] is the outcome of
    [randrange(largestGenerator + 1)]. *)
Lemma dispatch_insert_attempted (braid log : loc) (step index : Z)
  (b : BraidWord) (s : state) :
  heap s !! braid = Some (OBraidWord b) ->
  BraidWord.length b <= maxlen (self s) - 2 ->
  MarkovChain.dispatch braid log step 2 index s
  = (let* generator := rr (BraidWord.largestGenerator b + 1) in
     let* ok := MarkovChain.invoke braid (Insert index generator) in
     setitem log step (MarkovChain.log_message 2 "insert" ok)) s.
Proof.
  intros Hb H1. unfold MarkovChain.dispatch. cbn [Z.eqb Pos.eqb].
  unfold and_then, bind.
  rewrite length_ok with (b := b) by exact Hb. unfold gets, ret.
  destruct (BraidWord.length b <=? maxlen (self s) - 2) eqn:E1; [| lia].
  rewrite largestGenerator_ok with (b := b) by exact Hb.
  destruct (rr (BraidWord.largestGenerator b + 1) s) as [[g | e] s1];
    [| reflexivity].
  destruct (MarkovChain.invoke braid (Insert index g) s1) as [[[|] | e] s'];
    reflexivity.
Qed.

(** In an iteration that drew Insert on a word short enough, the generator
    handed to [insert] is the third raw number reduced modulo
    [largestGenerator + 1]: it lies in [[0, largestGenerator]]. *)
Lemma insert_generator_range (s : state) (braid log : loc) (step : Z)
  (b : BraidWord) :
  heap s !! braid = Some (OBraidWord b) ->
  word b <> [] ->
  tape s (pos s) mod 7 = 2 ->
  BraidWord.length b <= maxlen (self s) - 2 ->
  let n := BraidWord.length b in
  let index := tape s (S (pos s)) mod n in
  let lg := BraidWord.largestGenerator b in
  let generator := tape s (S (S (pos s))) mod (lg + 1) in
  0 <= generator <= lg
  /\ MarkovChain.model_step braid log step s
     = (let* ok := MarkovChain.invoke braid (Insert index generator) in
        setitem log step (MarkovChain.log_message 2 "insert" ok))
         (emit (LDraw (lg + 1) generator) (advance (drawn n s))).
Proof.
  intros Hb Hne Hm Hl n index lg generator.
  pose proof (largestGenerator_nonneg b) as Hlg. fold lg in Hlg.
  split.
  - pose proof (Z.mod_pos_bound (tape s (S (S (pos s)))) (lg + 1)) as Hr.
    fold generator in Hr. lia.
  - rewrite (model_step_draws _ _ _ _ _ Hb Hne). rewrite Hm. fold n index.
    rewrite dispatch_insert_attempted with (b := b); [| exact Hb | exact Hl].
    fold lg.
    now rewrite (bind_ok _ _ _ _ _ (rr_ok (lg + 1) _ ltac:(lia))).
Qed.

End Step.

(** ** Weakest preconditions *)

Lemma wp_ret {A : Type} (a : A) (Q : A -> state -> Prop) (s : state) :
  Q a s -> wp (ret a) Q s.
Proof. intros H. exact H. Qed.

Lemma wp_bind {A B : Type} (m : M A) (k : A -> M B)
  (Q : B -> state -> Prop) (s : state) :
  wp m (fun a s' => wp (k a) Q s') s -> wp (bind m k) Q s.
Proof.
  unfold wp, bind. destruct (m s) as [[a | e] s']; [trivial | contradiction].
Qed.

Lemma wp_gets {A : Type} (f : state -> A) (Q : A -> state -> Prop)
  (s : state) :
  Q (f s) s -> wp (gets f) Q s.
Proof. intros H. exact H. Qed.

Lemma wp_modify (f : state -> state) (Q : unit -> state -> Prop)
  (s : state) :
  Q tt (f s) -> wp (modify f) Q s.
Proof. intros H. exact H. Qed.

Lemma wp_eq {A : Type} (m : M A) (Q : A -> state -> Prop) (s s' : state)
  (a : A) :
  m s = (Ok a, s') -> Q a s' -> wp m Q s.
Proof. intros E H. unfold wp. now rewrite E. Qed.

Lemma wp_mono {A : Type} (m : M A) (Q Q' : A -> state -> Prop) (s : state) :
  wp m Q s -> (forall a s', Q a s' -> Q' a s') -> wp m Q' s.
Proof.
  unfold wp. destruct (m s) as [[a | e] s']; [auto | contradiction].
Qed.

Lemma wp_ok {A : Type} (m : M A) (Q : A -> state -> Prop) (s : state) :
  wp m Q s -> exists a s', m s = (Ok a, s') /\ Q a s'.
Proof.
  unfold wp. destruct (m s) as [[a | e] s']; [eauto | contradiction].
Qed.

(** Only the seed is consumed and the history extended. *)
Lemma wp_rr (n : Z) (Q : Z -> state -> Prop) (s : state) :
  0 < n ->
  (forall r, 0 <= r < n -> Q r (emit (LDraw n r) (advance s))) ->
  wp (rr n) Q s.
Proof.
  intros Hn H. eapply wp_eq; [now apply rr_ok |].
  apply H, Z.mod_pos_bound, Hn.
Qed.

Lemma wp_sample {A : Type} (t : rand A) (P : A -> Prop)
  (Q : A -> state -> Prop) (s : state) :
  rand_all P t ->
  (forall a s', P a -> self s' = self s -> heap s' = heap s -> Q a s') ->
  wp (sample t) Q s.
Proof.
  revert s. induction t as [a | n k IH]; intros s Ht HQ; simpl in *.
  - apply wp_ret. now apply HQ.
  - apply wp_bind, wp_rr; [lia |]. intros r Hr.
    apply IH; [now apply Ht |].
    intros a s' Pa Hs Hh. apply HQ; [exact Pa | exact Hs | exact Hh].
Qed.

(** ** The invariant of a trial *)

Section Stepping.
Context {moves : BraidWord.Moves}.
Variables (s0 : state) (braid log : loc).

Lemma stepping_emit (b : BraidWord) (d : gmap Z string) (x : label)
  (s : state) :
  stepping s0 braid log b d s -> stepping s0 braid log b d (emit x s).
Proof. intros [? ? ? ? ? ?]. now constructor. Qed.

Lemma stepping_advance (b : BraidWord) (d : gmap Z string) (s : state) :
  stepping s0 braid log b d s -> stepping s0 braid log b d (advance s).
Proof. intros [? ? ? ? ? ?]. now constructor. Qed.

Lemma stepping_same_store (b : BraidWord) (d : gmap Z string)
  (s s' : state) :
  stepping s0 braid log b d s -> self s' = self s -> heap s' = heap s ->
  stepping s0 braid log b d s'.
Proof.
  intros [? ? ? ? ? ?] Hs Hh. constructor; rewrite ?Hs, ?Hh; assumption.
Qed.

Lemma stepping_logged (b : BraidWord) (d : gmap Z string) (k : Z)
  (v : string) (s : state) :
  stepping s0 braid log b d s ->
  stepping s0 braid log b (<[k := v]> d) (logged log k v d s).
Proof.
  intros [Hs Hn Hb Hd Hf Hne].
  assert (log <> braid) by congruence.
  assert (log < List.length (heap s))%nat by (eapply lookup_lt_Some; eauto).
  constructor; simpl; try assumption.
  - now rewrite length_insert.
  - now rewrite list_lookup_insert_ne.
  - now apply list_lookup_insert_eq.
  - intros l H1 H2. rewrite list_lookup_insert_ne by congruence. now apply Hf.
Qed.

Lemma stepping_moved (b b' : BraidWord) (d : gmap Z string) (s : state) :
  stepping s0 braid log b d s -> word b' <> [] ->
  stepping s0 braid log b' d
    (set_heap (fun h => <[braid := OBraidWord b']> h) s).
Proof.
  intros [Hs Hn Hb Hd Hf Hne] Hne'.
  assert (braid <> log) by congruence.
  assert (braid < List.length (heap s))%nat by (eapply lookup_lt_Some; eauto).
  constructor; simpl; try assumption.
  - now rewrite length_insert.
  - now apply list_lookup_insert_eq.
  - now rewrite list_lookup_insert_ne.
  - intros l H1 H2. rewrite list_lookup_insert_ne by congruence. now apply Hf.
Qed.

Lemma wp_setitem (b : BraidWord) (d : gmap Z string) (k : Z) (v : string)
  (Q : unit -> state -> Prop) (s : state) :
  stepping s0 braid log b d s ->
  (forall s', stepping s0 braid log b (<[k := v]> d) s' -> Q tt s') ->
  wp (setitem log k v) Q s.
Proof.
  intros Hs HQ. eapply wp_eq.
  - apply setitem_ok, Hs.
  - apply HQ. now apply stepping_logged.
Qed.

Lemma wp_length (b : BraidWord) (Q : Z -> state -> Prop) (s : state) :
  heap s !! braid = Some (OBraidWord b) ->
  Q (BraidWord.length b) s -> wp (MarkovChain.length_ braid) Q s.
Proof. intros Hb HQ. eapply wp_eq; [eapply length_ok, Hb | exact HQ]. Qed.

Hypothesis nonempty : keeps_nonempty.

Lemma wp_invoke (b : BraidWord) (d : gmap Z string) (c : call)
  (Q : bool -> state -> Prop) (s : state) :
  stepping s0 braid log b d s ->
  guarded b c = true ->
  (forall ok b' s', stepping s0 braid log b' d s' -> Q ok s') ->
  wp (MarkovChain.invoke braid c) Q s.
Proof.
  intros Hs Hg HQ. unfold MarkovChain.invoke.
  apply wp_bind. eapply wp_eq; [apply as_braid_ok, Hs |].
  apply wp_bind, wp_modify, wp_bind.
  apply wp_sample with (P := fun r => word r.2 <> []).
  - apply nonempty; [apply Hs | exact Hg].
  - intros [ok b'] s' Hne Hself Hheap. simpl in Hne.
    apply wp_bind, wp_modify, wp_ret.
    apply (HQ ok b').
    apply stepping_moved with (b := b); [| exact Hne].
    apply stepping_same_store with (s := emit (LCall braid c) s);
      [now apply stepping_emit | exact Hself | exact Hheap].
Qed.

(** Logging the outcome of a move, as every branch of the dispatch does. *)
Lemma wp_log_outcome (b : BraidWord) (d : gmap Z string) (step movetype : Z)
  (name : string) (ok : bool) (s : state) :
  stepping s0 braid log b d s ->
  wp (if ok then setitem log step (MarkovChain.log_message movetype name true)
      else setitem log step (MarkovChain.log_message movetype name false))
    (fun _ s' => exists b' msg,
       stepping s0 braid log b' (<[step := msg]> d) s') s.
Proof.
  intros Hs.
  destruct ok; eapply wp_setitem; eauto.
Qed.

Lemma wp_and_then (a b : M bool) (Q : bool -> state -> Prop) (s : state) :
  wp a (fun x s' => if x then wp b Q s' else Q false s') s ->
  wp (and_then a b) Q s.
Proof.
  intros H. unfold and_then. apply wp_bind.
  eapply wp_mono; [exact H |].
  intros [|] s' H'; [exact H' | now apply wp_ret].
Qed.

Lemma cancel_guard_ok (index : Z) (b : BraidWord) (s : state) :
  heap s !! braid = Some (OBraidWord b) ->
  and_then (let* n := MarkovChain.length_ braid in ret (n =? 2))
           (MarkovChain.canCancel_ braid index) s
  = (Ok ((BraidWord.length b =? 2) && BraidWord.canCancel b index), s).
Proof.
  intros Hb. unfold and_then, bind.
  rewrite length_ok with (b := b) by exact Hb. unfold ret.
  destruct (BraidWord.length b =? 2); [| reflexivity].
  now rewrite canCancel_ok with (b := b).
Qed.

Lemma destabilize_guard_ok (b : BraidWord) (s : state) :
  heap s !! braid = Some (OBraidWord b) ->
  and_then (let* n := MarkovChain.length_ braid in ret (n =? 1))
           (MarkovChain.canDestabilize_ braid) s
  = (Ok ((BraidWord.length b =? 1) && BraidWord.canDestabilize b), s).
Proof.
  intros Hb. unfold and_then, bind.
  rewrite length_ok with (b := b) by exact Hb. unfold ret.
  destruct (BraidWord.length b =? 1); [| reflexivity].
  now rewrite canDestabilize_ok with (b := b).
Qed.

Lemma wp_unknot (b : BraidWord) (d : gmap Z string) (step : Z) (v : string)
  (s : state) :
  stepping s0 braid log b d s ->
  wp (let* _ := setitem log step v in
      let* old := getitem log step in
      setitem log step (old +:+ "Unknot"))
    (fun _ s' => exists b' msg,
       stepping s0 braid log b' (<[step := msg]> d) s') s.
Proof.
  intros Hs. eapply wp_eq; [apply setitem_then_append, Hs |].
  exists b, (v +:+ "Unknot"). now apply stepping_logged.
Qed.

Lemma wp_dispatch (b : BraidWord) (d : gmap Z string)
  (step movetype index : Z) (s : state) :
  stepping s0 braid log b d s ->
  0 <= movetype <= 6 ->
  wp (MarkovChain.dispatch braid log step movetype index)
    (fun _ s' => exists b' msg,
       stepping s0 braid log b' (<[step := msg]> d) s') s.
Proof.
  intros Hs Hm.
  assert (Hb : heap s !! braid = Some (OBraidWord b)) by apply Hs.
  assert (Hcases : movetype = 0 \/ movetype = 1 \/ movetype = 2
                   \/ movetype = 3 \/ movetype = 4 \/ movetype = 5
                   \/ movetype = 6) by lia.
  destruct Hcases as [-> | [-> | [-> | [-> | [-> | [-> | ->]]]]]];
    unfold MarkovChain.dispatch; cbn [Z.eqb Pos.eqb].
  - apply wp_bind. eapply wp_invoke; [exact Hs | reflexivity |].
    intros ok b' s' Hs'. now apply wp_log_outcome with (b := b').
  - apply wp_bind. eapply wp_eq; [eapply cancel_guard_ok, Hb |].
    destruct ((BraidWord.length b =? 2) && BraidWord.canCancel b index)
      eqn:G.
    + now apply wp_unknot with (b := b).
    + apply wp_bind. eapply wp_invoke; [exact Hs | simpl; now rewrite G |].
      intros ok b' s' Hs'. now apply wp_log_outcome with (b := b').
  - apply wp_bind, wp_and_then.
    apply wp_bind. eapply wp_length; [exact Hb |].
    apply wp_bind, wp_gets, wp_ret.
    destruct (BraidWord.length b <=? maxlen (self s) - 2).
    + apply wp_bind. eapply wp_eq; [eapply largestGenerator_ok, Hb |].
      apply wp_bind, wp_rr; [pose proof (largestGenerator_nonneg b); lia |].
      intros g Hg.
      eapply wp_invoke;
        [apply stepping_emit, stepping_advance, Hs | reflexivity |].
      intros ok b' s' Hs'. now apply wp_log_outcome with (b := b').
    + now apply wp_log_outcome with (b := b) (ok := false).
  - apply wp_bind. eapply wp_invoke; [exact Hs | reflexivity |].
    intros ok b' s' Hs'. now apply wp_log_outcome with (b := b').
  - apply wp_bind. eapply wp_invoke; [exact Hs | reflexivity |].
    intros ok b' s' Hs'. now apply wp_log_outcome with (b := b').
  - apply wp_bind, wp_and_then.
    apply wp_bind. eapply wp_length; [exact Hb |].
    apply wp_bind, wp_gets, wp_ret.
    destruct (BraidWord.length b <=? maxlen (self s) - 1).
    + apply wp_and_then.
      apply wp_bind. eapply wp_eq; [eapply largestGenerator_ok, Hb |].
      apply wp_bind, wp_gets, wp_ret.
      destruct (BraidWord.largestGenerator b <? maxgen (self s)).
      * eapply wp_invoke; [exact Hs | reflexivity |].
        intros ok b' s' Hs'. now apply wp_log_outcome with (b := b').
      * now apply wp_log_outcome with (b := b) (ok := false).
    + now apply wp_log_outcome with (b := b) (ok := false).
  - apply wp_bind. eapply wp_eq; [eapply destabilize_guard_ok, Hb |].
    destruct ((BraidWord.length b =? 1) && BraidWord.canDestabilize b)
      eqn:G.
    + now apply wp_unknot with (b := b).
    + apply wp_bind. eapply wp_invoke; [exact Hs | simpl; now rewrite G |].
      intros ok b' s' Hs'. now apply wp_log_outcome with (b := b').
Qed.

Lemma wp_model_step (b : BraidWord) (d : gmap Z string) (step : Z)
  (s : state) :
  stepping s0 braid log b d s ->
  wp (MarkovChain.model_step braid log step)
    (fun _ s' => exists b' msg,
       stepping s0 braid log b' (<[step := msg]> d) s') s.
Proof.
  intros Hs. unfold wp.
  rewrite (model_step_draws braid log step b s); [| apply Hs | apply Hs].
  apply wp_dispatch with (b := b).
  - unfold drawn. now apply stepping_emit, stepping_advance, stepping_emit,
      stepping_advance.
  - pose proof (Z.mod_pos_bound (tape s (pos s)) 7). lia.
Qed.

End Stepping.

(** ** Keys of a log *)

Lemma keys_exactly_insert (i : Z) (v : string) (d : gmap Z string) :
  0 <= i -> keys_exactly i d -> keys_exactly (i + 1) (<[i := v]> d).
Proof.
  intros Hi H k. rewrite lookup_insert. case_decide as E.
  - subst k. split; [lia | eauto].
  - rewrite (H k). lia.
Qed.

Lemma keys_exactly_empty : keys_exactly 0 (∅ : gmap Z string).
Proof.
  intros k. rewrite lookup_empty. split; [intros [x Hx]; discriminate | lia].
Qed.

Lemma keys_exactly_to_nat (m : Z) (d : gmap Z string) :
  keys_exactly (Z.of_nat (Z.to_nat m)) d -> keys_exactly m d.
Proof. intros H k. rewrite (H k). lia. Qed.

Lemma keys_exactly_size (m : Z) (d : gmap Z string) :
  keys_exactly m d -> size d = Z.to_nat m.
Proof.
  intros H.
  assert (E : dom d = list_to_set (seqZ 0 m)).
  { apply set_eq. intros k.
    rewrite elem_of_dom, elem_of_list_to_set, elem_of_seqZ, (H k). lia. }
  rewrite <- size_dom, E, size_list_to_set by apply NoDup_seqZ.
  apply length_seqZ.
Qed.

Lemma keys_exactly_below (m : Z) (d : gmap Z string) :
  keys_exactly m d -> keys_below m d.
Proof. intros H k Hk. now apply H. Qed.

Lemma grown_refl (msteps : Z) (s : state) : grown msteps s s [] [].
Proof. constructor; simpl; rewrite ?app_nil_r; auto. Qed.

Lemma grown_trans (msteps : Z) (s s1 s2 : state) (r1 r2 l1 l2 : list loc) :
  (braid (self s) < List.length (heap s))%nat ->
  grown msteps s s1 r1 l1 -> grown msteps s1 s2 r2 l2 ->
  grown msteps s s2 (r1 ++ r2) (l1 ++ l2).
Proof.
  intros Hlt [Hb1 Hg1 Hl1 Hr1 Hlg1 Hn1 Hs1 He1 Hf1 Hz1]
    [Hb2 Hg2 Hl2 Hr2 Hlg2 Hn2 Hs2 He2 Hf2 Hz2].
  apply Forall_app in Hn1 as [Hn1r Hn1l].
  apply Forall_app in Hn2 as [Hn2r Hn2l].
  assert (Hkeep : forall l o, (List.length (heap s) <= l)%nat ->
            heap s1 !! l = Some o -> heap s2 !! l = Some o).
  { intros l o Hl Ho. rewrite Hf2; [exact Ho | |].
    - eapply lookup_lt_Some; eauto.
    - rewrite Hb1. lia. }
  constructor.
  - congruence.
  - congruence.
  - congruence.
  - rewrite Hr2, Hr1. now rewrite app_assoc.
  - rewrite Hlg2, Hlg1. now rewrite app_assoc.
  - repeat rewrite Forall_app. repeat split; try assumption.
    + eapply Forall_impl; [exact Hn2r |]. simpl. intros; lia.
    + eapply Forall_impl; [exact Hn2l |]. simpl. intros; lia.
  - apply Forall_app. split; [| exact Hs2].
    rewrite Forall_forall in Hs1, Hn1r |- *. intros l Hl.
    destruct (Hs1 l Hl) as [w Hw]. exists w. apply Hkeep; auto.
  - apply Forall_app. split; [| exact He2].
    rewrite Forall_forall in He1, Hn1l |- *. intros l Hl.
    destruct (He1 l Hl) as (d & Hd & Hk). exists d. split; [| exact Hk].
    apply Hkeep; auto.
  - intros l Hl Hne. rewrite Hf2; [now apply Hf1 | lia | congruence].
  - lia.
Qed.


(** ** Trials *)

Section Trials.
Context {moves : BraidWord.Moves}.
Hypothesis nonempty : keeps_nonempty.

Lemma wp_steps (s0 : state) (braid log : loc) (n : nat) :
  forall (i : Z) (b : BraidWord) (d : gmap Z string) (s : state),
    stepping s0 braid log b d s -> 0 <= i -> keys_exactly i d ->
    wp (for_range n i (MarkovChain.model_step braid log))
      (fun _ s' => exists b' d',
         stepping s0 braid log b' d' s' /\ keys_exactly (i + Z.of_nat n) d')
      s.
Proof.
  induction n as [|n IH]; intros i b d s Hs Hi Hk; simpl for_range.
  - apply wp_ret. exists b, d. split; [exact Hs |].
    now replace (i + Z.of_nat 0) with i by lia.
  - apply wp_bind.
    eapply wp_mono; [apply (wp_model_step s0 braid log nonempty b d i s Hs) |].
    intros [] s' (b' & msg & Hs').
    eapply wp_mono.
    + apply (IH (i + 1) b' (<[i := msg]> d) s' Hs'); [lia |].
      now apply keys_exactly_insert.
    + intros [] s'' (b'' & d'' & Hs'' & Hk''). exists b'', d''.
      split; [exact Hs'' |].
      now replace (i + Z.of_nat (S n)) with (i + 1 + Z.of_nat n) by lia.
Qed.

Lemma wp_model_trial (msteps : Z) (b : BraidWord) (s : state) :
  working_word s b -> word b <> [] ->
  wp (MarkovChain.model_trial msteps)
    (fun _ s' => exists b' snapshot,
       working_word s' b' /\ word b' <> []
       /\ grown msteps s s' [snapshot] [List.length (heap s)]) s.
Proof.
  intros Hw Hne. unfold working_word in Hw.
  assert (Hlt : (braid (self s) < List.length (heap s))%nat)
    by (eapply lookup_lt_Some; eauto).
  unfold MarkovChain.model_trial.
  apply wp_bind, wp_gets, wp_bind.
  eapply wp_eq; [reflexivity |].
  set (log := List.length (heap s)).
  set (s1 := set_heap (fun h => h ++ [ODict ∅]) s).
  assert (Hs1 : stepping s1 (braid (self s)) log b ∅ s1).
  { constructor; try reflexivity; try assumption; simpl.
    - now rewrite lookup_app_l.
    - apply list_lookup_middle. reflexivity. }
  apply wp_bind.
  eapply wp_mono;
    [apply (wp_steps s1 (braid (self s)) log (Z.to_nat msteps) 0 b ∅ s1 Hs1);
       [lia | apply keys_exactly_empty] |].
  intros [] s2 (b' & d & Hs2 & Hk). simpl in Hk.
  apply keys_exactly_to_nat in Hk.
  destruct Hs2 as [Hself Hsize Hb2 Hd2 Hframe Hne'].
  assert (Hsz1 : List.length (heap s1) = S log)
    by (unfold s1; simpl; rewrite length_app; simpl; lia).
  apply wp_bind. unfold deepcopy. apply wp_bind.
  eapply wp_eq; [unfold load; now rewrite Hb2 |].
  eapply wp_eq; [reflexivity |].
  apply wp_bind, wp_modify, wp_modify.
  exists b', (List.length (heap s2)).
  assert (Hb_lt : (braid (self s) < List.length (heap s2))%nat) by lia.
  assert (Hlog_lt : (log < List.length (heap s2))%nat) by lia.
  split; [| split; [exact Hne' |]].
  - unfold working_word. simpl. rewrite Hself. simpl.
    now rewrite lookup_app_l.
  - constructor; simpl; rewrite ?Hself; simpl; try reflexivity.
    + repeat constructor; fold log; lia.
    + repeat constructor. exists b'. apply list_lookup_middle. reflexivity.
    + repeat constructor. exists d. split; [| exact Hk].
      now rewrite lookup_app_l.
    + intros l Hl Hlb. rewrite lookup_app_l by lia.
      rewrite Hframe; [| exact Hlb | fold log in Hl; lia].
      unfold s1. simpl. now rewrite lookup_app_l.
    + rewrite length_app. simpl. fold log. lia.
Qed.


Lemma wp_trials (msteps : Z) (n : nat) :
  forall (i : Z) (b : BraidWord) (s : state),
    working_word s b -> word b <> [] ->
    wp (for_range n i (fun _ => MarkovChain.model_trial msteps))
      (fun _ s' => exists b' reps logs,
         working_word s' b' /\ word b' <> []
         /\ grown msteps s s' reps logs
         /\ List.length reps = n /\ List.length logs = n) s.
Proof.
  induction n as [|n IH]; intros i b s Hw Hne; simpl for_range.
  - apply wp_ret. exists b, [], [].
    split; [exact Hw |]. split; [exact Hne |].
    split; [apply grown_refl |]. split; reflexivity.
  - apply wp_bind.
    eapply wp_mono; [apply (wp_model_trial msteps b s Hw Hne) |].
    intros [] s1 (b1 & snapshot & Hw1 & Hne1 & Hg1).
    eapply wp_mono; [apply (IH (i + 1) b1 s1 Hw1 Hne1) |].
    intros [] s2 (b2 & reps & logs & Hw2 & Hne2 & Hg2 & Hlr & Hll).
    exists b2, ([snapshot] ++ reps), ([List.length (heap s)] ++ logs).
    split; [exact Hw2 |]. split; [exact Hne2 |].
    split; [| simpl; now rewrite Hlr, Hll].
    apply grown_trans with (s1 := s1); try assumption.
    eapply lookup_lt_Some. exact Hw.
Qed.

(** From a working word that is not empty, [model] returns normally, and
    what it has added is described by [grown]. *)
Lemma model_grows (num_braidreps msteps : Z) (b : BraidWord) (s : state) :
  working_word s b -> word b <> [] ->
  exists (s' : state) (b' : BraidWord) (reps logs : list loc),
    MarkovChain.model num_braidreps msteps s = (Ok tt, s')
    /\ working_word s' b' /\ word b' <> []
    /\ grown msteps s s' reps logs
    /\ List.length reps = Z.to_nat num_braidreps
    /\ List.length logs = Z.to_nat num_braidreps.
Proof.
  intros Hw Hne.
  destruct (wp_ok _ _ _
              (wp_trials msteps (Z.to_nat num_braidreps) 0 b s Hw Hne))
    as ([] & s' & E & b' & reps & logs & H).
  exists s', b', reps, logs. split; [exact E | exact H].
Qed.

(** C5: from a working word that is not empty, with moves that keep it so,
    [model(num_braidreps, msteps)] returns normally; it appends to
    [braidreps] and to [logs] the same number of new entries, as many as
    [num_braidreps] asks for (none when it is negative); each new braidrep
    is a stored snapshot and each new log a mapping of at most [msteps]
    entries with keys in [[0, msteps)]. *)
Theorem model_aggregate_shape (num_braidreps msteps : Z) (b : BraidWord)
  (s : state) :
  working_word s b -> word b <> [] ->
  exists (s' : state) (reps logs : list loc),
    MarkovChain.model num_braidreps msteps s = (Ok tt, s')
    /\ agg_braidreps (braidagg (self s'))
       = agg_braidreps (braidagg (self s)) ++ reps
    /\ agg_logs (braidagg (self s'))
       = agg_logs (braidagg (self s)) ++ logs
    /\ List.length reps = Z.to_nat num_braidreps
    /\ List.length logs = Z.to_nat num_braidreps
    /\ Forall (fun l => exists w, heap s' !! l = Some (OBraidWord w)) reps
    /\ Forall (fun l => exists d,
                 heap s' !! l = Some (ODict d)
                 /\ (size d <= Z.to_nat msteps)%nat
                 /\ keys_below msteps d) logs.
Proof.
  intros Hw Hne.
  destruct (model_grows num_braidreps msteps b s Hw Hne)
    as (s' & b' & reps & logs & E & _ & _ & Hg & Hr & Hl).
  exists s', reps, logs.
  split; [exact E |].
  split; [apply Hg |]. split; [apply Hg |].
  split; [exact Hr |]. split; [exact Hl |].
  split; [apply Hg |].
  eapply Forall_impl; [apply (grown_entries _ _ _ _ _ Hg) |].
  intros l (d & Hd & Hk). exists d. split; [exact Hd |].
  split; [rewrite (keys_exactly_size _ _ Hk); lia |].
  now apply keys_exactly_below.
Qed.

(** C7: in an iteration the move type handed to the dispatch is the outcome
    of [randrange(7)] and lies in [[0, 6]]; after [model] every new log has
    an entry for each step index of [[0, msteps)] and for nothing else: the
    branch without an entry is never taken. *)
Theorem every_step_logged (num_braidreps msteps : Z) (b : BraidWord)
  (s : state) :
  working_word s b -> word b <> [] ->
  (let movetype := tape s (pos s) mod 7 in
   let index := tape s (S (pos s)) mod BraidWord.length b in
   0 <= movetype <= 6
   /\ rr 7 s = (Ok movetype, emit (LDraw 7 movetype) (advance s))
   /\ forall (log : loc) (step : Z),
        MarkovChain.model_step (braid (self s)) log step s
        = MarkovChain.dispatch (braid (self s)) log step movetype index
            (drawn (BraidWord.length b) s))
  /\ exists (s' : state) (logs : list loc),
       MarkovChain.model num_braidreps msteps s = (Ok tt, s')
       /\ agg_logs (braidagg (self s'))
          = agg_logs (braidagg (self s)) ++ logs
       /\ List.length logs = Z.to_nat num_braidreps
       /\ Forall (fun l => exists d,
                    heap s' !! l = Some (ODict d)
                    /\ keys_exactly msteps d) logs.
Proof.
  intros Hw Hne. split.
  - split; [pose proof (Z.mod_pos_bound (tape s (pos s)) 7); lia |].
    split; [apply rr_ok; lia |].
    intros log step. now apply model_step_draws.
  - destruct (model_grows num_braidreps msteps b s Hw Hne)
      as (s' & b' & reps & logs & E & _ & _ & Hg & Hr & Hl).
    exists s', logs. split; [exact E |]. split; [apply Hg |].
    split; [exact Hl | apply Hg].
Qed.

End Trials.

(** ** Determinism *)

(** *** The relation through the primitives *)

Lemma paired_ret {A : Type} (R : state -> state -> Prop) (a : A) :
  paired R (ret a) (ret a).
Proof. intros s1 s2 H. now split. Qed.

Lemma paired_raise {A : Type} (R : state -> state -> Prop) (e : exn) :
  paired R (raise (A := A) e) (raise e).
Proof. intros s1 s2 H. now split. Qed.

Lemma paired_bind {A B : Type} (R : state -> state -> Prop)
    (m1 m2 : M A) (k1 k2 : A -> M B) :
  paired R m1 m2 -> (forall a, paired R (k1 a) (k2 a)) ->
  paired R (bind m1 k1) (bind m2 k2).
Proof.
  intros Hm Hk s1 s2 H. unfold bind.
  destruct (Hm s1 s2 H) as [E1 E2].
  destruct (m1 s1) as [[a1 | e1] s1'], (m2 s2) as [[a2 | e2] s2'];
    simpl in *; try discriminate.
  - injection E1 as ->. now apply Hk.
  - injection E1 as ->. now split.
Qed.

Lemma paired_for_range (R : state -> state -> Prop) (n : nat)
    (body1 body2 : Z -> M unit) :
  (forall i, paired R (body1 i) (body2 i)) ->
  forall i, paired R (for_range n i body1) (for_range n i body2).
Proof.
  intros Hb. induction n as [|n IH]; intros i; simpl.
  - apply paired_ret.
  - apply paired_bind; [apply Hb | intros _; apply IH].
Qed.

Lemma paired_and_then (R : state -> state -> Prop) (a1 a2 b1 b2 : M bool) :
  paired R a1 a2 -> paired R b1 b2 ->
  paired R (and_then a1 b1) (and_then a2 b2).
Proof.
  intros Ha Hb. unfold and_then. apply paired_bind; [exact Ha |].
  intros [|]; [exact Hb | apply paired_ret].
Qed.

Lemma pairing_left (pairing : list (loc * loc)) (p q : loc * loc) :
  NoDup pairing.*1 -> p ∈ pairing -> q ∈ pairing -> p.1 = q.1 -> p = q.
Proof.
  induction pairing as [|x rest IH]; intros Hn Hp Hq E;
    [now apply elem_of_nil in Hp |].
  rewrite fmap_cons in Hn. apply NoDup_cons in Hn as [Hx Hn].
  apply elem_of_cons in Hp as [-> | Hp], Hq as [-> | Hq].
  - reflexivity.
  - exfalso. apply Hx. rewrite E. now apply list_elem_of_fmap_2.
  - exfalso. apply Hx. rewrite <- E. now apply list_elem_of_fmap_2.
  - now apply IH.
Qed.

Lemma pairing_right (pairing : list (loc * loc)) (p q : loc * loc) :
  NoDup pairing.*2 -> p ∈ pairing -> q ∈ pairing -> p.2 = q.2 -> p = q.
Proof.
  induction pairing as [|x rest IH]; intros Hn Hp Hq E;
    [now apply elem_of_nil in Hp |].
  rewrite fmap_cons in Hn. apply NoDup_cons in Hn as [Hx Hn].
  apply elem_of_cons in Hp as [-> | Hp], Hq as [-> | Hq].
  - reflexivity.
  - exfalso. apply Hx. rewrite E. now apply list_elem_of_fmap_2.
  - exfalso. apply Hx. rewrite <- E. now apply list_elem_of_fmap_2.
  - now apply IH.
Qed.

Section Akin.
Variables (h1 h2 : list label) (m1 m2 : MarkovChain)
  (pairing : list (loc * loc)).

Abbreviation R := (akin h1 h2 m1 m2 pairing).

Lemma paired_rr (n : Z) : paired R (rr n) (rr n).
Proof.
  intros s1 s2 H. unfold rr. destruct (n <=? 0); [now split |].
  pose proof (akin_seed _ _ _ _ _ _ _ H 0%nat) as E0.
  rewrite !Nat.add_0_r in E0. rewrite <- E0. simpl.
  split; [reflexivity |].
  destruct H as [S1 S2 Hg Hl Hseed (t1 & t2 & E1 & E2 & Et) Ho Hn1 Hn2].
  constructor; simpl; try assumption.
  - intros i. specialize (Hseed (S i)).
    now rewrite !Nat.add_succ_r in Hseed.
  - exists (t1 ++ [LDraw n (tape s1 (pos s1) mod n)]),
           (t2 ++ [LDraw n (tape s1 (pos s1) mod n)]).
    rewrite E1, E2, !app_assoc, !map_app, Et. now split_and!.
Qed.

Lemma paired_sample {A : Type} (t : rand A) : paired R (sample t) (sample t).
Proof.
  induction t as [a | n k IH]; simpl.
  - apply paired_ret.
  - apply paired_bind; [apply paired_rr | exact IH].
Qed.

Lemma paired_load (l1 l2 : loc) :
  (l1, l2) ∈ pairing -> paired R (load l1) (load l2).
Proof.
  intros Hin s1 s2 H. unfold load.
  pose proof (akin_objects _ _ _ _ _ _ _ H) as Ho.
  rewrite Forall_forall in Ho. destruct (Ho _ Hin) as (o & E1 & E2).
  simpl in E1, E2. rewrite E1, E2. now split.
Qed.

Lemma paired_store (l1 l2 : loc) (o : obj) :
  (l1, l2) ∈ pairing -> paired R (store l1 o) (store l2 o).
Proof.
  intros Hin s1 s2 H. split; [reflexivity |].
  destruct H as [S1 S2 Hg Hl Hseed Hev Ho Hn1 Hn2].
  constructor; try assumption. simpl.
  rewrite Forall_forall in Ho |- *. intros p Hp.
  destruct (Ho _ Hp) as (o' & E1 & E2).
  destruct (decide (p.1 = l1)) as [Heq | Hne].
  - assert (p = (l1, l2)) by (now apply (pairing_left pairing)).
    subst p. simpl in *. exists o.
    split; apply list_lookup_insert_eq; eapply lookup_lt_Some; eassumption.
  - assert (p.2 <> l2).
    { intros Heq. apply Hne.
      now rewrite (pairing_right pairing p (l1, l2) Hn2 Hp Hin Heq). }
    exists o'. now rewrite !list_lookup_insert_ne by congruence.
Qed.

Lemma paired_called (l1 l2 : loc) (c : call) :
  paired R (modify (emit (LCall l1 c))) (modify (emit (LCall l2 c))).
Proof.
  intros s1 s2 H. split; [reflexivity |].
  destruct H as [S1 S2 Hg Hl Hseed (t1 & t2 & E1 & E2 & Et) Ho Hn1 Hn2].
  constructor; simpl; try assumption.
  exists (t1 ++ [LCall l1 c]), (t2 ++ [LCall l2 c]).
  rewrite E1, E2, !app_assoc, !map_app, Et. now split_and!.
Qed.

Lemma paired_maxlen :
  paired R (gets (fun s => maxlen (self s))) (gets (fun s => maxlen (self s))).
Proof.
  intros s1 s2 H. split; [| exact H]. simpl.
  now rewrite (akin_self1 _ _ _ _ _ _ _ H), (akin_self2 _ _ _ _ _ _ _ H),
    (akin_maxlen _ _ _ _ _ _ _ H).
Qed.

Lemma paired_maxgen :
  paired R (gets (fun s => maxgen (self s))) (gets (fun s => maxgen (self s))).
Proof.
  intros s1 s2 H. split; [| exact H]. simpl.
  now rewrite (akin_self1 _ _ _ _ _ _ _ H), (akin_self2 _ _ _ _ _ _ _ H),
    (akin_maxgen _ _ _ _ _ _ _ H).
Qed.

Lemma paired_as_braid (l1 l2 : loc) :
  (l1, l2) ∈ pairing -> paired R (as_braid l1) (as_braid l2).
Proof.
  intros Hin. unfold as_braid. apply paired_bind; [now apply paired_load |].
  intros [b | d]; [apply paired_ret | apply paired_raise].
Qed.

Lemma paired_setitem (l1 l2 : loc) (k : Z) (v : string) :
  (l1, l2) ∈ pairing -> paired R (setitem l1 k v) (setitem l2 k v).
Proof.
  intros Hin. unfold setitem. apply paired_bind; [now apply paired_load |].
  intros [b | d]; [apply paired_raise | now apply paired_store].
Qed.

Lemma paired_getitem (l1 l2 : loc) (k : Z) :
  (l1, l2) ∈ pairing -> paired R (getitem l1 k) (getitem l2 k).
Proof.
  intros Hin. unfold getitem. apply paired_bind; [now apply paired_load |].
  intros [b | d]; [apply paired_raise |].
  destruct (d !! k); [apply paired_ret | apply paired_raise].
Qed.

Context {moves : BraidWord.Moves}.
Variables (braid1 braid2 log1 log2 : loc).
Hypothesis braids_paired : (braid1, braid2) ∈ pairing.
Hypothesis logs_paired : (log1, log2) ∈ pairing.

Lemma paired_invoke (c : call) :
  paired R (MarkovChain.invoke braid1 c) (MarkovChain.invoke braid2 c).
Proof.
  unfold MarkovChain.invoke.
  apply paired_bind; [now apply paired_as_braid |]. intros b.
  apply paired_bind; [apply paired_called |]. intros _.
  apply paired_bind; [apply paired_sample |]. intros [ok b'].
  apply paired_bind; [now apply paired_store |]. intros _.
  apply paired_ret.
Qed.

Lemma paired_length :
  paired R (MarkovChain.length_ braid1) (MarkovChain.length_ braid2).
Proof.
  unfold MarkovChain.length_.
  apply paired_bind; [now apply paired_as_braid |]. intros b.
  apply paired_ret.
Qed.

Lemma paired_largestGenerator :
  paired R (MarkovChain.largestGenerator_ braid1)
    (MarkovChain.largestGenerator_ braid2).
Proof.
  unfold MarkovChain.largestGenerator_.
  apply paired_bind; [now apply paired_as_braid |]. intros b.
  apply paired_ret.
Qed.

Lemma paired_canCancel (index : Z) :
  paired R (MarkovChain.canCancel_ braid1 index)
    (MarkovChain.canCancel_ braid2 index).
Proof.
  unfold MarkovChain.canCancel_.
  apply paired_bind; [now apply paired_as_braid |]. intros b.
  apply paired_ret.
Qed.

Lemma paired_canDestabilize :
  paired R (MarkovChain.canDestabilize_ braid1)
    (MarkovChain.canDestabilize_ braid2).
Proof.
  unfold MarkovChain.canDestabilize_.
  apply paired_bind; [now apply paired_as_braid |]. intros b.
  apply paired_ret.
Qed.

(** Closes the goals made of binds, conditionals and the paired calls. *)
Ltac paired_tac :=
  repeat first
    [ progress intros
    | apply paired_ret
    | apply paired_rr
    | apply paired_invoke
    | apply paired_length
    | apply paired_largestGenerator
    | apply paired_canCancel
    | apply paired_canDestabilize
    | apply paired_maxlen
    | apply paired_maxgen
    | apply paired_setitem; exact logs_paired
    | apply paired_getitem; exact logs_paired
    | apply paired_and_then
    | apply paired_bind
    | match goal with
      | |- paired _ (if ?c then _ else _) (if ?c then _ else _) => destruct c
      end ].

Lemma paired_dispatch (step movetype index : Z) :
  paired R (MarkovChain.dispatch braid1 log1 step movetype index)
    (MarkovChain.dispatch braid2 log2 step movetype index).
Proof. unfold MarkovChain.dispatch. paired_tac. Qed.

Lemma paired_model_step (step : Z) :
  paired R (MarkovChain.model_step braid1 log1 step)
    (MarkovChain.model_step braid2 log2 step).
Proof.
  unfold MarkovChain.model_step. paired_tac. apply paired_dispatch.
Qed.

Lemma paired_steps (msteps : Z) :
  paired R (for_in_range msteps (MarkovChain.model_step braid1 log1))
    (for_in_range msteps (MarkovChain.model_step braid2 log2)).
Proof.
  unfold for_in_range. apply paired_for_range. apply paired_model_step.
Qed.

End Akin.

(** *** The relation through a trial *)

Lemma akin_alloc (h1 h2 : list label) (m1 m2 : MarkovChain)
    (pairing : list (loc * loc)) (o : obj) (s1 s2 : state) :
  akin h1 h2 m1 m2 pairing s1 s2 ->
  akin h1 h2 m1 m2
    ((List.length (heap s1), List.length (heap s2)) :: pairing)
    (set_heap (fun h => h ++ [o]) s1) (set_heap (fun h => h ++ [o]) s2).
Proof.
  intros [S1 S2 Hg Hl Hseed Hev Ho Hn1 Hn2].
  rewrite Forall_forall in Ho.
  constructor; simpl; try assumption.
  - apply Forall_cons. split.
    + exists o. simpl. split; now apply list_lookup_middle.
    + apply Forall_forall. intros p Hp.
      destruct (Ho _ Hp) as (o' & E1 & E2). exists o'.
      split; apply lookup_app_l_Some; assumption.
  - apply NoDup_cons. split; [| assumption].
    intros Hin. apply list_elem_of_fmap_1 in Hin as (p & E & Hp).
    destruct (Ho _ Hp) as (o' & E1 & _).
    apply lookup_lt_Some in E1. simpl in E. lia.
  - apply NoDup_cons. split; [| assumption].
    intros Hin. apply list_elem_of_fmap_1 in Hin as (p & E & Hp).
    destruct (Ho _ Hp) as (o' & _ & E2).
    apply lookup_lt_Some in E2. simpl in E. lia.
Qed.

Lemma akin_set_self (h1 h2 : list label) (m1 m2 : MarkovChain)
    (pairing : list (loc * loc)) (f1 f2 : MarkovChain -> MarkovChain)
    (s1 s2 : state) :
  akin h1 h2 m1 m2 pairing s1 s2 ->
  maxgen (f1 m1) = maxgen (f2 m2) -> maxlen (f1 m1) = maxlen (f2 m2) ->
  akin h1 h2 (f1 m1) (f2 m2) pairing (set_self f1 s1) (set_self f2 s2).
Proof.
  intros [S1 S2 Hg Hl Hseed Hev Ho Hn1 Hn2] Hg' Hl'.
  constructor; simpl; try assumption; congruence.
Qed.

Section Twinned.
Context {moves : BraidWord.Moves}.

(** A trial, spelled out: the log is the next free cell, the loop runs on
    the working word and that log, and the snapshot is a copy of what the
    working reference holds then. *)
Lemma model_trial_unfold (msteps : Z) (s : state) :
  MarkovChain.model_trial msteps s
  = let log := List.length (heap s) in
    match for_in_range msteps (MarkovChain.model_step (braid (self s)) log)
            (set_heap (fun h => h ++ [ODict ∅]) s) with
    | (Ok _, sb) =>
        match heap sb !! braid (self s) with
        | Some o =>
            (Ok tt,
             set_self (fun m =>
               with_braidagg
                 {| agg_braidreps := agg_braidreps (braidagg m);
                    agg_logs := agg_logs (braidagg m) ++ [log] |} m)
               (set_self (fun m =>
                  with_braidagg
                    {| agg_braidreps :=
                         agg_braidreps (braidagg m)
                         ++ [List.length (heap sb)];
                       agg_logs := agg_logs (braidagg m) |} m)
                  (set_heap (fun h => h ++ [o]) sb)))
        | None => (Raised InvalidRef, sb)
        end
    | (Raised e, sb) => (Raised e, sb)
    end.
Proof.
  unfold MarkovChain.model_trial, deepcopy.
  unfold bind, gets, alloc, load, modify. simpl.
  destruct (for_in_range msteps _ _) as [[[] | e] sb]; [| reflexivity].
  destruct (heap sb !! braid (self s)); reflexivity.
Qed.

Lemma paired_model_trial (h1 h2 : list label) (a1 a2 : braidagg_t)
    (msteps : Z) :
  paired (twinned h1 h2 a1 a2) (MarkovChain.model_trial msteps)
    (MarkovChain.model_trial msteps).
Proof.
  intros s1 s2 (pairing & reps & logs & Hk & Hb & Hr & Hl & B1 & B2 & L1 & L2).
  rewrite !model_trial_unfold. cbv zeta.
  pose proof (akin_alloc _ _ _ _ _ (ODict ∅) _ _ Hk) as Hk'.
  set (log1 := List.length (heap s1)) in *.
  set (log2 := List.length (heap s2)) in *.
  set (pairing' := (log1, log2) :: pairing) in *.
  assert (Hb' : (braid (self s1), braid (self s2)) ∈ pairing')
    by (now apply list_elem_of_further).
  assert (Hlog : (log1, log2) ∈ pairing') by apply list_elem_of_here.
  destruct (paired_steps _ _ _ _ pairing' _ _ _ _ Hb' Hlog msteps _ _ Hk')
    as [Eo Hk2].
  destruct (for_in_range msteps _ (set_heap _ s1)) as [[[] | e1] sb1],
           (for_in_range msteps _ (set_heap _ s2)) as [[[] | e2] sb2];
    simpl in Eo, Hk2; try discriminate.
  - pose proof (akin_objects _ _ _ _ _ _ _ Hk2) as Ho.
    rewrite Forall_forall in Ho. destruct (Ho _ Hb') as (o & E1 & E2).
    simpl in E1, E2. rewrite E1, E2. split; [reflexivity |].
    pose proof (akin_alloc _ _ _ _ _ o _ _ Hk2) as Hk3.
    set (rep1 := List.length (heap sb1)) in *.
    set (rep2 := List.length (heap sb2)) in *.
    pose proof (akin_self1 _ _ _ _ _ _ _ Hk2) as S1.
    pose proof (akin_self2 _ _ _ _ _ _ _ Hk2) as S2.
    exists ((rep1, rep2) :: pairing'), (reps ++ [(rep1, rep2)]),
           (logs ++ [(log1, log2)]).
    simpl. rewrite S1, S2. simpl. split_and!.
    + destruct Hk3 as [? ? ? ? ? ? ? ? ?].
      constructor; simpl; try assumption; congruence.
    + now apply list_elem_of_further.
    + intros p Hp. apply elem_of_app in Hp as [Hp | Hp].
      * do 2 apply list_elem_of_further. now apply Hr.
      * apply list_elem_of_singleton in Hp as ->. apply list_elem_of_here.
    + intros p Hp. apply elem_of_app in Hp as [Hp | Hp].
      * do 2 apply list_elem_of_further. now apply Hl.
      * apply list_elem_of_singleton in Hp as ->.
        apply list_elem_of_further, list_elem_of_here.
    + now rewrite B1, fmap_app, app_assoc.
    + now rewrite B2, fmap_app, app_assoc.
    + now rewrite L1, fmap_app, app_assoc.
    + now rewrite L2, fmap_app, app_assoc.
  - split; [exact Eo |].
    pose proof (akin_self1 _ _ _ _ _ _ _ Hk2) as S1.
    pose proof (akin_self2 _ _ _ _ _ _ _ Hk2) as S2.
    exists pairing', reps, logs. cbn [snd]. rewrite S1, S2.
    split_and!; try assumption.
    + intros p Hp. apply list_elem_of_further. now apply Hr.
    + intros p Hp. apply list_elem_of_further. now apply Hl.
Qed.

Lemma paired_model (h1 h2 : list label) (a1 a2 : braidagg_t)
    (num_braidreps msteps : Z) :
  paired (twinned h1 h2 a1 a2) (MarkovChain.model num_braidreps msteps)
    (MarkovChain.model num_braidreps msteps).
Proof.
  unfold MarkovChain.model, for_in_range. apply paired_for_range.
  intros _. apply paired_model_trial.
Qed.

Lemma paired_objects (pairing entries : list (loc * loc)) (s1 s2 : state) :
  Forall (fun p => exists o : obj,
            heap s1 !! p.1 = Some o /\ heap s2 !! p.2 = Some o) pairing ->
  entries ⊆ pairing ->
  exists os : list obj,
    Forall2 (fun l o => heap s1 !! l = Some o) entries.*1 os
    /\ Forall2 (fun l o => heap s2 !! l = Some o) entries.*2 os.
Proof.
  intros Ho. rewrite Forall_forall in Ho.
  induction entries as [|p entries IH]; intros Hsub.
  - exists []. split; constructor.
  - destruct (Ho p) as (o & E1 & E2); [apply Hsub, list_elem_of_here |].
    destruct IH as (os & F1 & F2).
    { intros q Hq. now apply Hsub, list_elem_of_further. }
    exists (o :: os). split; constructor; assumption.
Qed.

(** C10: two runs of [model] with the same arguments, on engines with the
    same bounds whose working words are equal, under the same seed, go the
    same way, whatever else the two worlds hold: the outcome is the same,
    the draws and the calls of moves made are the same in the same order,
    the snapshots and the logs the two runs append are equal one by one,
    the working words left behind are equal, and the seed is still the
    same. *)
Theorem model_deterministic (num_braidreps msteps : Z) (b : BraidWord)
    (s1 s2 : state) :
  working_word s1 b -> working_word s2 b ->
  maxgen (self s1) = maxgen (self s2) ->
  maxlen (self s1) = maxlen (self s2) ->
  same_seed s1 s2 ->
  let run1 := MarkovChain.model num_braidreps msteps s1 in
  let run2 := MarkovChain.model num_braidreps msteps s2 in
  run1.1 = run2.1
  /\ (exists t1 t2 : list label,
        history run1.2 = history s1 ++ t1
        /\ history run2.2 = history s2 ++ t2
        /\ map event_of t1 = map event_of t2)
  /\ (exists (reps1 reps2 logs1 logs2 : list loc) (snapshots entries : list obj),
        agg_braidreps (braidagg (self run1.2))
        = agg_braidreps (braidagg (self s1)) ++ reps1
        /\ agg_braidreps (braidagg (self run2.2))
           = agg_braidreps (braidagg (self s2)) ++ reps2
        /\ agg_logs (braidagg (self run1.2))
           = agg_logs (braidagg (self s1)) ++ logs1
        /\ agg_logs (braidagg (self run2.2))
           = agg_logs (braidagg (self s2)) ++ logs2
        /\ Forall2 (fun l o => heap run1.2 !! l = Some o) reps1 snapshots
        /\ Forall2 (fun l o => heap run2.2 !! l = Some o) reps2 snapshots
        /\ Forall2 (fun l o => heap run1.2 !! l = Some o) logs1 entries
        /\ Forall2 (fun l o => heap run2.2 !! l = Some o) logs2 entries)
  /\ (exists o : obj,
        heap run1.2 !! braid (self run1.2) = Some o
        /\ heap run2.2 !! braid (self run2.2) = Some o)
  /\ same_seed run1.2 run2.2.
Proof.
  intros W1 W2 Hg Hl Hseed run1 run2.
  assert (H0 : twinned (history s1) (history s2) (braidagg (self s1))
                 (braidagg (self s2)) s1 s2).
  { exists [(braid (self s1), braid (self s2))], [], [].
    split_and!; try (now rewrite app_nil_r); try apply list_elem_of_here;
      try (intros p Hp; now apply elem_of_nil in Hp).
    constructor; try assumption; try reflexivity.
    - exists [], []. now rewrite !app_nil_r.
    - apply Forall_singleton. now exists (OBraidWord b).
    - apply NoDup_singleton.
    - apply NoDup_singleton. }
  destruct (paired_model _ _ _ _ num_braidreps msteps s1 s2 H0)
    as [Eo (pairing & reps & logs & Hk & Hb & Hr & Hlg & B1 & B2 & L1 & L2)].
  fold run1 run2 in Eo, Hk, Hb, B1, B2, L1, L2.
  pose proof (akin_objects _ _ _ _ _ _ _ Hk) as Ho.
  destruct (paired_objects _ _ _ _ Ho Hr) as (snapshots & F1 & F2).
  destruct (paired_objects _ _ _ _ Ho Hlg) as (entries & G1 & G2).
  split; [exact Eo |]. split; [exact (akin_events _ _ _ _ _ _ _ Hk) |].
  split.
  { exists reps.*1, reps.*2, logs.*1, logs.*2, snapshots, entries.
    now split_and!. }
  split; [| exact (akin_seed _ _ _ _ _ _ _ Hk)].
  rewrite Forall_forall in Ho. exact (Ho _ Hb).
Qed.

End Twinned.

(** ** Outside the invariant *)

Section EmptyWord.
Context {moves : BraidWord.Moves}.

(** Outside the invariant [1 <= length]: on an empty working word the draw
    of the index is [randrange(0)], and the first iteration raises. *)
Lemma model_step_on_empty_word (braid log : loc) (step : Z) (b : BraidWord)
  (s : state) :
  heap s !! braid = Some (OBraidWord b) -> word b = [] ->
  MarkovChain.model_step braid log step s
  = (Raised ValueError, emit (LDraw 7 (tape s (pos s) mod 7)) (advance s)).
Proof.
  intros Hb He. unfold MarkovChain.model_step.
  rewrite (bind_ok _ _ _ _ _ (rr_ok 7 s ltac:(lia))).
  erewrite bind_ok by (apply length_ok; exact Hb).
  apply bind_raised. apply rr_empty.
  unfold BraidWord.length. rewrite He. simpl. lia.
Qed.

Lemma model_on_empty_word (num_braidreps msteps : Z) (b : BraidWord)
  (s : state) :
  working_word s b -> word b = [] -> 0 < num_braidreps -> 0 < msteps ->
  exists s' : state,
    MarkovChain.model num_braidreps msteps s = (Raised ValueError, s')
    /\ self s' = self s.
Proof.
  intros Hw He HN HM. unfold MarkovChain.model, for_in_range.
  destruct (Z.to_nat num_braidreps) as [|n] eqn:En; [lia |].
  simpl for_range. eexists. split.
  - apply bind_raised. unfold MarkovChain.model_trial.
    rewrite (bind_ok _ _ _ _ _ (eq_refl : gets _ s = _)).
    rewrite (bind_ok _ _ _ _ _ (eq_refl : alloc _ s = _)).
    apply bind_raised. unfold for_in_range.
    destruct (Z.to_nat msteps) as [|m] eqn:Em; [lia |].
    simpl for_range. apply bind_raised.
    apply model_step_on_empty_word with (b := b); [| exact He].
    simpl. rewrite lookup_app_l; [exact Hw |].
    eapply lookup_lt_Some. exact Hw.
  - reflexivity.
Qed.
End EmptyWord.

(** ** The moves modelled from the specification *)

Lemma nonempty_by_length {A : Type} (l : list A) :
  (0 < List.length l)%nat -> l <> [].
Proof. intros H E. rewrite E in H. simpl in H. lia. Qed.

Lemma length_nonempty {A : Type} (l : list A) :
  l <> [] -> (0 < List.length l)%nat.
Proof. destruct l; [congruence | simpl; lia]. Qed.

Lemma spec_moves_keep_nonempty : keeps_nonempty (moves := SpecMoves.moves).
Proof.
  intros c b Hne Hg. apply length_nonempty in Hne as Hlen.
  destruct c as [i | i | i g | i | i | | ]; simpl.
  - unfold SpecMoves.conjugate.
    destruct ((0 <=? i) && (i <? BraidWord.length b)); simpl; [| exact Hne].
    apply nonempty_by_length.
    rewrite length_app, length_drop, length_take. lia.
  - unfold SpecMoves.cancel.
    destruct (SpecMoves.canCancel b i && (3 <=? BraidWord.length b)) eqn:E;
      simpl; [| exact Hne].
    apply andb_prop in E as [_ E]. unfold BraidWord.length in E.
    apply Z.leb_le in E. apply nonempty_by_length.
    rewrite length_app, length_drop, length_take. lia.
  - unfold SpecMoves.insert.
    destruct ((0 <=? i) && (i <=? BraidWord.length b)); simpl; [| exact Hne].
    apply nonempty_by_length. rewrite !length_app. simpl. lia.
  - unfold SpecMoves.transpose.
    destruct (SpecMoves.gen_at (word b) i); [| exact Hne].
    destruct (SpecMoves.gen_at (word b) (i + 1)); [| exact Hne].
    destruct (2 <=? _); simpl; [| exact Hne].
    apply nonempty_by_length. rewrite !length_app. simpl. lia.
  - unfold SpecMoves.flip.
    destruct (SpecMoves.gen_at (word b) (i - 1)); [| exact Hne].
    destruct (SpecMoves.gen_at (word b) i); [| exact Hne].
    destruct (SpecMoves.gen_at (word b) (i + 1)); [| exact Hne].
    destruct (_ && _); simpl; [| exact Hne].
    apply nonempty_by_length. rewrite !length_app. simpl. lia.
  - intros r _. simpl.
    apply nonempty_by_length. rewrite length_app. simpl. lia.
  - unfold SpecMoves.destabilize.
    destruct (SpecMoves.canDestabilize b && (2 <=? BraidWord.length b)) eqn:E;
      simpl; [| exact Hne].
    apply andb_prop in E as [_ E]. unfold BraidWord.length in E.
    apply nonempty_by_length.
    destruct (word b) as [|x w] using rev_ind; [simpl in Hlen; lia |].
    rewrite removelast_last. rewrite length_app in E.
    change (List.length [x]) with 1%nat in E. apply Z.leb_le in E. lia.
Qed.

(** ** Deep copies *)

Lemma deepcopy_list_ok (h0 : list obj) (ls : list loc) :
  forall (memo : gmap loc loc) (s : state),
    Forall (fun l => (l < List.length h0)%nat) ls ->
    (forall l, (l < List.length h0)%nat -> heap s !! l = h0 !! l) ->
    memo_ok h0 memo s ->
    exists (ls' : list loc) (memo' : gmap loc loc) (s' : state),
      deepcopy_list memo ls s = (Ok (ls', memo'), s')
      /\ self s' = self s
      /\ (forall l, (l < List.length (heap s))%nat ->
            heap s' !! l = heap s !! l)
      /\ (List.length (heap s) <= List.length (heap s'))%nat
      /\ memo_ok h0 memo' s'
      /\ Forall (fun l' => (List.length h0 <= l')%nat) ls'
      /\ map (fun l' => heap s' !! l') ls' = map (fun l => h0 !! l) ls.
Proof.
  induction ls as [|l rest IH]; intros memo s Hv Hpre Hmemo.
  - exists [], memo, s. split_and!; auto using Forall_nil_2.
  - apply Forall_cons in Hv as [Hl Hrest].
    assert (Hsz : (List.length h0 <= List.length (heap s))%nat).
    { destruct (decide (List.length h0 <= List.length (heap s))%nat) as [|n];
        [assumption |].
      assert (Hx : (List.length (heap s) < List.length h0)%nat) by lia.
      specialize (Hpre _ Hx).
      rewrite (lookup_ge_None_2 (heap s)) in Hpre by lia.
      symmetry in Hpre. apply lookup_ge_None_1 in Hpre. lia. }
    simpl deepcopy_list. unfold deepcopy_memo.
    destruct (memo !! l) as [l' |] eqn:Em.
    + destruct (IH memo s Hrest Hpre Hmemo)
        as (ls' & memo' & s' & E & Hs & Hp & Hz & Hm & Hf & Hc).
      exists (l' :: ls'), memo', s'.
      rewrite (bind_ok _ _ _ _ _ (eq_refl : ret (l', memo) s = _)).
      rewrite (bind_ok _ _ _ _ _ E).
      destruct (Hmemo l l' Em) as (_ & Hge & Hcont).
      split_and!; auto.
      simpl. rewrite Hc. f_equal.
      rewrite Hp; [exact Hcont |].
      apply lookup_lt_is_Some_1. rewrite Hcont. now apply lookup_lt_is_Some_2.
    + destruct (lookup_lt_is_Some_2 h0 l Hl) as [o Ho].
      set (s1 := set_heap (fun h => h ++ [o]) s).
      assert (E1 : (let* l' := deepcopy l in
                    ret (l', <[l := l']> memo)) s
                   = (Ok (List.length (heap s),
                          <[l := List.length (heap s)]> memo), s1)).
      { unfold deepcopy, bind, load. rewrite (Hpre l Hl), Ho. reflexivity. }
      assert (Hpre1 : forall x, (x < List.length h0)%nat ->
                heap s1 !! x = h0 !! x).
      { intros x Hx. unfold s1. simpl.
        rewrite lookup_app_l by lia. now apply Hpre. }
      assert (Hmemo1 : memo_ok h0 (<[l := List.length (heap s)]> memo) s1).
      { intros x x'. rewrite lookup_insert. case_decide as Ex.
        - intros [= <-]. subst x. repeat split; [assumption | lia |].
          unfold s1. simpl. rewrite Ho. apply list_lookup_middle.
          reflexivity.
        - intros Hx. destruct (Hmemo x x' Hx) as (H1 & H2 & H3).
          repeat split; try assumption.
          unfold s1. simpl. rewrite lookup_app_l; [exact H3 |].
          apply lookup_lt_is_Some_1. rewrite H3.
          now apply lookup_lt_is_Some_2. }
      destruct (IH _ s1 Hrest Hpre1 Hmemo1)
        as (ls' & memo' & s' & E & Hs & Hp & Hz & Hm & Hf & Hc).
      exists (List.length (heap s) :: ls'), memo', s'.
      rewrite (bind_ok _ _ _ _ _ E1).
      rewrite (bind_ok _ _ _ _ _ E).
      assert (Hz1 : List.length (heap s1) = S (List.length (heap s)))
        by (unfold s1; simpl; rewrite length_app; simpl; lia).
      split_and!; auto.
      * intros x Hx. rewrite Hp by lia. unfold s1. simpl.
        now rewrite lookup_app_l.
      * lia.
      * simpl. rewrite Hc. f_equal.
        rewrite Hp by lia. unfold s1. simpl. rewrite Ho.
        apply list_lookup_middle. reflexivity.
Qed.

Lemma memo_ok_empty (h0 : list obj) (s : state) : memo_ok h0 ∅ s.
Proof. intros l l'. rewrite lookup_empty. discriminate. Qed.

(** [aggregate] from a world whose aggregate points into the store: it
    returns references to cells that did not exist, holding what the
    engine's own references hold, and leaves the cells that existed as they
    were. *)
Lemma aggregate_copies (s : state) :
  Forall (fun l => (l < List.length (heap s))%nat) (refs (braidagg (self s))) ->
  exists (a : braidagg_t) (s' : state),
    MarkovChain.aggregate s = (Ok a, s')
    /\ self s' = self s
    /\ Forall (fun l => (List.length (heap s) <= l)%nat) (refs a)
    /\ (List.length (heap s) <= List.length (heap s'))%nat
    /\ (forall l, (l < List.length (heap s))%nat ->
          heap s' !! l = heap s !! l)
    /\ view (heap s') a = view (heap s) (braidagg (self s)).
Proof.
  intros Hv. apply Forall_app in Hv as [Hvr Hvl].
  unfold MarkovChain.aggregate.
  rewrite (bind_ok _ _ _ _ _ (eq_refl : gets _ s = _)).
  destruct (deepcopy_list_ok (heap s) _ ∅ s Hvr (fun _ _ => eq_refl)
              (memo_ok_empty _ _))
    as (bs & memo & s1 & E1 & Hs1 & Hp1 & Hz1 & Hm1 & Hf1 & Hc1).
  rewrite (bind_ok _ _ _ _ _ E1).
  destruct (deepcopy_list_ok (heap s) _ memo s1 Hvl Hp1 Hm1)
    as (ls & memo' & s2 & E2 & Hs2 & Hp2 & Hz2 & Hm2 & Hf2 & Hc2).
  rewrite (bind_ok _ _ _ _ _ E2).
  eexists _, s2. split; [reflexivity |].
  split; [congruence |].
  split; [unfold refs; simpl; now apply Forall_app |].
  split; [lia |].
  split; [intros l Hl; rewrite Hp2 by lia; now apply Hp1 |].
  unfold view. simpl. f_equal; [| exact Hc2].
  rewrite <- Hc1. apply map_ext_in. intros l' Hin. apply Hp2.
  apply lookup_lt_is_Some_1.
  assert (Hl' : In (heap s1 !! l') (map (fun l => heap s1 !! l) bs))
    by (apply in_map_iff; eauto).
  rewrite Hc1 in Hl'. apply in_map_iff in Hl' as (l & El & Hl).
  rewrite <- El. apply lookup_lt_is_Some_2.
  rewrite Forall_forall in Hvr. apply Hvr. now apply list_elem_of_In.
Qed.

Lemma logs_copies (s : state) :
  Forall (fun l => (l < List.length (heap s))%nat)
    (agg_logs (braidagg (self s))) ->
  exists (ls : list loc) (s' : state),
    MarkovChain.logs s = (Ok ls, s')
    /\ self s' = self s
    /\ Forall (fun l => (List.length (heap s) <= l)%nat) ls
    /\ (forall l, (l < List.length (heap s))%nat ->
          heap s' !! l = heap s !! l)
    /\ map (fun l => heap s' !! l) ls
       = map (fun l => heap s !! l) (agg_logs (braidagg (self s))).
Proof.
  intros Hv. unfold MarkovChain.logs.
  rewrite (bind_ok _ _ _ _ _ (eq_refl : gets _ s = _)).
  destruct (deepcopy_list_ok (heap s) _ ∅ s Hv (fun _ _ => eq_refl)
              (memo_ok_empty _ _))
    as (ls & memo & s1 & E1 & Hs1 & Hp1 & Hz1 & Hm1 & Hf1 & Hc1).
  rewrite (bind_ok _ _ _ _ _ E1).
  exists ls, s1. split_and!; auto.
Qed.

Lemma map_lookup_agree (h h' : list obj) (ls : list loc) :
  (forall l, l ∈ ls -> h' !! l = h !! l) ->
  map (fun l => h' !! l) ls = map (fun l => h !! l) ls.
Proof.
  intros H. apply map_ext_in. intros l Hl. apply H. now apply list_elem_of_In.
Qed.

(** Whatever a caller does to the objects [aggregate] returned, a second
    call returns objects holding what the first ones held. *)
Lemma aggregate_isolated (s : state) :
  Forall (fun l => (l < List.length (heap s))%nat) (refs (braidagg (self s))) ->
  exists (a : braidagg_t) (s1 : state),
    MarkovChain.aggregate s = (Ok a, s1)
    /\ forall h' : list obj,
         touched_only (refs a) (heap s1) h' ->
         exists (a' : braidagg_t) (s2 : state),
           MarkovChain.aggregate (set_heap (fun _ => h') s1) = (Ok a', s2)
           /\ view (heap s2) a' = view (heap s1) a.
Proof.
  intros Hv.
  destruct (aggregate_copies s Hv) as (a & s1 & E & Hs & Hf & Hz & Hp & Hc).
  exists a, s1. split; [exact E |]. intros h' Ht.
  assert (Hold : forall l, (l < List.length (heap s))%nat ->
            h' !! l = heap s !! l).
  { intros l Hl. rewrite <- (Hp l Hl). apply Ht; [lia |].
    intros Hin. rewrite Forall_forall in Hf. specialize (Hf l Hin). lia. }
  rewrite Forall_forall in Hv.
  assert (Hv' : Forall (fun l => (l < List.length h')%nat)
                  (refs (braidagg (self s)))).
  { apply Forall_forall. intros l Hl.
    apply lookup_lt_is_Some_1. rewrite Hold by auto.
    apply lookup_lt_is_Some_2. auto. }
  destruct (aggregate_copies (set_heap (fun _ => h') s1))
    as (a' & s2 & E' & _ & _ & _ & _ & Hc').
  { simpl. now rewrite Hs. }
  exists a', s2. split; [exact E' |].
  rewrite Hc', Hc. simpl. rewrite Hs. unfold view.
  f_equal; apply map_lookup_agree; intros l Hl; apply Hold, Hv;
    unfold refs; set_solver.
Qed.

Lemma logs_isolated (s : state) :
  Forall (fun l => (l < List.length (heap s))%nat)
    (agg_logs (braidagg (self s))) ->
  exists (ls : list loc) (s1 : state),
    MarkovChain.logs s = (Ok ls, s1)
    /\ forall h' : list obj,
         touched_only ls (heap s1) h' ->
         exists (ls' : list loc) (s2 : state),
           MarkovChain.logs (set_heap (fun _ => h') s1) = (Ok ls', s2)
           /\ map (fun l => heap s2 !! l) ls'
              = map (fun l => heap s1 !! l) ls.
Proof.
  intros Hv.
  destruct (logs_copies s Hv) as (ls & s1 & E & Hs & Hf & Hp & Hc).
  exists ls, s1. split; [exact E |]. intros h' Ht.
  assert (Hz : (List.length (heap s) <= List.length (heap s1))%nat).
  { destruct (decide (List.length (heap s) <= List.length (heap s1))%nat);
      [assumption |].
    assert (Hx : (List.length (heap s1) < List.length (heap s))%nat) by lia.
    pose proof (Hp _ Hx) as Hy.
    rewrite (lookup_ge_None_2 (heap s1)) in Hy by lia.
    symmetry in Hy. apply lookup_ge_None_1 in Hy. lia. }
  assert (Hold : forall l, (l < List.length (heap s))%nat ->
            h' !! l = heap s !! l).
  { intros l Hl. rewrite <- (Hp l Hl). apply Ht; [lia |].
    intros Hin. rewrite Forall_forall in Hf. specialize (Hf l Hin). lia. }
  rewrite Forall_forall in Hv.
  destruct (logs_copies (set_heap (fun _ => h') s1))
    as (ls' & s2 & E' & _ & _ & _ & Hc').
  { simpl. rewrite Hs. apply Forall_forall. intros l Hl.
    apply lookup_lt_is_Some_1. rewrite Hold by auto.
    apply lookup_lt_is_Some_2. auto. }
  exists ls', s2. split; [exact E' |].
  rewrite Hc', Hc. simpl. rewrite Hs.
  apply map_lookup_agree. intros l Hl. apply Hold, Hv, Hl.
Qed.

(** [braidreps] hands out the engine's own references. *)
Lemma braidreps_objects (s : state) :
  MarkovChain.braidreps false s
  = (Ok (map RObj (agg_braidreps (braidagg (self s)))), s).
Proof. reflexivity. Qed.

(** C1 (fails for [braidreps]): on the engine of the class docstring after
    [model(1, 0)], the snapshot holds [[1, 2, 3]]; a caller that overwrites
    the first element of what [braidreps] returned, words or BraidWords,
    finds [[7, 2, 3]] at the next call of [braidreps], while the same
    caller with [aggregate] finds [[1, 2, 3]] again. *)
Theorem braidreps_shares_snapshots (moves : BraidWord.Moves) :
  let s := (MarkovChain.model 1 0 (example_engine (seed_of []))).2 in
  (contents (map RObj (agg_braidreps (braidagg (self s)))) s).1
    = Ok [[1; 2; 3]]
  /\ (braidreps_twice true 7 s).1 = Ok ([[1; 2; 3]], [[7; 2; 3]])
  /\ (braidreps_twice false 7 s).1 = Ok ([[1; 2; 3]], [[7; 2; 3]])
  /\ (aggregate_twice 7 s).1 = Ok ([[1; 2; 3]], [[1; 2; 3]]).
Proof. repeat split. Qed.

(** C3 (fails): on the engine of the class docstring, with a seed whose
    first draws are 2, 0 and 0, the iteration calls [insert(0, 0)]: the
    generator handed to [insert] is 0, whatever the moves do; with the
    moves of the specification the word becomes [[0, 0, 1, 2, 3]]. *)
Theorem insert_receives_generator_zero :
  (forall moves : BraidWord.Moves,
     let s := example_trial (seed_of [2; 0; 0]) in
     MarkovChain.model_step 0%nat 1%nat 0 s
     = (let* ok := MarkovChain.invoke 0%nat (Insert 0 0) in
        setitem 1%nat 0 (MarkovChain.log_message 2 "insert" ok))
         (emit (LDraw 4 0) (advance (drawn 3 s))))
  /\ (let s := example_engine (seed_of [2; 0; 0]) in
      let s' := (MarkovChain.model (moves := SpecMoves.moves) 1 1 s).2 in
      history s'
      = [LDraw 7 2; LDraw 3 0; LDraw 4 0; LCall 0%nat (Insert 0 0)]
      /\ (contents (map RObj (agg_braidreps (braidagg (self s')))) s').1
         = Ok [[0; 0; 1; 2; 3]]).
Proof.
  split.
  - intros moves s.
    apply (insert_generator_range s 0%nat 1%nat 0 {| word := [1; 2; 3] |});
      [reflexivity | discriminate | reflexivity | vm_compute; discriminate].
  - split; reflexivity.
Qed.

(** ** The examples of the specification *)

(** [model(1, 0)] on the engine of the class docstring: one snapshot
    [[1, 2, 3]] and one empty log. *)
Example model_zero_steps (moves : BraidWord.Moves) :
  let s := (MarkovChain.model 1 0 (example_engine (seed_of []))).2 in
  braidagg (self s) = {| agg_braidreps := [2%nat]; agg_logs := [1%nat] |}
  /\ heap s !! 2%nat = Some (OBraidWord {| word := [1; 2; 3] |})
  /\ heap s !! 1%nat = Some (ODict ∅).
Proof. repeat split. Qed.

(** Cancel on a word of length 4, at an inverse pair and elsewhere. *)
Example cancel_length_four :
  SpecMoves.cancel {| word := [1; 2; -2; 3] |} 1
    = RRet (true, {| word := [1; 3] |})
  /\ SpecMoves.cancel {| word := [1; 2; -2; 3] |} 0
    = RRet (false, {| word := [1; 2; -2; 3] |}).
Proof. split; reflexivity. Qed.

(** ** The statements at concrete inputs *)

Lemma unknot_guards_skip_witness :
  exists (s' : state) (name : string),
    MarkovChain.model_step (moves := SpecMoves.moves) 0%nat 1%nat 4
      (unknot_trial (seed_of [1; 0])) = (Ok tt, s')
    /\ name = "cancel"%string
    /\ heap s' !! 0%nat = Some (OBraidWord {| word := [1; -1] |})
    /\ heap s' !! 1%nat
       = Some (ODict (<[4 := MarkovChain.log_message 1 name false
                              +:+ "Unknot"]> ∅))
    /\ history s' = [LDraw 7 1; LDraw 2 0]
    /\ self s' = self (unknot_trial (seed_of [1; 0])).
Proof.
  apply (unknot_guards_skip (moves := SpecMoves.moves)
           (unknot_trial (seed_of [1; 0])) 0%nat 1%nat 4
           {| word := [1; -1] |} ∅);
    [reflexivity | reflexivity | left; repeat split; reflexivity].
Defined.

(** The guard of Stabilize at concrete inputs: the word [[1, 2, 3]] is
    refused under [maxlen = 3], refused under [maxgen = 3], and stabilised
    to [[1, 2, 3, 4]] under the bounds of the example. *)
Lemma stabilize_guard_witness :
  (exists s' : state,
     MarkovChain.model_step (moves := SpecMoves.moves) 0%nat 1%nat 0
       (bounded_trial 9 3 (seed_of [5; 1])) = (Ok tt, s')
     /\ s' = logged 1%nat 0 (MarkovChain.log_message 5 "stabilize" false) ∅
               (drawn 3 (bounded_trial 9 3 (seed_of [5; 1])))
     /\ heap s' !! 0%nat = Some (OBraidWord {| word := [1; 2; 3] |})
     /\ history s' = [LDraw 7 5; LDraw 3 1])
  /\ (exists s' : state,
        MarkovChain.model_step (moves := SpecMoves.moves) 0%nat 1%nat 0
          (bounded_trial 3 10 (seed_of [5; 1])) = (Ok tt, s')
        /\ s' = logged 1%nat 0 (MarkovChain.log_message 5 "stabilize" false)
                  ∅ (drawn 3 (bounded_trial 3 10 (seed_of [5; 1])))
        /\ heap s' !! 0%nat = Some (OBraidWord {| word := [1; 2; 3] |})
        /\ history s' = [LDraw 7 5; LDraw 3 1])
  /\ (exists (s' : state) (draws : list label),
        MarkovChain.model_step (moves := SpecMoves.moves) 0%nat 1%nat 0
          (bounded_trial 9 10 (seed_of [5; 1; 0])) = (Ok tt, s')
        /\ self s' = self (bounded_trial 9 10 (seed_of [5; 1; 0]))
        /\ heap s' !! 0%nat = Some (OBraidWord {| word := [1; 2; 3; 4] |})
        /\ heap s' !! 1%nat
           = Some (ODict (<[0 := MarkovChain.log_message 5 "stabilize" true]>
                            ∅))
        /\ history s'
           = [LDraw 7 5; LDraw 3 1; LCall 0%nat Stabilize] ++ draws
        /\ Forall is_draw draws).
Proof.
  split_and!.
  - apply (stabilize_guard (moves := SpecMoves.moves)
             (bounded_trial 9 3 (seed_of [5; 1])) 0%nat 1%nat 0
             {| word := [1; 2; 3] |} ∅);
      [reflexivity | reflexivity | discriminate | reflexivity |].
    left. vm_compute. reflexivity.
  - apply (stabilize_guard (moves := SpecMoves.moves)
             (bounded_trial 3 10 (seed_of [5; 1])) 0%nat 1%nat 0
             {| word := [1; 2; 3] |} ∅);
      [reflexivity | reflexivity | discriminate | reflexivity |].
    right. vm_compute. reflexivity.
  - apply (stabilize_guard (moves := SpecMoves.moves)
             (bounded_trial 9 10 (seed_of [5; 1; 0])) 0%nat 1%nat 0
             {| word := [1; 2; 3] |} ∅);
      [reflexivity | reflexivity | discriminate | reflexivity
      | vm_compute; discriminate | vm_compute; discriminate].
Defined.

(** The bound as the specification words it does not hold: under
    [maxlen = 4] the word [[1, 2, 3]] stabilised would have length 4, which
    exceeds [maxlen - 1], and yet the step calls [stabilize], the word
    becomes [[1, 2, 3, 4]] and the log records a success. *)
Lemma stabilize_reaches_maxlen :
  let s := bounded_trial 9 4 (seed_of [5; 1; 0]) in
  maxlen (self s) - 1 < BraidWord.length {| word := [1; 2; 3] |} + 1
  /\ heap s !! 0%nat = Some (OBraidWord {| word := [1; 2; 3] |})
  /\ exists s' : state,
       MarkovChain.model_step (moves := SpecMoves.moves) 0%nat 1%nat 0 s
       = (Ok tt, s')
       /\ heap s' !! 0%nat = Some (OBraidWord {| word := [1; 2; 3; 4] |})
       /\ heap s' !! 0%nat <> Some (OBraidWord {| word := [1; 2; 3] |})
       /\ heap s' !! 1%nat
          = Some (ODict (<[0 := MarkovChain.log_message 5 "stabilize" true]>
                           ∅))
       /\ history s'
          = [LDraw 7 5; LDraw 3 1; LCall 0%nat Stabilize; LDraw 2 0].
Proof.
  split; [vm_compute; reflexivity |]. split; [reflexivity |].
  eexists. split; [vm_compute; reflexivity |].
  split_and!; [reflexivity | discriminate | reflexivity | reflexivity].
Qed.

Lemma model_aggregate_shape_witness :
  exists (s' : state) (reps logs : list loc),
    MarkovChain.model (moves := SpecMoves.moves) 2 3
      (example_engine (seed_of [2; 0; 0; 5; 1; 1; 1; 0; 6; 0; 4; 1])) =
    (Ok tt, s')
    /\ agg_braidreps (braidagg (self s')) = [] ++ reps
    /\ agg_logs (braidagg (self s')) = [] ++ logs
    /\ List.length reps = 2%nat
    /\ List.length logs = 2%nat
    /\ Forall (fun l => exists w, heap s' !! l = Some (OBraidWord w)) reps
    /\ Forall (fun l => exists d,
                 heap s' !! l = Some (ODict d)
                 /\ (size d <= 3)%nat
                 /\ keys_below 3 d) logs.
Proof.
  apply (model_aggregate_shape (moves := SpecMoves.moves)
           spec_moves_keep_nonempty 2 3 {| word := [1; 2; 3] |}
           (example_engine
              (seed_of [2; 0; 0; 5; 1; 1; 1; 0; 6; 0; 4; 1])));
    [reflexivity | discriminate].
Defined.

Lemma every_step_logged_witness :
  let s := example_engine (seed_of [6; 0; 4; 1; 3; 2; 0; 1]) in
  (0 <= 6 <= 6
   /\ rr 7 s = (Ok 6, emit (LDraw 7 6) (advance s))
   /\ forall (log : loc) (step : Z),
        MarkovChain.model_step (moves := SpecMoves.moves) 0%nat log step s
        = MarkovChain.dispatch (moves := SpecMoves.moves) 0%nat log step
            6 0 (drawn 3 s))
  /\ exists (s' : state) (logs : list loc),
       MarkovChain.model (moves := SpecMoves.moves) 2 2 s = (Ok tt, s')
       /\ agg_logs (braidagg (self s')) = [] ++ logs
       /\ List.length logs = 2%nat
       /\ Forall (fun l => exists d,
                    heap s' !! l = Some (ODict d)
                    /\ keys_exactly 2 d) logs.
Proof.
  apply (every_step_logged (moves := SpecMoves.moves)
           spec_moves_keep_nonempty 2 2 {| word := [1; 2; 3] |}
           (example_engine (seed_of [6; 0; 4; 1; 3; 2; 0; 1])));
    [reflexivity | discriminate].
Defined.

Lemma model_deterministic_witness :
  let s1 := example_engine (seed_of [5; 1; 0; 0; 2]) in
  let s2 := example_cleared (seed_of [9; 5; 1; 0; 0; 2]) in
  let run1 := MarkovChain.model (moves := SpecMoves.moves) 1 2 s1 in
  let run2 := MarkovChain.model (moves := SpecMoves.moves) 1 2 s2 in
  run1.1 = run2.1
  /\ (exists t1 t2 : list label,
        history run1.2 = history s1 ++ t1
        /\ history run2.2 = history s2 ++ t2
        /\ map event_of t1 = map event_of t2)
  /\ (exists (reps1 reps2 logs1 logs2 : list loc) (snapshots entries : list obj),
        agg_braidreps (braidagg (self run1.2))
        = agg_braidreps (braidagg (self s1)) ++ reps1
        /\ agg_braidreps (braidagg (self run2.2))
           = agg_braidreps (braidagg (self s2)) ++ reps2
        /\ agg_logs (braidagg (self run1.2))
           = agg_logs (braidagg (self s1)) ++ logs1
        /\ agg_logs (braidagg (self run2.2))
           = agg_logs (braidagg (self s2)) ++ logs2
        /\ Forall2 (fun l o => heap run1.2 !! l = Some o) reps1 snapshots
        /\ Forall2 (fun l o => heap run2.2 !! l = Some o) reps2 snapshots
        /\ Forall2 (fun l o => heap run1.2 !! l = Some o) logs1 entries
        /\ Forall2 (fun l o => heap run2.2 !! l = Some o) logs2 entries)
  /\ (exists o : obj,
        heap run1.2 !! braid (self run1.2) = Some o
        /\ heap run2.2 !! braid (self run2.2) = Some o)
  /\ same_seed run1.2 run2.2.
Proof.
  apply (model_deterministic (moves := SpecMoves.moves) 1 2
           {| word := [1; 2; 3] |}
           (example_engine (seed_of [5; 1; 0; 0; 2]))
           (example_cleared (seed_of [9; 5; 1; 0; 0; 2])));
    [reflexivity | reflexivity | reflexivity | reflexivity |].
  intros i. do 5 (destruct i as [|i]; [reflexivity |]).
  destruct i; reflexivity.
Defined.

(** * Further results *)

(** ** The aggregate is only appended to *)

Lemma appends_only_ret {A : Type} (a : A) : appends_only (ret a).
Proof. intros p q s. reflexivity. Qed.

Lemma appends_only_raise {A : Type} (e : exn) :
  appends_only (raise (A := A) e).
Proof. intros p q s. reflexivity. Qed.

Lemma appends_only_bind {A B : Type} (m : M A) (k : A -> M B) :
  appends_only m -> (forall a, appends_only (k a)) -> appends_only (bind m k).
Proof.
  intros Hm Hk p q s. unfold bind. rewrite (Hm p q s).
  destruct (m s) as [[a | e] s']; simpl; [apply Hk | reflexivity].
Qed.

Lemma appends_only_rr (n : Z) : appends_only (rr n).
Proof. intros p q s. unfold rr. destruct (n <=? 0); reflexivity. Qed.

Lemma appends_only_sample {A : Type} (t : rand A) : appends_only (sample t).
Proof.
  induction t as [a | n k IH]; simpl.
  - apply appends_only_ret.
  - apply appends_only_bind; [apply appends_only_rr | exact IH].
Qed.

Lemma appends_only_alloc (o : obj) : appends_only (alloc o).
Proof. intros p q s. reflexivity. Qed.

Lemma appends_only_load (l : loc) : appends_only (load l).
Proof.
  intros p q s. unfold load. simpl. destruct (heap s !! l); reflexivity.
Qed.

Lemma appends_only_store (l : loc) (o : obj) : appends_only (store l o).
Proof. intros p q s. reflexivity. Qed.

Lemma appends_only_emit (x : label) : appends_only (modify (emit x)).
Proof. intros p q s. reflexivity. Qed.

(** Reading a field of the engine other than the aggregate. *)
Lemma appends_only_field {A : Type} (f : MarkovChain -> A) :
  (forall a m, f (with_braidagg a m) = f m) ->
  appends_only (gets (fun s => f (self s))).
Proof. intros Hf p q s. unfold gets. simpl. now rewrite Hf. Qed.

Lemma appends_only_record_braidrep (l : loc) :
  appends_only
    (modify (set_self (fun m =>
       with_braidagg
         {| agg_braidreps := agg_braidreps (braidagg m) ++ [l];
            agg_logs := agg_logs (braidagg m) |} m))).
Proof.
  intros p q s. unfold modify, prepend, set_self, with_braidagg. simpl.
  now rewrite app_assoc.
Qed.

Lemma appends_only_record_log (l : loc) :
  appends_only
    (modify (set_self (fun m =>
       with_braidagg
         {| agg_braidreps := agg_braidreps (braidagg m);
            agg_logs := agg_logs (braidagg m) ++ [l] |} m))).
Proof.
  intros p q s. unfold modify, prepend, set_self, with_braidagg. simpl.
  now rewrite app_assoc.
Qed.

Lemma appends_only_for_range (n : nat) (body : Z -> M unit) :
  (forall i, appends_only (body i)) ->
  forall i, appends_only (for_range n i body).
Proof.
  intros Hb. induction n as [|n IH]; intros i; simpl.
  - apply appends_only_ret.
  - apply appends_only_bind; [apply Hb | intros _; apply IH].
Qed.

Create HintDb appends.
#[local] Hint Resolve appends_only_ret appends_only_raise appends_only_rr
  appends_only_sample appends_only_alloc appends_only_load
  appends_only_store appends_only_emit appends_only_record_braidrep
  appends_only_record_log : appends.

Ltac appends_tac :=
  repeat first
    [ progress intros
    | solve [auto with appends]
    | apply appends_only_field; reflexivity
    | apply appends_only_bind
    | match goal with
      | |- appends_only (if ?c then _ else _) => destruct c
      | |- appends_only (match ?x with _ => _ end) => destruct x
      end ].

Lemma appends_only_as_braid (l : loc) : appends_only (as_braid l).
Proof. unfold as_braid. appends_tac. Qed.

Lemma appends_only_deepcopy (l : loc) : appends_only (deepcopy l).
Proof. unfold deepcopy. appends_tac. Qed.

Lemma appends_only_setitem (l : loc) (k : Z) (v : string) :
  appends_only (setitem l k v).
Proof. unfold setitem. appends_tac. Qed.

Lemma appends_only_getitem (l : loc) (k : Z) : appends_only (getitem l k).
Proof. unfold getitem. appends_tac. Qed.

#[local] Hint Resolve appends_only_as_braid appends_only_deepcopy
  appends_only_setitem appends_only_getitem : appends.

Section AppendsOnly.
Context {moves : BraidWord.Moves}.

Lemma appends_only_invoke (braid : loc) (c : call) :
  appends_only (MarkovChain.invoke braid c).
Proof. unfold MarkovChain.invoke. appends_tac. Qed.

Lemma appends_only_length (braid : loc) :
  appends_only (MarkovChain.length_ braid).
Proof. unfold MarkovChain.length_. appends_tac. Qed.

Lemma appends_only_largestGenerator (braid : loc) :
  appends_only (MarkovChain.largestGenerator_ braid).
Proof. unfold MarkovChain.largestGenerator_. appends_tac. Qed.

Lemma appends_only_canCancel (braid : loc) (index : Z) :
  appends_only (MarkovChain.canCancel_ braid index).
Proof. unfold MarkovChain.canCancel_. appends_tac. Qed.

Lemma appends_only_canDestabilize (braid : loc) :
  appends_only (MarkovChain.canDestabilize_ braid).
Proof. unfold MarkovChain.canDestabilize_. appends_tac. Qed.

#[local] Hint Resolve appends_only_invoke appends_only_length
  appends_only_largestGenerator appends_only_canCancel
  appends_only_canDestabilize : appends.

Lemma appends_only_dispatch (braid log : loc) (step movetype index : Z) :
  appends_only (MarkovChain.dispatch braid log step movetype index).
Proof. unfold MarkovChain.dispatch, and_then. appends_tac. Qed.

Lemma appends_only_model_step (braid log : loc) (step : Z) :
  appends_only (MarkovChain.model_step braid log step).
Proof.
  unfold MarkovChain.model_step.
  repeat first [progress intros | solve [auto with appends]
               | apply appends_only_dispatch | apply appends_only_bind].
Qed.

Lemma appends_only_model_trial (msteps : Z) :
  appends_only (MarkovChain.model_trial msteps).
Proof.
  unfold MarkovChain.model_trial, for_in_range.
  repeat first
    [ progress intros
    | solve [auto with appends]
    | apply appends_only_field; reflexivity
    | apply appends_only_for_range
    | apply appends_only_model_step
    | apply appends_only_bind ].
Qed.

Lemma prepend_cleared (s : state) :
  prepend (agg_braidreps (braidagg (self s))) (agg_logs (braidagg (self s)))
    (MarkovChain.clear_model s).2 = s.
Proof.
  destruct s as [[b g n [r l]] h t p y].
  unfold prepend, set_self, with_braidagg. simpl. now rewrite !app_nil_r.
Qed.

(** X1: [model] never reads what the aggregate holds and only appends to
    it.  Entries put in front of the two lists beforehand are found in
    front afterwards and change neither the outcome nor anything else in
    the world; so a run on an engine with earlier results is the run on
    the engine after [clear_model], with the earlier results in front of
    what it appended. *)
Theorem model_appends_only (num_braidreps msteps : Z) (p q : list loc)
  (s : state) :
  MarkovChain.model num_braidreps msteps (prepend p q s)
  = ((MarkovChain.model num_braidreps msteps s).1,
     prepend p q (MarkovChain.model num_braidreps msteps s).2)
  /\ MarkovChain.model num_braidreps msteps s
     = (let cleared :=
          MarkovChain.model num_braidreps msteps
            (MarkovChain.clear_model s).2 in
        (cleared.1,
         prepend (agg_braidreps (braidagg (self s)))
           (agg_logs (braidagg (self s))) cleared.2)).
Proof.
  assert (H : appends_only (MarkovChain.model num_braidreps msteps)).
  { unfold MarkovChain.model, for_in_range. apply appends_only_for_range.
    intros _. apply appends_only_model_trial. }
  split; [apply H |].
  cbv zeta. rewrite <- H. now rewrite prepend_cleared.
Qed.

End AppendsOnly.

(** ** Degenerate arguments of [model] *)

Section Degenerate.
Context {moves : BraidWord.Moves}.

Lemma model_trial_without_steps (msteps : Z) (b : BraidWord) (s : state) :
  msteps <= 0 -> working_word s b ->
  MarkovChain.model_trial msteps s
  = (Ok tt,
     set_self (fun m =>
       with_braidagg
         {| agg_braidreps := agg_braidreps (braidagg m);
            agg_logs := agg_logs (braidagg m) ++ [List.length (heap s)] |} m)
       (set_self (fun m =>
          with_braidagg
            {| agg_braidreps :=
                 agg_braidreps (braidagg m) ++ [S (List.length (heap s))];
               agg_logs := agg_logs (braidagg m) |} m)
          (set_heap (fun h => h ++ [ODict ∅; OBraidWord b]) s))).
Proof.
  intros HM Hw. unfold working_word in Hw.
  assert (Hlt : (braid (self s) < List.length (heap s))%nat)
    by (eapply lookup_lt_Some; eauto).
  unfold MarkovChain.model_trial, for_in_range.
  replace (Z.to_nat msteps) with 0%nat by lia. simpl for_range.
  unfold bind, gets, alloc, deepcopy, bind, load, alloc, ret, modify. simpl.
  rewrite lookup_app_l by exact Hlt. rewrite Hw. simpl.
  unfold set_self, set_heap. simpl.
  rewrite length_app. simpl.
  replace (List.length (heap s) + 1)%nat with (S (List.length (heap s)))
    by lia.
  now rewrite <- app_assoc.
Qed.

Lemma trials_without_steps (msteps : Z) (b : BraidWord) (n : nat) :
  msteps <= 0 ->
  forall (i : Z) (s : state),
    working_word s b ->
    exists (s' : state) (reps logs : list loc) (ext : list obj),
      for_range n i (fun _ => MarkovChain.model_trial msteps) s = (Ok tt, s')
      /\ heap s' = heap s ++ ext
      /\ history s' = history s /\ pos s' = pos s
      /\ braid (self s') = braid (self s)
      /\ maxgen (self s') = maxgen (self s)
      /\ maxlen (self s') = maxlen (self s)
      /\ agg_braidreps (braidagg (self s'))
         = agg_braidreps (braidagg (self s)) ++ reps
      /\ agg_logs (braidagg (self s'))
         = agg_logs (braidagg (self s)) ++ logs
      /\ List.length reps = n /\ List.length logs = n
      /\ Forall (fun l => heap s' !! l = Some (OBraidWord b)) reps
      /\ Forall (fun l => heap s' !! l = Some (ODict ∅)) logs.
Proof.
  intros HM. induction n as [|n IH]; intros i s Hw.
  - exists s, [], [], []. simpl. rewrite !app_nil_r. split_and!; auto.
  - simpl for_range.
    rewrite (bind_ok _ _ _ _ _ (model_trial_without_steps msteps b s HM Hw)).
    set (s1 := set_self _ (set_self _ (set_heap _ s))).
    assert (Hw1 : working_word s1 b).
    { unfold working_word, s1. simpl. rewrite lookup_app_l; [exact Hw |].
      eapply lookup_lt_Some; exact Hw. }
    destruct (IH (i + 1) s1 Hw1)
      as (s' & reps & logs & ext & E & Hh & Hy & Hp & Hb & Hg & Hl & Hr & Hlg
          & Hnr & Hnl & Hfr & Hfl).
    exists s', (S (List.length (heap s)) :: reps),
      (List.length (heap s) :: logs), ([ODict ∅; OBraidWord b] ++ ext).
    split; [exact E |].
    assert (Hh' : heap s' = heap s ++ [ODict ∅; OBraidWord b] ++ ext).
    { rewrite Hh. unfold s1. simpl. now rewrite <- app_assoc. }
    split; [exact Hh' |].
    split; [exact Hy |]. split; [exact Hp |]. split; [exact Hb |].
    split; [exact Hg |]. split; [exact Hl |].
    split; [rewrite Hr; unfold s1; simpl; now rewrite <- app_assoc |].
    split; [rewrite Hlg; unfold s1; simpl; now rewrite <- app_assoc |].
    split; [simpl; now rewrite Hnr |]. split; [simpl; now rewrite Hnl |].
    split.
    + constructor; [| exact Hfr]. rewrite Hh'.
      rewrite lookup_app_r by lia.
      replace (S (List.length (heap s)) - List.length (heap s))%nat
        with 1%nat by lia. reflexivity.
    + constructor; [| exact Hfl]. rewrite Hh'.
      rewrite lookup_app_r by lia.
      replace (List.length (heap s) - List.length (heap s))%nat
        with 0%nat by lia. reflexivity.
Qed.

(** X2: with [msteps <= 0] no iteration runs.  [model] returns normally
    whatever the moves are and whatever the working word is, the empty word
    included; it draws nothing and calls no move; each of the
    [num_braidreps] trials appends a copy of the working word as it stands
    and an empty log. *)
Theorem model_without_steps (num_braidreps msteps : Z) (b : BraidWord)
  (s : state) :
  msteps <= 0 -> working_word s b ->
  exists (s' : state) (reps logs : list loc),
    MarkovChain.model num_braidreps msteps s = (Ok tt, s')
    /\ history s' = history s /\ pos s' = pos s
    /\ working_word s' b
    /\ agg_braidreps (braidagg (self s'))
       = agg_braidreps (braidagg (self s)) ++ reps
    /\ agg_logs (braidagg (self s'))
       = agg_logs (braidagg (self s)) ++ logs
    /\ List.length reps = Z.to_nat num_braidreps
    /\ List.length logs = Z.to_nat num_braidreps
    /\ Forall (fun l => heap s' !! l = Some (OBraidWord b)) reps
    /\ Forall (fun l => heap s' !! l = Some (ODict ∅)) logs.
Proof.
  intros HM Hw.
  destruct (trials_without_steps msteps b (Z.to_nat num_braidreps) HM 0 s Hw)
    as (s' & reps & logs & ext & E & Hh & Hy & Hp & Hb & Hg & Hl & Hr & Hlg
        & Hnr & Hnl & Hfr & Hfl).
  exists s', reps, logs. split_and!; try assumption.
  unfold working_word. rewrite Hb, Hh. rewrite lookup_app_l; [exact Hw |].
  eapply lookup_lt_Some; exact Hw.
Qed.

(** X3: on an empty working word, with at least one trial and one step to
    run, [model] raises [ValueError] at the first draw of an index, which is
    [randrange(0)]: the move type has been drawn, the log of the trial is
    in the store, and the aggregate has received nothing. *)
Theorem model_raises_on_empty_word (num_braidreps msteps : Z)
  (b : BraidWord) (s : state) :
  working_word s b -> word b = [] -> 0 < num_braidreps -> 0 < msteps ->
  MarkovChain.model num_braidreps msteps s
  = (Raised ValueError,
     emit (LDraw 7 (tape s (pos s) mod 7))
       (advance (set_heap (fun h => h ++ [ODict ∅]) s))).
Proof.
  intros Hw He HN HM. unfold MarkovChain.model, for_in_range.
  destruct (Z.to_nat num_braidreps) as [|n] eqn:En; [lia |].
  simpl for_range.
  apply bind_raised. unfold MarkovChain.model_trial.
  rewrite (bind_ok _ _ _ _ _ (eq_refl : gets _ s = _)).
  rewrite (bind_ok _ _ _ _ _ (eq_refl : alloc _ s = _)).
  apply bind_raised. unfold for_in_range.
  destruct (Z.to_nat msteps) as [|m] eqn:Em; [lia |].
  simpl for_range. apply bind_raised.
  assert (Hw1 : heap (set_heap (fun h => h ++ [ODict ∅]) s) !! braid (self s)
                = Some (OBraidWord b)).
  { simpl. rewrite lookup_app_l; [exact Hw |].
    eapply lookup_lt_Some. exact Hw. }
  exact (model_step_on_empty_word _ _ _ b _ Hw1 He).
Qed.

End Degenerate.

(** ** Properties of words kept by the permitted calls *)

Lemma entries_ok_empty : entries_ok ∅.
Proof. intros k msg. rewrite lookup_empty. discriminate. Qed.

Lemma entries_ok_insert (d : gmap Z string) (k movetype : Z) (msg : string) :
  entries_ok d -> 0 <= movetype <= 6 -> entry_of movetype msg ->
  entries_ok (<[k := msg]> d).
Proof.
  intros Hd Hm He k' msg'. rewrite lookup_insert. case_decide.
  - intros [= <-]. eauto.
  - apply Hd.
Qed.

Lemma recorded_refl (P : BraidWord -> Prop) (E : gmap Z string -> Prop)
  (s : state) :
  recorded P E s s [] [].
Proof. constructor; simpl; rewrite ?app_nil_r; auto. Qed.

Lemma recorded_trans (P : BraidWord -> Prop) (E : gmap Z string -> Prop)
  (s s1 s2 : state) (r1 r2 l1 l2 : list loc) :
  (braid (self s) < List.length (heap s))%nat ->
  recorded P E s s1 r1 l1 -> recorded P E s1 s2 r2 l2 ->
  recorded P E s s2 (r1 ++ r2) (l1 ++ l2).
Proof.
  intros Hlt [Hb1 Hg1 Hl1 Hr1 Hlg1 Hn1 Hs1 He1 Hf1 Hz1]
    [Hb2 Hg2 Hl2 Hr2 Hlg2 Hn2 Hs2 He2 Hf2 Hz2].
  apply Forall_app in Hn1 as [Hn1r Hn1l].
  apply Forall_app in Hn2 as [Hn2r Hn2l].
  assert (Hkeep : forall l o, (List.length (heap s) <= l)%nat ->
            heap s1 !! l = Some o -> heap s2 !! l = Some o).
  { intros l o Hl Ho. rewrite Hf2; [exact Ho | |].
    - eapply lookup_lt_Some; eauto.
    - rewrite Hb1. lia. }
  constructor.
  - congruence.
  - congruence.
  - congruence.
  - rewrite Hr2, Hr1. now rewrite app_assoc.
  - rewrite Hlg2, Hlg1. now rewrite app_assoc.
  - repeat rewrite Forall_app. repeat split; try assumption.
    + eapply Forall_impl; [exact Hn2r |]. simpl. intros; lia.
    + eapply Forall_impl; [exact Hn2l |]. simpl. intros; lia.
  - apply Forall_app. split; [| exact Hs2].
    rewrite Forall_forall in Hs1, Hn1r |- *. intros l Hl.
    destruct (Hs1 l Hl) as (w & Hw & HP). exists w. split; [| exact HP].
    apply Hkeep; auto.
  - apply Forall_app. split; [| exact He2].
    rewrite Forall_forall in He1, Hn1l |- *. intros l Hl.
    destruct (He1 l Hl) as (d & Hd & Hk). exists d. split; [| exact Hk].
    apply Hkeep; auto.
  - intros l Hl Hne. rewrite Hf2; [now apply Hf1 | lia | congruence].
  - lia.
Qed.

Section Kept.
Context {moves : BraidWord.Moves}.
Variables (s0 : state) (braid log : loc).
Variable P : BraidWord -> Prop.
Hypothesis P_nonempty : forall b, P b -> word b <> [].
Hypothesis P_kept : kept_by_moves (self s0) P.

Lemma wp_invoke_kept (b : BraidWord) (d : gmap Z string) (c : call)
  (Q : bool -> state -> Prop) (s : state) :
  stepping s0 braid log b d s -> P b -> permitted (self s0) b c ->
  (forall ok b' s', stepping s0 braid log b' d s' -> P b' -> Q ok s') ->
  wp (MarkovChain.invoke braid c) Q s.
Proof.
  intros Hs HP Hc HQ. unfold MarkovChain.invoke.
  apply wp_bind. eapply wp_eq; [apply as_braid_ok, Hs |].
  apply wp_bind, wp_modify, wp_bind.
  apply wp_sample with (P := fun r => P r.2).
  - now apply P_kept.
  - intros [ok b'] s' HP' Hself Hheap. simpl in HP'.
    apply wp_bind, wp_modify, wp_ret.
    apply (HQ ok b'); [| exact HP'].
    apply stepping_moved with (b := b); [| now apply P_nonempty].
    apply stepping_same_store with (s := emit (LCall braid c) s);
      [now apply stepping_emit | exact Hself | exact Hheap].
Qed.

Lemma wp_log_outcome_kept (b : BraidWord) (d : gmap Z string)
  (step movetype : Z) (ok : bool) (s : state) :
  stepping s0 braid log b d s -> P b ->
  wp (if ok then
        setitem log step
          (MarkovChain.log_message movetype (move_name movetype) true)
      else
        setitem log step
          (MarkovChain.log_message movetype (move_name movetype) false))
    (fun _ s' => exists b' msg,
       stepping s0 braid log b' (<[step := msg]> d) s'
       /\ P b' /\ entry_of movetype msg) s.
Proof.
  intros Hs HP.
  destruct ok; eapply wp_setitem; try exact Hs; intros s' Hs';
    eexists b, _; (split; [exact Hs' |]); (split; [exact HP |]);
    left; eexists; reflexivity.
Qed.

Lemma wp_unknot_kept (b : BraidWord) (d : gmap Z string) (step movetype : Z)
  (s : state) :
  stepping s0 braid log b d s -> P b -> movetype = 1 \/ movetype = 6 ->
  wp (let* _ :=
        setitem log step
          (MarkovChain.log_message movetype (move_name movetype) false) in
      let* old := getitem log step in
      setitem log step (old +:+ "Unknot"))
    (fun _ s' => exists b' msg,
       stepping s0 braid log b' (<[step := msg]> d) s'
       /\ P b' /\ entry_of movetype msg) s.
Proof.
  intros Hs HP Hm. eapply wp_eq; [apply setitem_then_append, Hs |].
  eexists b, _. split; [now apply stepping_logged |].
  split; [exact HP |]. right. split; [exact Hm | reflexivity].
Qed.

Lemma wp_dispatch_kept (b : BraidWord) (d : gmap Z string)
  (step movetype index : Z) (s : state) :
  stepping s0 braid log b d s -> P b ->
  0 <= movetype <= 6 -> 0 <= index < BraidWord.length b ->
  wp (MarkovChain.dispatch braid log step movetype index)
    (fun _ s' => exists b' msg,
       stepping s0 braid log b' (<[step := msg]> d) s'
       /\ P b' /\ entry_of movetype msg) s.
Proof.
  intros Hs HP Hm Hi.
  assert (Hb : heap s !! braid = Some (OBraidWord b)) by apply Hs.
  assert (Hself : self s = self s0) by apply Hs.
  assert (Hcases : movetype = 0 \/ movetype = 1 \/ movetype = 2
                   \/ movetype = 3 \/ movetype = 4 \/ movetype = 5
                   \/ movetype = 6) by lia.
  destruct Hcases as [-> | [-> | [-> | [-> | [-> | [-> | ->]]]]]];
    unfold MarkovChain.dispatch; cbn [Z.eqb Pos.eqb].
  - apply wp_bind. eapply wp_invoke_kept; [exact Hs | exact HP | exact Hi |].
    intros ok b' s' Hs' HP'.
    now apply (wp_log_outcome_kept b' d step 0 ok s').
  - apply wp_bind. eapply wp_eq; [eapply cancel_guard_ok, Hb |].
    destruct ((BraidWord.length b =? 2) && BraidWord.canCancel b index)
      eqn:G.
    + apply (wp_unknot_kept b d step 1 s Hs HP). now left.
    + apply wp_bind.
      eapply wp_invoke_kept; [exact Hs | exact HP | split; assumption |].
      intros ok b' s' Hs' HP'.
      now apply (wp_log_outcome_kept b' d step 1 ok s').
  - apply wp_bind, wp_and_then.
    apply wp_bind. eapply wp_length; [exact Hb |].
    apply wp_bind, wp_gets, wp_ret.
    destruct (BraidWord.length b <=? maxlen (self s) - 2) eqn:G.
    + apply wp_bind. eapply wp_eq; [eapply largestGenerator_ok, Hb |].
      apply wp_bind, wp_rr; [pose proof (largestGenerator_nonneg b); lia |].
      intros g Hg.
      eapply wp_invoke_kept;
        [apply stepping_emit, stepping_advance, Hs | exact HP | |].
      * rewrite <- Hself. simpl. split; [exact Hi |]. split; lia.
      * intros ok b' s' Hs' HP'.
        now apply (wp_log_outcome_kept b' d step 2 ok s').
    + now apply (wp_log_outcome_kept b d step 2 false s).
  - apply wp_bind. eapply wp_invoke_kept; [exact Hs | exact HP | exact Hi |].
    intros ok b' s' Hs' HP'.
    now apply (wp_log_outcome_kept b' d step 3 ok s').
  - apply wp_bind. eapply wp_invoke_kept; [exact Hs | exact HP | exact Hi |].
    intros ok b' s' Hs' HP'.
    now apply (wp_log_outcome_kept b' d step 4 ok s').
  - apply wp_bind, wp_and_then.
    apply wp_bind. eapply wp_length; [exact Hb |].
    apply wp_bind, wp_gets, wp_ret.
    destruct (BraidWord.length b <=? maxlen (self s) - 1) eqn:G1.
    + apply wp_and_then.
      apply wp_bind. eapply wp_eq; [eapply largestGenerator_ok, Hb |].
      apply wp_bind, wp_gets, wp_ret.
      destruct (BraidWord.largestGenerator b <? maxgen (self s)) eqn:G2.
      * eapply wp_invoke_kept; [exact Hs | exact HP | |].
        -- rewrite <- Hself. simpl. lia.
        -- intros ok b' s' Hs' HP'.
           now apply (wp_log_outcome_kept b' d step 5 ok s').
      * now apply (wp_log_outcome_kept b d step 5 false s).
    + now apply (wp_log_outcome_kept b d step 5 false s).
  - apply wp_bind. eapply wp_eq; [eapply destabilize_guard_ok, Hb |].
    destruct ((BraidWord.length b =? 1) && BraidWord.canDestabilize b)
      eqn:G.
    + apply (wp_unknot_kept b d step 6 s Hs HP). now right.
    + apply wp_bind.
      eapply wp_invoke_kept; [exact Hs | exact HP | exact G |].
      intros ok b' s' Hs' HP'.
      now apply (wp_log_outcome_kept b' d step 6 ok s').
Qed.

Lemma wp_model_step_kept (b : BraidWord) (d : gmap Z string) (step : Z)
  (s : state) :
  stepping s0 braid log b d s -> P b ->
  wp (MarkovChain.model_step braid log step)
    (fun _ s' => exists b' msg movetype,
       stepping s0 braid log b' (<[step := msg]> d) s'
       /\ P b' /\ 0 <= movetype <= 6 /\ entry_of movetype msg) s.
Proof.
  intros Hs HP.
  pose proof (Z.mod_pos_bound (tape s (pos s)) 7 ltac:(lia)) as Hm.
  pose proof (Z.mod_pos_bound (tape s (S (pos s))) (BraidWord.length b)
                (length_pos b (stepping_nonempty _ _ _ _ _ _ Hs))) as Hi.
  assert (Hd : wp (MarkovChain.dispatch braid log step
                     (tape s (pos s) mod 7)
                     (tape s (S (pos s)) mod BraidWord.length b))
                 (fun _ s' => exists b' msg,
                    stepping s0 braid log b' (<[step := msg]> d) s'
                    /\ P b' /\ entry_of (tape s (pos s) mod 7) msg)
                 (drawn (BraidWord.length b) s)).
  { apply wp_dispatch_kept with (b := b); [| exact HP | lia | exact Hi].
    unfold drawn. now apply stepping_emit, stepping_advance, stepping_emit,
      stepping_advance. }
  unfold wp in Hd |- *.
  rewrite (model_step_draws braid log step b s); [| apply Hs | apply Hs].
  destruct (MarkovChain.dispatch _ _ _ _ _ _) as [[[] | e] s'];
    [| contradiction].
  destruct Hd as (b' & msg & Hs' & HP' & He).
  exists b', msg, (tape s (pos s) mod 7). split_and!; auto; lia.
Qed.

Lemma wp_steps_kept (n : nat) :
  forall (i : Z) (b : BraidWord) (d : gmap Z string) (s : state),
    stepping s0 braid log b d s -> P b -> 0 <= i ->
    keys_exactly i d -> entries_ok d ->
    wp (for_range n i (MarkovChain.model_step braid log))
      (fun _ s' => exists b' d',
         stepping s0 braid log b' d' s' /\ P b'
         /\ keys_exactly (i + Z.of_nat n) d' /\ entries_ok d') s.
Proof.
  induction n as [|n IH]; intros i b d s Hs HP Hi Hk He; simpl for_range.
  - apply wp_ret. exists b, d. split_and!; auto.
    now replace (i + Z.of_nat 0) with i by lia.
  - apply wp_bind.
    eapply wp_mono; [apply (wp_model_step_kept b d i s Hs HP) |].
    intros [] s' (b' & msg & mt & Hs' & HP' & Hm & Hmsg).
    eapply wp_mono.
    + apply (IH (i + 1) b' (<[i := msg]> d) s' Hs' HP'); [lia | |].
      * now apply keys_exactly_insert.
      * now apply entries_ok_insert with (movetype := mt).
    + intros [] s'' (b'' & d'' & Hs'' & HP'' & Hk'' & He'').
      exists b'', d''. split_and!; auto.
      now replace (i + Z.of_nat (S n)) with (i + 1 + Z.of_nat n) by lia.
Qed.

End Kept.

Section KeptTrials.
Context {moves : BraidWord.Moves}.
Variable P : BraidWord -> Prop.
Hypothesis P_nonempty : forall b, P b -> word b <> [].

(** The permitted calls depend on the engine through its bounds only. *)
Lemma kept_by_moves_bounds (m m' : MarkovChain) :
  maxlen m' = maxlen m -> maxgen m' = maxgen m ->
  kept_by_moves m P -> kept_by_moves m' P.
Proof.
  intros Hl Hg H c b HP Hc. apply H; [exact HP |].
  destruct c; simpl in *; rewrite <- ?Hl, <- ?Hg; exact Hc.
Qed.

Lemma wp_model_trial_kept (msteps : Z) (b : BraidWord) (s : state) :
  kept_by_moves (self s) P -> working_word s b -> P b ->
  wp (MarkovChain.model_trial msteps)
    (fun _ s' => exists b' snapshot,
       working_word s' b' /\ P b'
       /\ heap s' !! snapshot = Some (OBraidWord b')
       /\ recorded P (fun d => keys_exactly msteps d /\ entries_ok d)
            s s' [snapshot] [List.length (heap s)]) s.
Proof.
  intros Hkept Hw HP. unfold working_word in Hw.
  assert (Hlt : (braid (self s) < List.length (heap s))%nat)
    by (eapply lookup_lt_Some; eauto).
  unfold MarkovChain.model_trial.
  apply wp_bind, wp_gets, wp_bind.
  eapply wp_eq; [reflexivity |].
  set (log := List.length (heap s)).
  set (s1 := set_heap (fun h => h ++ [ODict ∅]) s).
  assert (Hs1 : stepping s1 (braid (self s)) log b ∅ s1).
  { constructor; try reflexivity; simpl.
    - now rewrite lookup_app_l.
    - apply list_lookup_middle. reflexivity.
    - now apply P_nonempty. }
  apply wp_bind.
  eapply wp_mono;
    [apply (wp_steps_kept s1 (braid (self s)) log P P_nonempty Hkept
              (Z.to_nat msteps) 0 b ∅ s1 Hs1 HP);
       [lia | apply keys_exactly_empty | apply entries_ok_empty] |].
  intros [] s2 (b' & d & Hs2 & HP' & Hk & He). simpl in Hk.
  apply keys_exactly_to_nat in Hk.
  destruct Hs2 as [Hself Hsize Hb2 Hd2 Hframe Hne'].
  assert (Hsz1 : List.length (heap s1) = S log)
    by (unfold s1; simpl; rewrite length_app; simpl; lia).
  apply wp_bind. unfold deepcopy. apply wp_bind.
  eapply wp_eq; [unfold load; now rewrite Hb2 |].
  eapply wp_eq; [reflexivity |].
  apply wp_bind, wp_modify, wp_modify.
  exists b', (List.length (heap s2)).
  assert (Hb_lt : (braid (self s) < List.length (heap s2))%nat) by lia.
  assert (Hlog_lt : (log < List.length (heap s2))%nat) by lia.
  split; [| split; [exact HP' | split]].
  - unfold working_word. simpl. rewrite Hself. simpl.
    now rewrite lookup_app_l.
  - simpl. apply list_lookup_middle. reflexivity.
  - constructor; simpl; rewrite ?Hself; simpl; try reflexivity.
    + repeat constructor; fold log; lia.
    + repeat constructor. exists b'. split; [| exact HP'].
      apply list_lookup_middle. reflexivity.
    + repeat constructor. exists d. split; [| split; [exact Hk | exact He]].
      now rewrite lookup_app_l.
    + intros l Hl Hlb. rewrite lookup_app_l by lia.
      rewrite Hframe; [| exact Hlb | fold log in Hl; lia].
      unfold s1. simpl. now rewrite lookup_app_l.
    + rewrite length_app. simpl. fold log. lia.
Qed.

Lemma working_word_unique (s : state) (b b' : BraidWord) :
  working_word s b -> working_word s b' -> b = b'.
Proof. unfold working_word. congruence. Qed.

Lemma wp_trials_kept (msteps : Z) (n : nat) :
  forall (i : Z) (b : BraidWord) (s : state),
    kept_by_moves (self s) P -> working_word s b -> P b ->
    wp (for_range n i (fun _ => MarkovChain.model_trial msteps))
      (fun _ s' => exists b' reps logs,
         working_word s' b' /\ P b'
         /\ recorded P (fun d => keys_exactly msteps d /\ entries_ok d)
              s s' reps logs
         /\ List.length reps = n /\ List.length logs = n
         /\ (forall l, last reps = Some l ->
               heap s' !! l = Some (OBraidWord b'))
         /\ (reps = [] -> s' = s)) s.
Proof.
  induction n as [|n IH]; intros i b s Hkept Hw HP; simpl for_range.
  - apply wp_ret. exists b, [], [].
    split; [exact Hw |]. split; [exact HP |].
    split; [apply recorded_refl |]. split; [reflexivity |].
    split; [reflexivity |]. split; [intros l [=] | reflexivity].
  - apply wp_bind.
    eapply wp_mono; [apply (wp_model_trial_kept msteps b s Hkept Hw HP) |].
    intros [] s1 (b1 & snapshot & Hw1 & HP1 & Hsnap & Hg1).
    assert (Hkept1 : kept_by_moves (self s1) P).
    { apply kept_by_moves_bounds with (m := self s);
        [apply Hg1 | apply Hg1 | exact Hkept]. }
    eapply wp_mono; [apply (IH (i + 1) b1 s1 Hkept1 Hw1 HP1) |].
    intros [] s2
      (b2 & reps & logs & Hw2 & HP2 & Hg2 & Hlr & Hll & Hlast & Hnil).
    exists b2, ([snapshot] ++ reps), ([List.length (heap s)] ++ logs).
    split; [exact Hw2 |]. split; [exact HP2 |].
    split; [| split; [simpl; now rewrite Hlr |
                      split; [simpl; now rewrite Hll |
                              split; [| discriminate]]]].
    + apply recorded_trans with (s1 := s1); try assumption.
      eapply lookup_lt_Some. exact Hw.
    + intros l Hl. destruct reps as [|r reps].
      * simpl in Hl. injection Hl as <-.
        specialize (Hnil eq_refl). subst s2.
        now rewrite (working_word_unique _ _ _ Hw2 Hw1).
      * apply Hlast. exact Hl.
Qed.

(** From a working word with the property, [model] returns normally, and
    what it has recorded is described by [recorded]. *)
Lemma model_records (num_braidreps msteps : Z) (b : BraidWord) (s : state) :
  kept_by_moves (self s) P -> working_word s b -> P b ->
  exists (s' : state) (b' : BraidWord) (reps logs : list loc),
    MarkovChain.model num_braidreps msteps s = (Ok tt, s')
    /\ working_word s' b' /\ P b'
    /\ recorded P (fun d => keys_exactly msteps d /\ entries_ok d)
         s s' reps logs
    /\ List.length reps = Z.to_nat num_braidreps
    /\ List.length logs = Z.to_nat num_braidreps
    /\ (forall l, last reps = Some l -> heap s' !! l = Some (OBraidWord b')).
Proof.
  intros Hkept Hw HP.
  destruct (wp_ok _ _ _
              (wp_trials_kept msteps (Z.to_nat num_braidreps) 0 b s
                 Hkept Hw HP))
    as ([] & s' & E & b' & reps & logs & H1 & H2 & H3 & H4 & H5 & H6 & _).
  exists s', b', reps, logs. split_and!; assumption.
Qed.

End KeptTrials.

Lemma rand_all_impl {A : Type} (P Q : A -> Prop) (t : rand A) :
  (forall a, P a -> Q a) -> rand_all P t -> rand_all Q t.
Proof.
  intros H. induction t as [a | n k IH]; simpl; [apply H |].
  intros Ht r Hr. apply IH, Ht, Hr.
Qed.

Lemma rand_all_and {A : Type} (P Q : A -> Prop) (t : rand A) :
  rand_all P t -> rand_all Q t -> rand_all (fun a => P a /\ Q a) t.
Proof.
  induction t as [a | n k IH]; simpl; [now split |].
  intros HP HQ r Hr. apply IH; [apply HP, Hr | apply HQ, Hr].
Qed.

Section Invariants.
Context {moves : BraidWord.Moves}.

Lemma permitted_guarded (m : MarkovChain) (b : BraidWord) (c : call) :
  permitted m b c -> guarded b c = true.
Proof.
  destruct c; simpl; try reflexivity.
  - intros [_ ->]. reflexivity.
  - intros ->. reflexivity.
Qed.

Lemma nonempty_kept (m : MarkovChain) :
  keeps_nonempty -> kept_by_moves m (fun b => word b <> []).
Proof.
  intros H c b Hb Hc. apply H; [exact Hb |].
  now apply permitted_guarded with (m := m).
Qed.

Lemma within_bounds_kept (m : MarkovChain) :
  keeps_nonempty -> moves_bounded -> kept_by_moves m (within_bounds m).
Proof.
  intros Hne Hbd c b [[Hl1 Hl2] Hg] Hc.
  assert (Hw : word b <> []).
  { intros E. unfold BraidWord.length in Hl1. rewrite E in Hl1.
    simpl in Hl1. lia. }
  pose proof (rand_all_and _ _ _
                (Hne c b Hw (permitted_guarded m b c Hc)) (Hbd c b)) as H.
  eapply rand_all_impl; [| exact H].
  intros [ok b'] [Hne' [Hlen Hlg]]. simpl in *.
  pose proof (length_pos b' Hne') as Hpos.
  unfold within_bounds.
  destruct c; simpl in Hc, Hlen, Hlg; lia.
Qed.

(** X4: a property of non-empty words that every call the loop body can
    issue keeps, whatever the draws answer, is an invariant of [model]: a
    run started on a working word with the property returns normally, the
    working word it leaves has the property, and so has every snapshot it
    appended. *)
Theorem model_keeps_invariant (P : BraidWord -> Prop)
  (num_braidreps msteps : Z) (b : BraidWord) (s : state) :
  (forall w, P w -> word w <> []) ->
  kept_by_moves (self s) P ->
  working_word s b -> P b ->
  exists (s' : state) (b' : BraidWord) (reps : list loc),
    MarkovChain.model num_braidreps msteps s = (Ok tt, s')
    /\ working_word s' b' /\ P b'
    /\ agg_braidreps (braidagg (self s'))
       = agg_braidreps (braidagg (self s)) ++ reps
    /\ Forall (fun l => exists w, heap s' !! l = Some (OBraidWord w) /\ P w)
         reps.
Proof.
  intros Hne Hkept Hw HP.
  destruct (model_records P Hne num_braidreps msteps b s Hkept Hw HP)
    as (s' & b' & reps & logs & E & Hw' & HP' & Hrec & _).
  exists s', b', reps. split_and!; try assumption; apply Hrec.
Qed.

(** X5: with moves that lengthen a word and raise its largest generator
    by no more than they are called to (an insertion by two elements of
    the magnitude given, a stabilisation by one element one above the
    largest), the guards of the loop body keep the bounds of the engine: a
    run started on a word with [1 <= length <= maxlen] and
    [largestGenerator <= maxgen] leaves such a word, and every snapshot it
    appended is within the bounds. *)
Theorem model_within_bounds (num_braidreps msteps : Z) (b : BraidWord)
  (s : state) :
  keeps_nonempty -> moves_bounded ->
  working_word s b -> within_bounds (self s) b ->
  exists (s' : state) (b' : BraidWord) (reps : list loc),
    MarkovChain.model num_braidreps msteps s = (Ok tt, s')
    /\ working_word s' b' /\ within_bounds (self s) b'
    /\ agg_braidreps (braidagg (self s'))
       = agg_braidreps (braidagg (self s)) ++ reps
    /\ Forall (fun l => exists w,
                 heap s' !! l = Some (OBraidWord w)
                 /\ 1 <= BraidWord.length w <= maxlen (self s)
                 /\ BraidWord.largestGenerator w <= maxgen (self s)) reps.
Proof.
  intros Hne Hbd Hw HP.
  assert (Hne' : forall w, within_bounds (self s) w -> word w <> []).
  { intros w [[Hl _] _] E. unfold BraidWord.length in Hl. rewrite E in Hl.
    simpl in Hl. lia. }
  destruct (model_records (within_bounds (self s)) Hne' num_braidreps msteps
              b s (within_bounds_kept (self s) Hne Hbd) Hw HP)
    as (s' & b' & reps & logs & E & Hw' & HP' & Hrec & _).
  exists s', b', reps. split_and!; try assumption; apply Hrec.
Qed.

(** X6: every entry of a log appended by [model] is one of the messages of
    the loop body: for some move type in [[0, 6]], the message of
    [log_message] for that type and the name of its move, with either
    outcome, or, for Cancel and Destabilize only, the failure message
    followed by [Unknot]. *)
Theorem model_entries_well_formed (num_braidreps msteps : Z)
  (b : BraidWord) (s : state) :
  keeps_nonempty -> working_word s b -> word b <> [] ->
  exists (s' : state) (logs : list loc),
    MarkovChain.model num_braidreps msteps s = (Ok tt, s')
    /\ agg_logs (braidagg (self s'))
       = agg_logs (braidagg (self s)) ++ logs
    /\ Forall (fun l => exists d,
                 heap s' !! l = Some (ODict d)
                 /\ forall (k : Z) (msg : string),
                      d !! k = Some msg ->
                      exists movetype : Z,
                        0 <= movetype <= 6
                        /\ (msg = MarkovChain.log_message movetype
                                    (move_name movetype) true
                            \/ msg = MarkovChain.log_message movetype
                                       (move_name movetype) false
                            \/ ((movetype = 1 \/ movetype = 6)
                                /\ msg = MarkovChain.log_message movetype
                                           (move_name movetype) false
                                         +:+ "Unknot"))) logs.
Proof.
  intros Hne Hw Hb.
  destruct (model_records (fun w => word w <> []) (fun w H => H)
              num_braidreps msteps b s (nonempty_kept (self s) Hne) Hw Hb)
    as (s' & b' & reps & logs & E & Hw' & HP' & Hrec & _).
  exists s', logs. split; [exact E |]. split; [apply Hrec |].
  eapply Forall_impl; [apply (recorded_entries _ _ _ _ _ _ Hrec) |].
  intros l (d & Hd & _ & He). exists d. split; [exact Hd |].
  intros k msg Hk. destruct (He k msg Hk) as (mt & Hm & Hmsg).
  exists mt. split; [exact Hm |].
  destruct Hmsg as [[[|] ->] | [Hg ->]]; auto.
Qed.

(** X7: after a run with at least one trial, the last braidrep of the
    aggregate is an object of its own, not the working word, and holds the
    word the working reference holds: the state the chain has reached. *)
Theorem model_last_snapshot (num_braidreps msteps : Z) (b : BraidWord)
  (s : state) :
  keeps_nonempty -> working_word s b -> word b <> [] ->
  0 < num_braidreps ->
  exists (s' : state) (b' : BraidWord) (l : loc),
    MarkovChain.model num_braidreps msteps s = (Ok tt, s')
    /\ last (agg_braidreps (braidagg (self s'))) = Some l
    /\ l <> braid (self s')
    /\ heap s' !! l = Some (OBraidWord b')
    /\ working_word s' b'.
Proof.
  intros Hne Hw Hb HN.
  destruct (model_records (fun w => word w <> []) (fun w H => H)
              num_braidreps msteps b s (nonempty_kept (self s) Hne) Hw Hb)
    as (s' & b' & reps & logs & E & Hw' & HP' & Hrec & Hlr & Hll & Hlast).
  destruct (last reps) as [l |] eqn:El.
  - exists s', b', l. split; [exact E |].
    split; [rewrite (recorded_braidreps _ _ _ _ _ _ Hrec);
            rewrite last_app, El; reflexivity |].
    split; [| split; [now apply Hlast | exact Hw']].
    rewrite (recorded_braid _ _ _ _ _ _ Hrec).
    pose proof (recorded_new _ _ _ _ _ _ Hrec) as Hnew.
    apply Forall_app in Hnew as [Hnew _].
    rewrite Forall_forall in Hnew.
    assert (Hin : l ∈ reps).
    { apply last_Some in El as [r' ->]. set_solver. }
    specialize (Hnew l Hin).
    assert ((braid (self s) < List.length (heap s))%nat)
      by (eapply lookup_lt_Some; exact Hw).
    lia.
  - apply last_None in El. subst reps. simpl in Hlr. lia.
Qed.

(** X8: a run of [model] changes no object that existed, the working word
    apart, and no field of the engine but the aggregate: the working
    reference and the two bounds are as before, the references appended to
    the two lists were not in the store before, and every other stored
    object, the snapshots and logs of earlier runs among them, is as it
    was. *)
Theorem model_keeps_existing_objects (num_braidreps msteps : Z)
  (b : BraidWord) (s : state) :
  keeps_nonempty -> working_word s b -> word b <> [] ->
  exists (s' : state) (reps logs : list loc),
    MarkovChain.model num_braidreps msteps s = (Ok tt, s')
    /\ braid (self s') = braid (self s)
    /\ maxgen (self s') = maxgen (self s)
    /\ maxlen (self s') = maxlen (self s)
    /\ agg_braidreps (braidagg (self s'))
       = agg_braidreps (braidagg (self s)) ++ reps
    /\ agg_logs (braidagg (self s'))
       = agg_logs (braidagg (self s)) ++ logs
    /\ (forall l, l ∈ reps ++ logs -> heap s !! l = None)
    /\ (forall (l : loc) (o : obj),
          l <> braid (self s) -> heap s !! l = Some o ->
          heap s' !! l = Some o).
Proof.
  intros Hne Hw Hb.
  destruct (model_records (fun w => word w <> []) (fun w H => H)
              num_braidreps msteps b s (nonempty_kept (self s) Hne) Hw Hb)
    as (s' & b' & reps & logs & E & Hw' & HP' & Hrec & _).
  exists s', reps, logs. split; [exact E |].
  split_and!; try apply Hrec.
  - intros l Hl. apply lookup_ge_None_2.
    pose proof (recorded_new _ _ _ _ _ _ Hrec) as Hnew.
    rewrite Forall_forall in Hnew. now apply Hnew.
  - intros l o Hl Ho.
    rewrite (recorded_frame _ _ _ _ _ _ Hrec); [exact Ho | | exact Hl].
    eapply lookup_lt_Some; exact Ho.
Qed.

End Invariants.

(** ** The bounds of the moves modelled from the specification *)

Lemma largest_app (l1 l2 : list Z) :
  BraidWord.largestGenerator {| word := l1 ++ l2 |}
  = Z.max (BraidWord.largestGenerator {| word := l1 |})
      (BraidWord.largestGenerator {| word := l2 |}).
Proof.
  unfold BraidWord.largestGenerator. simpl.
  induction l1 as [|x l1 IH]; simpl.
  - pose proof (largestGenerator_nonneg {| word := l2 |}) as H.
    unfold BraidWord.largestGenerator in H. simpl in H. lia.
  - rewrite IH. lia.
Qed.

Lemma largest_cons (x : Z) (l : list Z) :
  BraidWord.largestGenerator {| word := x :: l |}
  = Z.max (Z.abs x) (BraidWord.largestGenerator {| word := l |}).
Proof. reflexivity. Qed.

Lemma largest_nil : BraidWord.largestGenerator {| word := [] |} = 0.
Proof. reflexivity. Qed.

Ltac word_sizes :=
  unfold BraidWord.length; cbn [word];
  repeat rewrite ?largest_app, ?largest_cons, ?largest_nil, ?length_app,
    ?length_cons, ?length_nil, ?length_drop, ?length_take.

Lemma largest_take (n : nat) (l : list Z) :
  BraidWord.largestGenerator {| word := take n l |}
  <= BraidWord.largestGenerator {| word := l |}.
Proof.
  rewrite <- (take_drop n l) at 2. rewrite largest_app. lia.
Qed.

Lemma largest_drop (n : nat) (l : list Z) :
  BraidWord.largestGenerator {| word := drop n l |}
  <= BraidWord.largestGenerator {| word := l |}.
Proof.
  rewrite <- (take_drop n l) at 2. rewrite largest_app. lia.
Qed.

Lemma largest_lookup (l : list Z) (i : nat) (x : Z) :
  l !! i = Some x -> Z.abs x <= BraidWord.largestGenerator {| word := l |}.
Proof.
  intros H. rewrite <- (take_drop_middle l i x H).
  rewrite largest_app.
  change (BraidWord.largestGenerator {| word := x :: drop (S i) l |})
    with (Z.max (Z.abs x)
            (BraidWord.largestGenerator {| word := drop (S i) l |})).
  lia.
Qed.

Lemma gen_at_Some (w : list Z) (i x : Z) :
  SpecMoves.gen_at w i = Some x -> 0 <= i /\ w !! Z.to_nat i = Some x.
Proof.
  unfold SpecMoves.gen_at. destruct (i <? 0) eqn:E; [discriminate |].
  intros H. split; [lia | exact H].
Qed.

Lemma length_word (w : list Z) :
  BraidWord.length {| word := w |} = Z.of_nat (List.length w).
Proof. reflexivity. Qed.

Lemma spec_moves_bounded : moves_bounded (moves := SpecMoves.moves).
Proof.
  intros c [w].
  pose proof (largestGenerator_nonneg {| word := w |}) as Hlg.
  assert (Hfail : forall c',
    BraidWord.length {| word := w |}
      <= BraidWord.length {| word := w |} + growth c'
    /\ BraidWord.largestGenerator {| word := w |}
      <= largest_after c' {| word := w |}).
  { intros c'. destruct c'; simpl; lia. }
  destruct c as [i | i | i g | i | i | | ]; simpl.
  - unfold SpecMoves.conjugate.
    destruct ((0 <=? i) && (i <? _)); [| apply (Hfail (Conjugate i))].
    cbn [fst snd SpecMoves.succeeded rand_all]. word_sizes.
    pose proof (largest_take (Z.to_nat i) w).
    pose proof (largest_drop (Z.to_nat i) w).
    lia.
  - unfold SpecMoves.cancel.
    destruct (SpecMoves.canCancel _ i && _); [| apply (Hfail (Cancel i))].
    cbn [fst snd SpecMoves.succeeded rand_all]. word_sizes.
    pose proof (largest_take (Z.to_nat i) w).
    pose proof (largest_drop (Z.to_nat i + 2) w).
    lia.
  - unfold SpecMoves.insert.
    destruct ((0 <=? i) && (i <=? _)) eqn:E; [| apply (Hfail (Insert i g))].
    apply andb_prop in E as [E1 E2].
    apply Z.leb_le in E1. apply Z.leb_le in E2.
    unfold BraidWord.length in E2. simpl in E2.
    cbn [fst snd SpecMoves.succeeded rand_all]. word_sizes.
    pose proof (largest_take (Z.to_nat i) w).
    pose proof (largest_drop (Z.to_nat i) w).
    lia.
  - unfold SpecMoves.transpose. simpl.
    destruct (SpecMoves.gen_at w i) as [x |] eqn:Ex;
      [| apply (Hfail (Transpose i))].
    destruct (SpecMoves.gen_at w (i + 1)) as [y |] eqn:Ey;
      [| apply (Hfail (Transpose i))].
    destruct (2 <=? _); [| apply (Hfail (Transpose i))].
    apply gen_at_Some in Ex as [Hi Hx]. apply gen_at_Some in Ey as [_ Hy].
    pose proof (lookup_lt_Some _ _ _ Hy) as Hlt.
    cbn [fst snd SpecMoves.succeeded rand_all]. word_sizes.
    pose proof (largest_take (Z.to_nat i) w).
    pose proof (largest_drop (Z.to_nat i + 2) w).
    pose proof (largest_lookup _ _ _ Hx). pose proof (largest_lookup _ _ _ Hy).
    lia.
  - unfold SpecMoves.flip. simpl.
    destruct (SpecMoves.gen_at w (i - 1)) as [x |] eqn:Ex;
      [| apply (Hfail (Flip i))].
    destruct (SpecMoves.gen_at w i) as [y |] eqn:Ey;
      [| apply (Hfail (Flip i))].
    destruct (SpecMoves.gen_at w (i + 1)) as [z |] eqn:Ez;
      [| apply (Hfail (Flip i))].
    destruct (_ && _); [| apply (Hfail (Flip i))].
    apply gen_at_Some in Ex as [Hi Hx]. apply gen_at_Some in Ey as [_ Hy].
    apply gen_at_Some in Ez as [_ Hz].
    pose proof (lookup_lt_Some _ _ _ Hz) as Hlt.
    cbn [fst snd SpecMoves.succeeded rand_all]. word_sizes.
    pose proof (largest_take (Z.to_nat (i - 1)) w).
    pose proof (largest_drop (Z.to_nat i + 2) w).
    pose proof (largest_lookup _ _ _ Hx). pose proof (largest_lookup _ _ _ Hy).
    lia.
  - intros r _. cbn [fst snd SpecMoves.succeeded rand_all]. word_sizes.
    destruct (r =? 0); lia.
  - unfold SpecMoves.destabilize.
    destruct (SpecMoves.canDestabilize _ && _); [| apply (Hfail Destabilize)].
    cbn [fst snd SpecMoves.succeeded rand_all].
    rewrite removelast_firstn_len. word_sizes.
    pose proof (largest_take (Nat.pred (List.length w)) w). lia.
Qed.

(** ** The accessors *)

(** X9: [aggregate] returns copies: on an engine whose aggregate refers to
    stored objects it returns normally and leaves the engine as it was,
    every reference it hands out is to an object that did not exist before
    the call, every object that existed is unchanged, what the copies hold
    is what the aggregate holds, and whatever the caller then does to the
    objects it was handed, a later call gives the same contents. *)
Theorem aggregate_is_deep_copy (s : state) :
  Forall (fun l => (l < List.length (heap s))%nat)
    (refs (braidagg (self s))) ->
  exists (a : braidagg_t) (s1 : state),
    MarkovChain.aggregate s = (Ok a, s1)
    /\ self s1 = self s
    /\ (forall l, l ∈ refs a -> heap s !! l = None)
    /\ (forall (l : loc) (o : obj),
          heap s !! l = Some o -> heap s1 !! l = Some o)
    /\ view (heap s1) a = view (heap s) (braidagg (self s))
    /\ forall h' : list obj,
         touched_only (refs a) (heap s1) h' ->
         exists (a' : braidagg_t) (s2 : state),
           MarkovChain.aggregate (set_heap (fun _ => h') s1) = (Ok a', s2)
           /\ view (heap s2) a' = view (heap s1) a.
Proof.
  intros Hv.
  destruct (aggregate_copies s Hv) as (a & s1 & E & Hs & Hf & Hz & Hp & Hc).
  destruct (aggregate_isolated s Hv) as (a' & s1' & E' & Hiso).
  rewrite E in E'. injection E' as <- <-.
  exists a, s1. split_and!; try assumption.
  - intros l Hl. apply lookup_ge_None_2.
    rewrite Forall_forall in Hf. now apply Hf.
  - intros l o Ho. rewrite Hp; [exact Ho |].
    eapply lookup_lt_Some; exact Ho.
Qed.

(** X10: [logs] returns copies in the same way: new objects with the
    contents of the stored logs, the engine and the existing objects
    untouched, and later calls unaffected by what the caller does to
    them. *)
Theorem logs_is_deep_copy (s : state) :
  Forall (fun l => (l < List.length (heap s))%nat)
    (agg_logs (braidagg (self s))) ->
  exists (ls : list loc) (s1 : state),
    MarkovChain.logs s = (Ok ls, s1)
    /\ self s1 = self s
    /\ (forall l, l ∈ ls -> heap s !! l = None)
    /\ (forall (l : loc) (o : obj),
          heap s !! l = Some o -> heap s1 !! l = Some o)
    /\ map (fun l => heap s1 !! l) ls
       = map (fun l => heap s !! l) (agg_logs (braidagg (self s)))
    /\ forall h' : list obj,
         touched_only ls (heap s1) h' ->
         exists (ls' : list loc) (s2 : state),
           MarkovChain.logs (set_heap (fun _ => h') s1) = (Ok ls', s2)
           /\ map (fun l => heap s2 !! l) ls'
              = map (fun l => heap s1 !! l) ls.
Proof.
  intros Hv.
  destruct (logs_copies s Hv) as (ls & s1 & E & Hs & Hf & Hp & Hc).
  destruct (logs_isolated s Hv) as (ls' & s1' & E' & Hiso).
  rewrite E in E'. injection E' as <- <-.
  exists ls, s1. split_and!; try assumption.
  - intros l Hl. apply lookup_ge_None_2.
    rewrite Forall_forall in Hf. now apply Hf.
  - intros l o Ho. rewrite Hp; [exact Ho |].
    eapply lookup_lt_Some; exact Ho.
Qed.

Lemma words_of_ok (isos : list loc) (s : state) :
  Forall (fun l => exists w, heap s !! l = Some (OBraidWord w)) isos ->
  MarkovChain.words_of isos s = (Ok (map RWord isos), s).
Proof.
  induction isos as [|l isos IH]; intros H; [reflexivity |].
  apply Forall_cons in H as [[w Hw] Hrest]. simpl.
  rewrite (bind_ok _ _ _ _ _ (as_braid_ok _ _ _ Hw)).
  now rewrite (bind_ok _ _ _ _ _ (IH Hrest)).
Qed.

Lemma contents_ok (f : loc -> ref) (isos : list loc) (s : state) :
  (forall l, ref_target (f l) = l) ->
  Forall (fun l => exists w, heap s !! l = Some (OBraidWord w)) isos ->
  exists ws : list (list Z),
    contents (map f isos) s = (Ok ws, s)
    /\ Forall2 (fun l w => heap s !! l = Some (OBraidWord {| word := w |}))
         isos ws.
Proof.
  intros Hf. induction isos as [|l isos IH]; intros H.
  - exists []. split; [reflexivity | constructor].
  - apply Forall_cons in H as [[[w] Hw] Hrest].
    destruct (IH Hrest) as (ws & E & Hws).
    exists (w :: ws). split; [| now constructor].
    simpl. rewrite Hf.
    rewrite (bind_ok _ _ _ _ _ (as_braid_ok _ _ _ Hw)).
    now rewrite (bind_ok _ _ _ _ _ E).
Qed.

Lemma stored_words_unique (h : list obj) (isos : list loc)
  (ws ws' : list (list Z)) :
  Forall2 (fun l w => h !! l = Some (OBraidWord {| word := w |})) isos ws ->
  Forall2 (fun l w => h !! l = Some (OBraidWord {| word := w |})) isos ws' ->
  ws' = ws.
Proof.
  intros H1. revert ws'.
  induction H1 as [|l w isos ws Hl _ IH]; intros ws' H2;
    inversion H2 as [|l' w' isos'' ws'' Hl' Hrest]; subst.
  - reflexivity.
  - f_equal; [congruence | now apply IH].
Qed.

(** X11: on an engine whose braidreps are stored BraidWords, the two forms
    of [braidreps] return normally without changing the world, one
    reference per stored braidrep in the order of the aggregate, and a
    caller reads the same words behind both: [braidreps(as_word=True)] is
    [[b.word for b in braidreps()]]. *)
Theorem braidreps_forms_agree (s : state) :
  let isos := agg_braidreps (braidagg (self s)) in
  Forall (fun l => exists w, heap s !! l = Some (OBraidWord w)) isos ->
  exists ws : list (list Z),
    MarkovChain.braidreps true s = (Ok (map RWord isos), s)
    /\ MarkovChain.braidreps false s = (Ok (map RObj isos), s)
    /\ contents (map RWord isos) s = (Ok ws, s)
    /\ contents (map RObj isos) s = (Ok ws, s)
    /\ Forall2 (fun l w => heap s !! l = Some (OBraidWord {| word := w |}))
         isos ws.
Proof.
  intros isos H.
  destruct (contents_ok RWord isos s (fun _ => eq_refl) H) as (ws & E1 & H1).
  destruct (contents_ok RObj isos s (fun _ => eq_refl) H) as (ws' & E2 & H2).
  assert (ws' = ws) by (eapply stored_words_unique; eassumption).
  subst ws'. exists ws. split_and!; try assumption.
  - unfold MarkovChain.braidreps.
    rewrite (bind_ok _ _ _ _ _ (eq_refl : gets _ s = _)).
    now apply words_of_ok.
  - reflexivity.
Qed.

(** ** The guards of the loop body *)

Section Guards.
Context {moves : BraidWord.Moves}.

(** A move called and its outcome logged, as the branches of the dispatch
    do once their guard has passed. *)
Lemma attempt_outcome (braid log : loc) (step movetype : Z) (name : string)
    (c : call) (b : BraidWord) (d : gmap Z string) (s : state) :
  heap s !! braid = Some (OBraidWord b) ->
  heap s !! log = Some (ODict d) ->
  let result := (outcome (MarkovChain.run_move c b) (tape s) (pos s)).1 in
  exists (s' : state) (draws : list label),
    (let* ok := MarkovChain.invoke braid c in
     setitem log step (MarkovChain.log_message movetype name ok)) s
    = (Ok tt, s')
    /\ self s' = self s
    /\ heap s' !! braid = Some (OBraidWord result.2)
    /\ heap s' !! log
       = Some (ODict (<[step := MarkovChain.log_message movetype name
                                  result.1]> d))
    /\ history s' = history s ++ LCall braid c :: draws
    /\ Forall is_draw draws.
Proof.
  intros Hb Hd result.
  assert (Hbl : braid <> log) by congruence.
  destruct (invoke_outcome braid c b s Hb) as (s1 & draws & E & Hs & Hh & Hy & Hdr).
  fold result in E, Hh.
  rewrite (bind_ok _ _ _ _ _ E).
  assert (Hd1 : heap s1 !! log = Some (ODict d)).
  { rewrite Hh. now rewrite list_lookup_insert_ne by congruence. }
  rewrite (setitem_ok _ _ _ _ _ Hd1).
  eexists _, draws. split; [reflexivity |]. simpl. split_and!.
  - exact Hs.
  - rewrite list_lookup_insert_ne by congruence.
    rewrite Hh. apply list_lookup_insert_eq. eapply lookup_lt_Some. exact Hb.
  - apply list_lookup_insert_eq. eapply lookup_lt_Some. exact Hd1.
  - exact Hy.
  - exact Hdr.
Qed.

(** A branch without a guard: the move is called and its outcome logged. *)
Lemma dispatch_plain (braid log : loc) (step movetype index : Z)
    (name : string) (c : call) (s : state) :
  (let* ok := MarkovChain.invoke braid c in
   if ok then setitem log step (MarkovChain.log_message movetype name true)
   else setitem log step (MarkovChain.log_message movetype name false)) s
  = (let* ok := MarkovChain.invoke braid c in
     setitem log step (MarkovChain.log_message movetype name ok)) s.
Proof.
  unfold bind.
  destruct (MarkovChain.invoke braid c s) as [[[|] | e] s']; reflexivity.
Qed.

(** X12: in an iteration that drew Insert on a word that two more elements
    would take beyond [maxlen], the step returns normally with the failure
    message logged; no generator is drawn, no move is called and the word
    is as before. *)
Theorem insert_refused (s : state) (braid log : loc) (step : Z)
  (b : BraidWord) (d : gmap Z string) :
  heap s !! braid = Some (OBraidWord b) ->
  heap s !! log = Some (ODict d) ->
  word b <> [] ->
  tape s (pos s) mod 7 = 2 ->
  maxlen (self s) < BraidWord.length b + 2 ->
  let n := BraidWord.length b in
  let index := tape s (S (pos s)) mod n in
  exists s' : state,
    MarkovChain.model_step braid log step s = (Ok tt, s')
    /\ self s' = self s
    /\ pos s' = S (S (pos s))
    /\ heap s' !! braid = Some (OBraidWord b)
    /\ heap s' !! log
       = Some (ODict (<[step := MarkovChain.log_message 2 "insert" false]> d))
    /\ history s' = history s ++ [LDraw 7 2; LDraw n index].
Proof.
  intros Hb Hd Hne Hm H n index.
  assert (Hbl : braid <> log) by congruence.
  rewrite (model_step_draws _ _ _ _ _ Hb Hne). rewrite Hm. fold n index.
  eexists. split.
  - apply dispatch_insert_refused with (b := b); [exact Hb | exact Hd |].
    change (self (drawn n s)) with (self s). unfold n. lia.
  - simpl. split_and!; try reflexivity.
    + now rewrite list_lookup_insert_ne by congruence.
    + apply list_lookup_insert_eq. eapply lookup_lt_Some. exact Hd.
    + rewrite Hm. fold n index. now rewrite <- app_assoc.
Qed.

(** Behind its guard, an iteration comes down to the call of the move
    drawn and the logging of its outcome, in the world the draws of the
    iteration have left. *)
Lemma model_step_call (s : state) (braid log : loc) (step movetype : Z)
  (b : BraidWord) :
  heap s !! braid = Some (OBraidWord b) ->
  word b <> [] ->
  tape s (pos s) mod 7 = movetype ->
  let n := BraidWord.length b in
  let index := tape s (S (pos s)) mod n in
  let lg := BraidWord.largestGenerator b in
  let generator := tape s (S (S (pos s))) mod (lg + 1) in
  let c := call_of movetype index generator in
  let extra := if movetype =? 2 then [LDraw (lg + 1) generator] else [] in
  guarded b c = true ->
  (movetype = 2 -> n + 2 <= maxlen (self s)) ->
  (movetype = 5 -> n + 1 <= maxlen (self s) /\ lg + 1 <= maxgen (self s)) ->
  exists s0 : state,
    MarkovChain.model_step braid log step s
    = (let* ok := MarkovChain.invoke braid c in
       setitem log step
         (MarkovChain.log_message movetype (move_name movetype) ok)) s0
    /\ self s0 = self s /\ heap s0 = heap s /\ tape s0 = tape s
    /\ pos s0 = (List.length extra + S (S (pos s)))%nat
    /\ history s0 = history s ++ [LDraw 7 movetype; LDraw n index] ++ extra.
Proof.
  intros Hb Hne Hm n index lg generator c extra Hg H2 H5.
  assert (Hr : 0 <= movetype < 7)
    by (rewrite <- Hm; apply Z.mod_pos_bound; lia).
  assert (Hb' : heap (drawn n s) !! braid = Some (OBraidWord b)) by exact Hb.
  assert (Hy : history (drawn n s)
               = history s ++ [LDraw 7 movetype; LDraw n index]).
  { simpl. rewrite Hm. fold n index. now rewrite <- app_assoc. }
  assert (Hc : movetype = 0 \/ movetype = 1 \/ movetype = 2 \/ movetype = 3
               \/ movetype = 4 \/ movetype = 5 \/ movetype = 6) by lia.
  destruct Hc as [-> | [-> | [-> | [-> | [-> | [-> | ->]]]]]];
    cbn in c, extra; subst c extra; cbn [List.length Nat.add app].
  - exists (drawn n s). rewrite ?app_nil_r.
    split_and!; try reflexivity; [| exact Hy].
    rewrite (model_step_draws _ _ _ _ _ Hb Hne). rewrite Hm. fold n index.
    unfold MarkovChain.dispatch. cbn [Z.eqb Pos.eqb].
    now apply dispatch_plain.
  - exists (drawn n s). rewrite ?app_nil_r.
    split_and!; try reflexivity; [| exact Hy].
    rewrite (model_step_draws _ _ _ _ _ Hb Hne). rewrite Hm. fold n index.
    unfold MarkovChain.dispatch. cbn [Z.eqb Pos.eqb].
    rewrite (bind_ok _ _ _ _ _ (cancel_guard_ok braid index b _ Hb')).
    cbn [guarded] in Hg. apply negb_true_iff in Hg.
    unfold n in *. rewrite Hg.
    now apply dispatch_plain.
  - destruct (insert_generator_range s braid log step b Hb Hne Hm)
      as [_ E]; [specialize (H2 eq_refl); unfold n in H2; lia |].
    fold n index lg generator in E.
    eexists. split; [exact E |]. simpl.
    split_and!; try reflexivity.
    rewrite Hm. fold n index. now rewrite <- !app_assoc.
  - exists (drawn n s). rewrite ?app_nil_r.
    split_and!; try reflexivity; [| exact Hy].
    rewrite (model_step_draws _ _ _ _ _ Hb Hne). rewrite Hm. fold n index.
    unfold MarkovChain.dispatch. cbn [Z.eqb Pos.eqb].
    now apply dispatch_plain.
  - exists (drawn n s). rewrite ?app_nil_r.
    split_and!; try reflexivity; [| exact Hy].
    rewrite (model_step_draws _ _ _ _ _ Hb Hne). rewrite Hm. fold n index.
    unfold MarkovChain.dispatch. cbn [Z.eqb Pos.eqb].
    now apply dispatch_plain.
  - exists (drawn n s). rewrite ?app_nil_r.
    split_and!; try reflexivity; [| exact Hy].
    rewrite (model_step_draws _ _ _ _ _ Hb Hne). rewrite Hm. fold n index.
    destruct (H5 eq_refl) as [Hl Hgn].
    apply dispatch_stabilize_attempted with (b := b);
      [exact Hb | |];
      change (self (drawn n s)) with (self s); unfold n, lg in *; lia.
  - exists (drawn n s). rewrite ?app_nil_r.
    split_and!; try reflexivity; [| exact Hy].
    rewrite (model_step_draws _ _ _ _ _ Hb Hne). rewrite Hm. fold n index.
    unfold MarkovChain.dispatch. cbn [Z.eqb Pos.eqb].
    rewrite (bind_ok _ _ _ _ _ (destabilize_guard_ok braid b _ Hb')).
    cbn [guarded] in Hg. apply negb_true_iff in Hg.
    unfold n in *. rewrite Hg.
    now apply dispatch_plain.
Qed.

(** X13: an iteration whose guards pass calls the move drawn, once, on the
    working word, with the index drawn (and, for an insertion, the
    generator drawn next), and logs the message of its outcome: the word
    becomes what the move returns, the entry of the step is the message for
    the move type, the name of the move and the flag the move returned, and
    the history shows the draws of the iteration, that one call, and the
    draws the move made.  The guards that pass are those of the unknot for
    Cancel and Destabilize, of the length for Insert, and of the length
    and the generator for Stabilize. *)
Theorem model_step_attempts (s : state) (braid log : loc)
  (step movetype : Z) (b : BraidWord) (d : gmap Z string) :
  heap s !! braid = Some (OBraidWord b) ->
  heap s !! log = Some (ODict d) ->
  word b <> [] ->
  tape s (pos s) mod 7 = movetype ->
  let n := BraidWord.length b in
  let index := tape s (S (pos s)) mod n in
  let lg := BraidWord.largestGenerator b in
  let generator := tape s (S (S (pos s))) mod (lg + 1) in
  let c := call_of movetype index generator in
  let extra := if movetype =? 2 then [LDraw (lg + 1) generator] else [] in
  guarded b c = true ->
  (movetype = 2 -> n + 2 <= maxlen (self s)) ->
  (movetype = 5 -> n + 1 <= maxlen (self s) /\ lg + 1 <= maxgen (self s)) ->
  let result :=
    (outcome (MarkovChain.run_move c b) (tape s)
       (List.length extra + S (S (pos s)))%nat).1 in
  exists (s' : state) (draws : list label),
    MarkovChain.model_step braid log step s = (Ok tt, s')
    /\ self s' = self s
    /\ heap s' !! braid = Some (OBraidWord result.2)
    /\ heap s' !! log
       = Some (ODict (<[step := MarkovChain.log_message movetype
                                  (move_name movetype) result.1]> d))
    /\ history s'
       = history s ++ [LDraw 7 movetype; LDraw n index] ++ extra
         ++ LCall braid c :: draws
    /\ Forall is_draw draws.
Proof.
  intros Hb Hd Hne Hm n index lg generator c extra Hg H2 H5 result.
  destruct (model_step_call s braid log step movetype b Hb Hne Hm Hg H2 H5)
    as (s0 & E & Hs0 & Hh0 & Ht0 & Hp0 & Hy0).
  fold n index lg generator c extra in E, Hp0, Hy0.
  assert (Hb0 : heap s0 !! braid = Some (OBraidWord b)) by now rewrite Hh0.
  assert (Hd0 : heap s0 !! log = Some (ODict d)) by now rewrite Hh0.
  destruct (attempt_outcome braid log step movetype (move_name movetype) c b
              d s0 Hb0 Hd0) as (s' & draws & E' & Hs & Hw & Hl & Hy & Hdr).
  rewrite Ht0, Hp0 in Hw, Hl. fold result in Hw, Hl.
  exists s', draws. rewrite E. split; [exact E' |].
  split_and!; try assumption.
  - now rewrite Hs.
  - rewrite Hy, Hy0. now rewrite <- !app_assoc.
Qed.

End Guards.

(** ** Export to a text file *)

Lemma io_bind_ok {A B : Type} (m : IO A) (k : A -> IO B)
    (fs fs' : gmap string string) (s s' : state) (a : A) :
  m fs s = (Ok a, fs', s') -> io_bind m k fs s = k a fs' s'.
Proof. intros E. unfold io_bind. now rewrite E. Qed.

Lemma lift_ok {A : Type} (m : M A) (fs : gmap string string)
    (s s' : state) (a : A) :
  m s = (Ok a, s') -> lift m fs s = (Ok a, fs, s').
Proof. intros E. unfold lift. now rewrite E. Qed.

Lemma write_twice (file a b : string) (fs : gmap string string) (s : state)
    (c : string) :
  fs !! file = Some c ->
  (do* _ := write file a in write file b) fs s
  = (Ok tt, <[file := c +:+ (a +:+ b)]> fs, s).
Proof.
  intros E. unfold io_bind, write. rewrite E, lookup_insert_eq. cbn [default].
  rewrite insert_insert_eq. cbv [id]. now rewrite append_assoc.
Qed.

Lemma read_word_ok (l : loc) (w : list Z) (s : state) :
  heap s !! l = Some (OBraidWord {| word := w |}) ->
  read_word (RWord l) s = (Ok w, s).
Proof.
  intros E. unfold read_word. cbn [ref_target].
  now rewrite (bind_ok _ _ _ _ _ (as_braid_ok _ _ _ E)).
Qed.

Lemma append_empty (c : string) : c +:+ "" = c.
Proof.
  induction c as [|x c IH]; [reflexivity |].
  change (String x (c +:+ "") = String x c). now rewrite IH.
Qed.

Lemma write_lines {A B : Type} (file : string) (read : A -> M B)
    (render : B -> string) (s : state) :
  forall (xs : list A) (bs : list B) (fs : gmap string string) (c : string),
    Forall2 (fun x b => read x s = (Ok b, s)) xs bs ->
    fs !! file = Some c ->
    io_for xs (fun x =>
      do* b := lift (read x) in
      do* _ := write file (render b) in
      write file newline) fs s
    = (Ok tt, <[file := c +:+ text_of_lines (map render bs)]> fs, s).
Proof.
  intros xs bs fs c H. revert fs c.
  induction H as [|x b xs bs Hx _ IH]; intros fs c E.
  - cbn. unfold io_ret. rewrite append_empty.
    now rewrite (insert_id _ _ _ E).
  - cbn [map io_for text_of_lines].
    erewrite io_bind_ok.
    2:{ erewrite io_bind_ok; [| apply lift_ok; exact Hx].
        apply write_twice. exact E. }
    rewrite (IH _ (c +:+ (render b +:+ newline))).
    + rewrite insert_insert_eq. now rewrite !append_assoc.
    + apply lookup_insert_eq.
Qed.

Lemma write_ok (file text : string) (fs : gmap string string) (s : state)
    (c : string) :
  fs !! file = Some c ->
  write file text fs s = (Ok tt, <[file := c +:+ text]> fs, s).
Proof. intros E. unfold write. now rewrite E. Qed.

(** The first block of the export: the file is emptied and receives the
    text of the stored words. *)
Lemma totxt_words_block (file : string) (fs : gmap string string) (s : state)
    (ws : list (list Z)) :
  Forall2 (fun l w => heap s !! l = Some (OBraidWord {| word := w |}))
    (agg_braidreps (braidagg (self s))) ws ->
  (do* file := open_w file in
   do* words := lift (MarkovChain.braidreps true) in
   do* _ :=
     io_for words (fun braid =>
       do* gens := lift (read_word braid) in
       do* _ := write file (String.concat " " (map MarkovChain.str gens)) in
       write file newline) in
   write file newline) fs s
  = (Ok tt, <[file := text_of_words ws]> fs, s).
Proof.
  intros H.
  assert (Hb : MarkovChain.braidreps true s
               = (Ok (map RWord (agg_braidreps (braidagg (self s)))), s)).
  { unfold MarkovChain.braidreps.
    rewrite (bind_ok _ _ _ _ _ (eq_refl : gets _ s = _)).
    apply words_of_ok. clear -H.
    induction H; constructor; eauto. }
  erewrite io_bind_ok; [| reflexivity].
  erewrite io_bind_ok; [| apply lift_ok; exact Hb].
  erewrite io_bind_ok.
  2:{ apply (write_lines file read_word
               (fun gens => String.concat " " (map MarkovChain.str gens))
               s _ ws _ "").
      - apply Forall2_fmap_l.
        eapply Forall2_impl; [exact H |].
        intros l w Hl. now apply read_word_ok.
      - apply lookup_insert_eq. }
  erewrite write_ok; [| apply lookup_insert_eq].
  now rewrite !insert_insert_eq.
Qed.


(** *** The text determines the words *)

Lemma chars_app (a b : string) :
  list_ascii_of_string (a +:+ b)
  = list_ascii_of_string a ++ list_ascii_of_string b.
Proof.
  induction a as [|x a IH]; [reflexivity |].
  change (x :: list_ascii_of_string (a +:+ b)
          = x :: (list_ascii_of_string a ++ list_ascii_of_string b)).
  now rewrite IH.
Qed.

Lemma split_at_unique (c : Ascii.ascii) (a b ra rb : string) :
  ~ In c (list_ascii_of_string a) ->
  ~ In c (list_ascii_of_string b) ->
  a +:+ String c ra = b +:+ String c rb ->
  a = b /\ ra = rb.
Proof.
  revert b. induction a as [|x a IH]; intros [|y b] Ha Hb E.
  - now injection E.
  - change (String c ra = String y (b +:+ String c rb)) in E.
    injection E as -> _. exfalso. apply Hb. now left.
  - change (String x (a +:+ String c ra) = String c rb) in E.
    injection E as -> _. exfalso. apply Ha. now left.
  - change (String x (a +:+ String c ra) = String y (b +:+ String c rb)) in E.
    injection E as -> E.
    destruct (IH b) as [-> ->]; [| | exact E | easy].
    + intros Hin. apply Ha. now right.
    + intros Hin. apply Hb. now right.
Qed.

Lemma digits_chars (d : Decimal.uint) (c : Ascii.ascii) :
  In c (list_ascii_of_string (NilEmpty.string_of_uint d)) ->
  c <> Ascii.ascii_of_nat 32 /\ c <> Ascii.ascii_of_nat 10.
Proof.
  induction d; simpl; intros H; try contradiction;
    destruct H as [<- | H]; try (split; discriminate); auto.
Qed.

Lemma str_chars (z : Z) (c : Ascii.ascii) :
  In c (list_ascii_of_string (MarkovChain.str z)) ->
  c <> Ascii.ascii_of_nat 32 /\ c <> Ascii.ascii_of_nat 10.
Proof.
  unfold MarkovChain.str, NilZero.string_of_int, NilZero.string_of_uint.
  destruct (Z.to_int z) as [d|d]; destruct d; simpl;
    intros H; repeat (destruct H as [<- | H]; [split; discriminate |]);
    try contradiction; now apply digits_chars in H.
Qed.

Lemma str_nonempty (z : Z) : MarkovChain.str z <> "".
Proof.
  unfold MarkovChain.str, NilZero.string_of_int, NilZero.string_of_uint.
  destruct (Z.to_int z) as [d|d]; destruct d; discriminate.
Qed.

Lemma to_int_nonnil (z : Z) :
  Z.to_int z <> Decimal.Pos Decimal.Nil /\ Z.to_int z <> Decimal.Neg Decimal.Nil.
Proof.
  destruct z as [|p|p]; cbn; split; try discriminate;
    intros [= E]; now apply DecimalPos.Unsigned.to_uint_nonnil in E.
Qed.

Lemma str_inj (a b : Z) : MarkovChain.str a = MarkovChain.str b -> a = b.
Proof.
  unfold MarkovChain.str. intros E.
  apply DecimalZ.to_int_inj.
  destruct (to_int_nonnil a) as [Ha1 Ha2], (to_int_nonnil b) as [Hb1 Hb2].
  pose proof (NilZero.isi _ Ha1 Ha2) as Ia.
  pose proof (NilZero.isi _ Hb1 Hb2) as Ib.
  rewrite E in Ia. congruence.
Qed.

Lemma append_nonempty (a r : string) (c : Ascii.ascii) :
  a +:+ String c r <> "".
Proof. destruct a; discriminate. Qed.

Lemma concat_cons2 (sep x y : string) (rest : list string) :
  String.concat sep (x :: y :: rest)
  = x +:+ (sep +:+ String.concat sep (y :: rest)).
Proof. reflexivity. Qed.

Lemma line_chars (w : list Z) (c : Ascii.ascii) :
  In c (list_ascii_of_string (String.concat " " (map MarkovChain.str w))) ->
  c <> Ascii.ascii_of_nat 10.
Proof.
  induction w as [|a [|b w] IH].
  - intros [].
  - intros H. now apply str_chars in H.
  - cbn [map]. rewrite concat_cons2, chars_app. intros H.
    apply in_app_or in H as [H | H]; [now apply str_chars in H |].
    destruct H as [<- | H]; [discriminate | now apply IH].
Qed.

Lemma line_inj (w1 w2 : list Z) :
  String.concat " " (map MarkovChain.str w1)
  = String.concat " " (map MarkovChain.str w2) ->
  w1 = w2.
Proof.
  revert w2. induction w1 as [|a [|a' w1] IH]; intros [|b [|b' w2]] E;
    try reflexivity; cbn [map] in E; rewrite ?concat_cons2 in E.
  - symmetry in E. now apply str_nonempty in E.
  - symmetry in E. now apply append_nonempty in E.
  - now apply str_nonempty in E.
  - apply str_inj in E. now subst.
  - exfalso.
    assert (H : In (Ascii.ascii_of_nat 32)
                  (list_ascii_of_string
                     (String.concat " " [MarkovChain.str a]))).
    { rewrite E, chars_app. apply in_or_app. right. now left. }
    now apply (str_chars a) in H as [H _].
  - now apply append_nonempty in E.
  - exfalso.
    assert (H : In (Ascii.ascii_of_nat 32)
                  (list_ascii_of_string
                     (String.concat " " [MarkovChain.str b]))).
    { rewrite <- E, chars_app. apply in_or_app. right. now left. }
    now apply (str_chars b) in H as [H _].
  - apply split_at_unique in E as [Ea Er].
    + apply str_inj in Ea. subst b. f_equal. now apply IH.
    + intros H. now apply str_chars in H as [H _].
    + intros H. now apply str_chars in H as [H _].
Qed.

Lemma text_of_words_inj (ws1 ws2 : list (list Z)) :
  text_of_words ws1 = text_of_words ws2 -> ws1 = ws2.
Proof.
  unfold text_of_words. revert ws2.
  induction ws1 as [|w1 ws1 IH]; intros [|w2 ws2] E;
    cbn [map text_of_lines] in E; rewrite ?append_assoc in E.
  - reflexivity.
  - exfalso.
    change ("" +:+ String (Ascii.ascii_of_nat 10) ""
            = String.concat " " (map MarkovChain.str w2)
              +:+ String (Ascii.ascii_of_nat 10)
                    (text_of_lines
                       (map (fun w => String.concat " " (map MarkovChain.str w))
                          ws2) +:+ newline)) in E.
    apply split_at_unique in E as [_ E].
    + symmetry in E. now apply append_nonempty in E.
    + intros [].
    + intros H. now apply line_chars in H.
  - exfalso.
    change (String.concat " " (map MarkovChain.str w1)
              +:+ String (Ascii.ascii_of_nat 10)
                    (text_of_lines
                       (map (fun w => String.concat " " (map MarkovChain.str w))
                          ws1) +:+ newline)
            = "" +:+ String (Ascii.ascii_of_nat 10) "") in E.
    apply split_at_unique in E as [_ E].
    + now apply append_nonempty in E.
    + intros H. now apply line_chars in H.
    + intros [].
  - change (String.concat " " (map MarkovChain.str w1)
              +:+ String (Ascii.ascii_of_nat 10)
                    (text_of_lines
                       (map (fun w => String.concat " " (map MarkovChain.str w))
                          ws1) +:+ newline)
            = String.concat " " (map MarkovChain.str w2)
              +:+ String (Ascii.ascii_of_nat 10)
                    (text_of_lines
                       (map (fun w => String.concat " " (map MarkovChain.str w))
                          ws2) +:+ newline)) in E.
    apply split_at_unique in E as [Ew E].
    + apply line_inj in Ew. subst w2. f_equal. now apply IH.
    + intros H. now apply line_chars in H.
    + intros H. now apply line_chars in H.
Qed.

Lemma words_of_raises (isos : list loc) (s : state) :
  Exists (fun l => forall w, heap s !! l <> Some (OBraidWord w)) isos ->
  exists e : exn, MarkovChain.words_of isos s = (Raised e, s).
Proof.
  induction isos as [|l isos IH]; intros H; [now apply Exists_nil in H |].
  cbn [MarkovChain.words_of].
  destruct (heap s !! l) as [[w|d]|] eqn:El.
  - rewrite (bind_ok _ _ _ _ _ (as_braid_ok _ _ _ El)).
    apply Exists_cons in H as [H | H]; [now destruct (H w) |].
    destruct (IH H) as [e E]. exists e.
    now rewrite (bind_raised _ _ _ _ _ E).
  - exists AttributeError. apply bind_raised.
    unfold as_braid, bind, load. now rewrite El.
  - exists InvalidRef. apply bind_raised.
    unfold as_braid, bind, load. now rewrite El.
Qed.

(** *** The export as a whole *)

Section TotxtResults.
Variable str_obj : obj -> string.

Lemma totxt_words_only (path : string) (fs : gmap string string)
    (s : state) (ws : list (list Z)) :
  Forall2 (fun l w => heap s !! l = Some (OBraidWord {| word := w |}))
    (agg_braidreps (braidagg (self s))) ws ->
  totxt str_obj path true fs s
  = (Ok tt,
     <[(if String.eqb path "" then "braidreps.txt" else path)
       := text_of_words ws]> fs,
     s).
Proof.
  intros H. unfold totxt. cbn [negb].
  set (file := if String.eqb path "" then "braidreps.txt" else path).
  pose proof (totxt_words_block file fs s ws H) as E.
  unfold io_bind, open_w in E |- *.
  destruct (lift (MarkovChain.braidreps true) _ s) as [[[words|e] fs1] s1];
    [| discriminate].
  destruct (io_for words _ fs1 s1) as [[[[]|e] fs2] s2]; [| discriminate].
  now rewrite E.
Qed.




End TotxtResults.

(** ** The further results at concrete inputs *)

Lemma model_without_steps_witness :
  exists (s' : state) (reps logs : list loc),
    MarkovChain.model (moves := SpecMoves.moves) 2 0
      (example_engine (seed_of [])) = (Ok tt, s')
    /\ history s' = history (example_engine (seed_of []))
    /\ pos s' = pos (example_engine (seed_of []))
    /\ working_word s' {| word := [1; 2; 3] |}
    /\ agg_braidreps (braidagg (self s'))
       = agg_braidreps (braidagg (self (example_engine (seed_of []))))
         ++ reps
    /\ agg_logs (braidagg (self s'))
       = agg_logs (braidagg (self (example_engine (seed_of [])))) ++ logs
    /\ List.length reps = Z.to_nat 2
    /\ List.length logs = Z.to_nat 2
    /\ Forall (fun l => heap s' !! l
                        = Some (OBraidWord {| word := [1; 2; 3] |})) reps
    /\ Forall (fun l => heap s' !! l = Some (ODict ∅)) logs.
Proof.
  apply (model_without_steps (moves := SpecMoves.moves) 2 0
           {| word := [1; 2; 3] |} (example_engine (seed_of [])));
    [lia | reflexivity].
Defined.

Lemma model_raises_on_empty_word_witness :
  MarkovChain.model (moves := SpecMoves.moves) 1 1
    (empty_engine (seed_of [3]))
  = (Raised ValueError,
     emit (LDraw 7 (tape (empty_engine (seed_of [3]))
                      (pos (empty_engine (seed_of [3]))) mod 7))
       (advance
          (set_heap (fun h => h ++ [ODict ∅]) (empty_engine (seed_of [3]))))).
Proof.
  apply (model_raises_on_empty_word (moves := SpecMoves.moves) 1 1
           {| word := [] |} (empty_engine (seed_of [3])));
    [reflexivity | reflexivity | lia | lia].
Defined.

Lemma model_keeps_invariant_witness :
  exists (s' : state) (b' : BraidWord) (reps : list loc),
    MarkovChain.model (moves := SpecMoves.moves) 2 3
      (example_engine (seed_of [2; 0; 0; 5; 1; 1; 1; 0; 6; 0; 4; 1]))
    = (Ok tt, s')
    /\ working_word s' b' /\ word b' <> []
    /\ agg_braidreps (braidagg (self s'))
       = agg_braidreps
           (braidagg
              (self (example_engine
                       (seed_of [2; 0; 0; 5; 1; 1; 1; 0; 6; 0; 4; 1]))))
         ++ reps
    /\ Forall (fun l => exists w,
                 heap s' !! l = Some (OBraidWord w) /\ word w <> []) reps.
Proof.
  apply (model_keeps_invariant (moves := SpecMoves.moves)
           (fun b => word b <> []) 2 3 {| word := [1; 2; 3] |}
           (example_engine (seed_of [2; 0; 0; 5; 1; 1; 1; 0; 6; 0; 4; 1])));
    [ intros w H; exact H
    | apply nonempty_kept, spec_moves_keep_nonempty
    | reflexivity
    | discriminate ].
Defined.

Lemma model_within_bounds_witness :
  let s := example_engine (seed_of [2; 0; 0; 5; 1; 1; 1; 0; 6; 0; 4; 1]) in
  exists (s' : state) (b' : BraidWord) (reps : list loc),
    MarkovChain.model (moves := SpecMoves.moves) 2 3 s = (Ok tt, s')
    /\ working_word s' b' /\ within_bounds (self s) b'
    /\ agg_braidreps (braidagg (self s'))
       = agg_braidreps (braidagg (self s)) ++ reps
    /\ Forall (fun l => exists w,
                 heap s' !! l = Some (OBraidWord w)
                 /\ 1 <= BraidWord.length w <= maxlen (self s)
                 /\ BraidWord.largestGenerator w <= maxgen (self s)) reps.
Proof.
  apply (model_within_bounds (moves := SpecMoves.moves) 2 3
           {| word := [1; 2; 3] |}
           (example_engine (seed_of [2; 0; 0; 5; 1; 1; 1; 0; 6; 0; 4; 1])));
    [ exact spec_moves_keep_nonempty
    | exact spec_moves_bounded
    | reflexivity
    | unfold within_bounds; vm_compute; repeat split; discriminate ].
Defined.

Lemma model_entries_well_formed_witness :
  let s := example_engine (seed_of [2; 0; 0; 5; 1; 1; 1; 0; 6; 0; 4; 1]) in
  exists (s' : state) (logs : list loc),
    MarkovChain.model (moves := SpecMoves.moves) 2 3 s = (Ok tt, s')
    /\ agg_logs (braidagg (self s'))
       = agg_logs (braidagg (self s)) ++ logs
    /\ Forall (fun l => exists d,
                 heap s' !! l = Some (ODict d)
                 /\ forall (k : Z) (msg : string),
                      d !! k = Some msg ->
                      exists movetype : Z,
                        0 <= movetype <= 6
                        /\ (msg = MarkovChain.log_message movetype
                                    (move_name movetype) true
                            \/ msg = MarkovChain.log_message movetype
                                       (move_name movetype) false
                            \/ ((movetype = 1 \/ movetype = 6)
                                /\ msg = MarkovChain.log_message movetype
                                           (move_name movetype) false
                                         +:+ "Unknot"))) logs.
Proof.
  apply (model_entries_well_formed (moves := SpecMoves.moves) 2 3
           {| word := [1; 2; 3] |}
           (example_engine (seed_of [2; 0; 0; 5; 1; 1; 1; 0; 6; 0; 4; 1])));
    [exact spec_moves_keep_nonempty | reflexivity | discriminate].
Defined.

Lemma model_last_snapshot_witness :
  exists (s' : state) (b' : BraidWord) (l : loc),
    MarkovChain.model (moves := SpecMoves.moves) 2 3
      (example_engine (seed_of [2; 0; 0; 5; 1; 1; 1; 0; 6; 0; 4; 1]))
    = (Ok tt, s')
    /\ last (agg_braidreps (braidagg (self s'))) = Some l
    /\ l <> braid (self s')
    /\ heap s' !! l = Some (OBraidWord b')
    /\ working_word s' b'.
Proof.
  apply (model_last_snapshot (moves := SpecMoves.moves) 2 3
           {| word := [1; 2; 3] |}
           (example_engine (seed_of [2; 0; 0; 5; 1; 1; 1; 0; 6; 0; 4; 1])));
    [exact spec_moves_keep_nonempty | reflexivity | discriminate | lia].
Defined.

Lemma model_keeps_existing_objects_witness :
  let s := example_modelled (seed_of [2; 0; 0; 5; 1; 1; 1; 0; 6; 0; 4; 1]) in
  exists (s' : state) (reps logs : list loc),
    MarkovChain.model (moves := SpecMoves.moves) 1 2 s = (Ok tt, s')
    /\ braid (self s') = braid (self s)
    /\ maxgen (self s') = maxgen (self s)
    /\ maxlen (self s') = maxlen (self s)
    /\ agg_braidreps (braidagg (self s'))
       = agg_braidreps (braidagg (self s)) ++ reps
    /\ agg_logs (braidagg (self s'))
       = agg_logs (braidagg (self s)) ++ logs
    /\ (forall l, l ∈ reps ++ logs -> heap s !! l = None)
    /\ (forall (l : loc) (o : obj),
          l <> braid (self s) -> heap s !! l = Some o ->
          heap s' !! l = Some o).
Proof.
  apply (model_keeps_existing_objects (moves := SpecMoves.moves) 1 2
           {| word := [1; 2; 3] |}
           (example_modelled
              (seed_of [2; 0; 0; 5; 1; 1; 1; 0; 6; 0; 4; 1])));
    [exact spec_moves_keep_nonempty | reflexivity | discriminate].
Defined.

Lemma aggregate_is_deep_copy_witness :
  let s := example_modelled (seed_of [2; 0; 0; 5; 1; 1; 1; 0; 6; 0; 4; 1]) in
  exists (a : braidagg_t) (s1 : state),
    MarkovChain.aggregate s = (Ok a, s1)
    /\ self s1 = self s
    /\ (forall l, l ∈ refs a -> heap s !! l = None)
    /\ (forall (l : loc) (o : obj),
          heap s !! l = Some o -> heap s1 !! l = Some o)
    /\ view (heap s1) a = view (heap s) (braidagg (self s))
    /\ forall h' : list obj,
         touched_only (refs a) (heap s1) h' ->
         exists (a' : braidagg_t) (s2 : state),
           MarkovChain.aggregate (set_heap (fun _ => h') s1) = (Ok a', s2)
           /\ view (heap s2) a' = view (heap s1) a.
Proof.
  apply (aggregate_is_deep_copy
           (example_modelled
              (seed_of [2; 0; 0; 5; 1; 1; 1; 0; 6; 0; 4; 1]))).
  vm_compute. repeat constructor.
Defined.

Lemma logs_is_deep_copy_witness :
  let s := example_modelled (seed_of [2; 0; 0; 5; 1; 1; 1; 0; 6; 0; 4; 1]) in
  exists (ls : list loc) (s1 : state),
    MarkovChain.logs s = (Ok ls, s1)
    /\ self s1 = self s
    /\ (forall l, l ∈ ls -> heap s !! l = None)
    /\ (forall (l : loc) (o : obj),
          heap s !! l = Some o -> heap s1 !! l = Some o)
    /\ map (fun l => heap s1 !! l) ls
       = map (fun l => heap s !! l) (agg_logs (braidagg (self s)))
    /\ forall h' : list obj,
         touched_only ls (heap s1) h' ->
         exists (ls' : list loc) (s2 : state),
           MarkovChain.logs (set_heap (fun _ => h') s1) = (Ok ls', s2)
           /\ map (fun l => heap s2 !! l) ls'
              = map (fun l => heap s1 !! l) ls.
Proof.
  apply (logs_is_deep_copy
           (example_modelled
              (seed_of [2; 0; 0; 5; 1; 1; 1; 0; 6; 0; 4; 1]))).
  vm_compute. repeat constructor.
Defined.

Lemma braidreps_forms_agree_witness :
  let s := example_modelled (seed_of [2; 0; 0; 5; 1; 1; 1; 0; 6; 0; 4; 1]) in
  let isos := agg_braidreps (braidagg (self s)) in
  exists ws : list (list Z),
    MarkovChain.braidreps true s = (Ok (map RWord isos), s)
    /\ MarkovChain.braidreps false s = (Ok (map RObj isos), s)
    /\ contents (map RWord isos) s = (Ok ws, s)
    /\ contents (map RObj isos) s = (Ok ws, s)
    /\ Forall2 (fun l w => heap s !! l = Some (OBraidWord {| word := w |}))
         isos ws.
Proof.
  apply (braidreps_forms_agree
           (example_modelled
              (seed_of [2; 0; 0; 5; 1; 1; 1; 0; 6; 0; 4; 1]))).
  vm_compute. repeat (constructor; [eexists; reflexivity |]). constructor.
Defined.

Lemma insert_refused_witness :
  let s := bounded_trial 9 4 (seed_of [2; 1]) in
  exists s' : state,
    MarkovChain.model_step (moves := SpecMoves.moves) 0%nat 1%nat 0 s
    = (Ok tt, s')
    /\ self s' = self s
    /\ pos s' = S (S (pos s))
    /\ heap s' !! 0%nat = Some (OBraidWord {| word := [1; 2; 3] |})
    /\ heap s' !! 1%nat
       = Some (ODict (<[0 := MarkovChain.log_message 2 "insert" false]> ∅))
    /\ history s' = history s ++ [LDraw 7 2; LDraw 3 1].
Proof.
  apply (insert_refused (moves := SpecMoves.moves)
           (bounded_trial 9 4 (seed_of [2; 1])) 0%nat 1%nat 0
           {| word := [1; 2; 3] |} ∅);
    [reflexivity | reflexivity | discriminate | reflexivity
    | vm_compute; reflexivity].
Defined.

Lemma model_step_attempts_witness :
  (exists (s' : state) (draws : list label),
     MarkovChain.model_step (moves := SpecMoves.moves) 0%nat 1%nat 0
       (example_trial (seed_of [0; 1])) = (Ok tt, s')
     /\ self s' = self (example_trial (seed_of [0; 1]))
     /\ heap s' !! 0%nat = Some (OBraidWord {| word := [2; 3; 1] |})
     /\ heap s' !! 1%nat
        = Some (ODict (<[0 := MarkovChain.log_message 0 "conjugate" true]> ∅))
     /\ history s'
        = [LDraw 7 0; LDraw 3 1; LCall 0%nat (Conjugate 1)] ++ draws
     /\ Forall is_draw draws)
  /\ (exists (s' : state) (draws : list label),
        MarkovChain.model_step (moves := SpecMoves.moves) 0%nat 1%nat 0
          (example_trial (seed_of [2; 1; 3])) = (Ok tt, s')
        /\ self s' = self (example_trial (seed_of [2; 1; 3]))
        /\ heap s' !! 0%nat
           = Some (OBraidWord {| word := [1; 3; -3; 2; 3] |})
        /\ heap s' !! 1%nat
           = Some (ODict (<[0 := MarkovChain.log_message 2 "insert" true]> ∅))
        /\ history s'
           = [LDraw 7 2; LDraw 3 1; LDraw 4 3; LCall 0%nat (Insert 1 3)]
             ++ draws
        /\ Forall is_draw draws)
  /\ (exists (s' : state) (draws : list label),
        MarkovChain.model_step (moves := SpecMoves.moves) 0%nat 1%nat 0
          (example_trial (seed_of [6; 1])) = (Ok tt, s')
        /\ self s' = self (example_trial (seed_of [6; 1]))
        /\ heap s' !! 0%nat = Some (OBraidWord {| word := [1; 2] |})
        /\ heap s' !! 1%nat
           = Some (ODict (<[0 := MarkovChain.log_message 6 "destabilize"
                                    true]> ∅))
        /\ history s'
           = [LDraw 7 6; LDraw 3 1; LCall 0%nat Destabilize] ++ draws
        /\ Forall is_draw draws).
Proof.
  split_and!.
  - apply (model_step_attempts (moves := SpecMoves.moves)
             (example_trial (seed_of [0; 1])) 0%nat 1%nat 0 0
             {| word := [1; 2; 3] |} ∅);
      [reflexivity | reflexivity | discriminate | reflexivity | reflexivity
      | discriminate | discriminate].
  - apply (model_step_attempts (moves := SpecMoves.moves)
             (example_trial (seed_of [2; 1; 3])) 0%nat 1%nat 0 2
             {| word := [1; 2; 3] |} ∅);
      [reflexivity | reflexivity | discriminate | reflexivity | reflexivity
      | intros _; vm_compute; discriminate | discriminate].
  - apply (model_step_attempts (moves := SpecMoves.moves)
             (example_trial (seed_of [6; 1])) 0%nat 1%nat 0 6
             {| word := [1; 2; 3] |} ∅);
      [reflexivity | reflexivity | discriminate | reflexivity | reflexivity
      | discriminate | discriminate].
Defined.




